(** * Emerald Hill compression engine driver: ring and command-slot protocol

    A shallow embedding of [drivers/soc/google/eh/eh_main.c]: the
    compression descriptor FIFO (producer [eh_compress_page], reaper
    [eh_comp_thread]), the polled decompression path
    ([eh_decompress_page], [eh_setup_dcmd]) and the power-management
    entry points ([eh_suspend], [eh_resume]).

    Driver state is threaded explicitly.  Every function returns the
    new [eh_device] together with the list of [event]s it emitted
    (callback invocations, lock operations, copies, diagnostics), so the
    observable behaviour of a run is the concatenation of these lists.

    The engine itself is not part of the driver.  It appears as one more
    actor ([hw_complete]) that completes the descriptors published to
    it, in index order, and stops after a descriptor it completed with
    [EH_CDESC_ERROR_HALTED].  Driver entry points and the engine are
    interleaved by [step]; the two halves of the error path of the
    completion thread are separate steps, since no lock is held between
    them. *)

From Stdlib Require Import ZArith Lia Bool List.
From stdpp Require Import base list list_numbers.

Open Scope Z_scope.

(** * Kernel constants and helpers *)

(** errno values of [include/uapi/asm-generic/errno-base.h] and
    [errno.h]. *)
Definition EIO : Z := 5.
Definition EBUSY : Z := 16.
Definition EINVAL : Z := 22.
Definition ETIME : Z := 62.

(** The comment in [eh_setup_dcmd] fixes the page size at 4096 bytes. *)
Definition PAGE_SIZE : Z := 4096.

(** A null pointer. *)
Definition NULL : Z := 0.

(** Index of the least significant set bit of a binary positive. *)
Fixpoint ffs_pos (p : positive) : Z :=
  match p with
  | xO q => 1 + ffs_pos q
  | _ => 0
  end.

(** [__ffs(word)]: index of the least significant set bit.  The kernel
    leaves the result undefined for 0; here it is 0. *)
Definition __ffs (word : Z) : Z :=
  match word with
  | Zpos p => ffs_pos p
  | _ => 0
  end.

(** Index of the most significant set bit of a binary positive. *)
Fixpoint fls_pos (p : positive) : Z :=
  match p with
  | xH => 0
  | xO q | xI q => 1 + fls_pos q
  end.

(** [__fls(word)]: index of the most significant set bit (undefined for
    0 in the kernel, 0 here). *)
Definition __fls (word : Z) : Z :=
  match word with
  | Zpos p => fls_pos p
  | _ => 0
  end.

(** Wrap-around of 32-bit unsigned arithmetic. *)
Definition u32 (x : Z) : Z := x mod 2 ^ 32.

(** Reinterpretation of a 64-bit pattern as a signed long. *)
Definition s64 (x : Z) : Z :=
  let y := x mod 2 ^ 64 in
  if y <? 2 ^ 63 then y else y - 2 ^ 64.

(** [time_after(a, b)]: [(long)((b) - (a)) < 0]. *)
Definition time_after (a b : Z) : bool := s64 (b - a) <? 0.

(** * Data model *)

(** Status field of a compression descriptor. *)
Inductive eh_cdesc_status : Set :=
| EH_CDESC_IDLE
| EH_CDESC_PENDING
| EH_CDESC_COMPRESSED
| EH_CDESC_COPIED
| EH_CDESC_ABORT
| EH_CDESC_ZERO
| EH_CDESC_ERROR_CONTINUE
| EH_CDESC_ERROR_HALTED.

#[global] Instance eh_cdesc_status_eq_dec : EqDecision eh_cdesc_status.
Proof. solve_decision. Defined.

(** Status field of a decompression command set.  Only two codes are
    named by the driver; every other value is carried as such. *)
Inductive eh_dcmd_status : Set :=
| EH_DCMD_PENDING
| EH_DCMD_DECOMPRESSED
| EH_DCMD_OTHER (code : Z).

#[global] Instance eh_dcmd_status_eq_dec : EqDecision eh_dcmd_status.
Proof. solve_decision. Defined.

(** [struct eh_compress_desc], the fields the driver reads or writes
    after [init_compression_descriptor]. *)
Record eh_compress_desc : Set := mk_desc {
  src_addr : Z;
  status : eh_cdesc_status;
  compr_len : Z;
  buf_sel : Z
}.

(** [struct eh_completion]. *)
Record eh_completion : Set := mk_cmpl {
  priv : Z
}.

#[global] Instance eh_compress_desc_inhabited : Inhabited eh_compress_desc :=
  populate (mk_desc 0 EH_CDESC_IDLE 0 0).
#[global] Instance eh_completion_inhabited : Inhabited eh_completion :=
  populate (mk_cmpl NULL).

(** The register block, by the fields the driver decodes from it.  The
    header with the offsets and bit positions is not part of the
    sources at hand, so a register is represented by its decoded
    content. *)
Record eh_regs : Set := mk_regs {
  (** [EH_REG_CDESC_CTRL & EH_CDESC_CTRL_COMPLETE_IDX_MASK] *)
  cdesc_complete_idx : Z;
  (** bit [EH_CDESC_CTRL_COMPRESS_ENABLE_SHIFT] of [EH_REG_CDESC_CTRL] *)
  cdesc_compress_enable : bool;
  (** [EH_REG_CDESC_WRIDX] *)
  cdesc_wridx : Z;
  (** [EH_REG_ERR_COND] *)
  err_cond : Z;
  (** [EH_REG_INTRP_MASK_ERROR], [_CMP], [_DCMP] *)
  intrp_mask_error : Z;
  intrp_mask_cmp : Z;
  intrp_mask_dcmp : Z;
  (** not a register: the engine stopped fetching descriptors after it
      completed one with [EH_CDESC_ERROR_HALTED] *)
  fifo_halted : bool
}.

(** Control state of the completion thread [eh_comp_thread]: inside its
    loop, between a failed [eh_update_complete_index] and the read of
    the error register, or returned. *)
Inductive comp_thread_state : Set :=
| THREAD_RUNNING
| THREAD_ERROR_SEEN
| THREAD_EXITED.

#[global] Instance comp_thread_state_eq_dec : EqDecision comp_thread_state.
Proof. solve_decision. Defined.

(** [struct eh_device]. *)
Record eh_device : Set := mk_eh_device {
  fifo_size : Z;
  fifo_index_mask : Z;
  fifo_color_mask : Z;
  write_index : Z;
  complete_index : Z;
  fifo : list eh_compress_desc;
  completions : list eh_completion;
  compr_buffers : list Z;
  nr_request : Z;
  suspended : bool;
  decompr_cmd_count : Z;
  decompr_busy : list bool;
  decompr_buffers : list Z;
  regs : eh_regs;
  clk_enabled : bool;
  comp_thread : comp_thread_state
}.

(** Locks of the device. *)
Inductive eh_lock : Set :=
| fifo_prod_lock
| decompr_lock (i : Z).

(** Latency event types of [eh_update_latency]. *)
Inductive eh_event_type : Set :=
| EH_COMPRESS
| EH_DECOMPRESS_POLL.

(** Observable actions. *)
Inductive event : Set :=
| EvLock (l : eh_lock)
| EvUnlock (l : eh_lock)
(** [( *eh_dev->comp_callback)(compr_status, compr_data, compr_size, priv)] *)
| EvCallback (compr_status : eh_cdesc_status) (compr_data compr_size priv : Z)
| EvMemcpy (dst src n : Z)
(** writes to the registers of decompression command set [index] *)
| EvDcmdCsize (index compr_size : Z)
| EvDcmdBuf0 (index size_code src_paddr : Z)
| EvDcmdBuf (index n v : Z)
| EvDcmdDest (index dst_paddr : Z) (st : eh_dcmd_status)
| EvLatency (t : eh_event_type)
| EvDumpRegs
| EvWarn
| EvWakeCompressWait.

#[global] Instance eh_lock_eq_dec : EqDecision eh_lock.
Proof. solve_decision. Defined.
#[global] Instance eh_event_type_eq_dec : EqDecision eh_event_type.
Proof. solve_decision. Defined.
#[global] Instance event_eq_dec : EqDecision event.
Proof. solve_decision. Defined.

Section Driver.

(** Address translation of the kernel, an injective map in practice but
    left arbitrary here. *)
Variable virt_to_phys : Z -> Z.
Variable page_to_phys : Z -> Z.

(** * Decompression command setup *)

(** [eh_setup_dcmd]: program command set [index] for one page. *)
Definition eh_setup_dcmd (s : eh_device) (index compr_data compr_size dst_page : Z)
  : list event :=
  let alignment := Z.shiftl 1 (__ffs compr_data) in
  let '(copy, src_paddr, alignment) :=
    if (alignment <? 64) || (alignment <? compr_size) then
      let src_vaddr := decompr_buffers s !!! Z.to_nat index in
      ([EvMemcpy src_vaddr compr_data compr_size],
       virt_to_phys src_vaddr, PAGE_SIZE)
    else
      ([], virt_to_phys compr_data,
       if PAGE_SIZE <? alignment then PAGE_SIZE else alignment) in
  copy ++
  [ EvDcmdCsize index compr_size;
    EvDcmdBuf0 index (__ffs alignment - 5) src_paddr;
    EvDcmdBuf index 1 0;
    EvDcmdBuf index 2 0;
    EvDcmdBuf index 3 0;
    EvDcmdDest index (page_to_phys dst_page) EH_DCMD_PENDING ].

(** * Field updates *)

Definition set_write_index (v : Z) (s : eh_device) : eh_device :=
  mk_eh_device (fifo_size s) (fifo_index_mask s) (fifo_color_mask s)
    v (complete_index s) (fifo s) (completions s) (compr_buffers s)
    (nr_request s) (suspended s) (decompr_cmd_count s) (decompr_busy s)
    (decompr_buffers s) (regs s) (clk_enabled s) (comp_thread s).

Definition set_complete_index (v : Z) (s : eh_device) : eh_device :=
  mk_eh_device (fifo_size s) (fifo_index_mask s) (fifo_color_mask s)
    (write_index s) v (fifo s) (completions s) (compr_buffers s)
    (nr_request s) (suspended s) (decompr_cmd_count s) (decompr_busy s)
    (decompr_buffers s) (regs s) (clk_enabled s) (comp_thread s).

Definition set_fifo (v : list eh_compress_desc) (s : eh_device) : eh_device :=
  mk_eh_device (fifo_size s) (fifo_index_mask s) (fifo_color_mask s)
    (write_index s) (complete_index s) v (completions s) (compr_buffers s)
    (nr_request s) (suspended s) (decompr_cmd_count s) (decompr_busy s)
    (decompr_buffers s) (regs s) (clk_enabled s) (comp_thread s).

Definition set_completions (v : list eh_completion) (s : eh_device) : eh_device :=
  mk_eh_device (fifo_size s) (fifo_index_mask s) (fifo_color_mask s)
    (write_index s) (complete_index s) (fifo s) v (compr_buffers s)
    (nr_request s) (suspended s) (decompr_cmd_count s) (decompr_busy s)
    (decompr_buffers s) (regs s) (clk_enabled s) (comp_thread s).

Definition set_nr_request (v : Z) (s : eh_device) : eh_device :=
  mk_eh_device (fifo_size s) (fifo_index_mask s) (fifo_color_mask s)
    (write_index s) (complete_index s) (fifo s) (completions s) (compr_buffers s)
    v (suspended s) (decompr_cmd_count s) (decompr_busy s)
    (decompr_buffers s) (regs s) (clk_enabled s) (comp_thread s).

Definition set_suspended (v : bool) (s : eh_device) : eh_device :=
  mk_eh_device (fifo_size s) (fifo_index_mask s) (fifo_color_mask s)
    (write_index s) (complete_index s) (fifo s) (completions s) (compr_buffers s)
    (nr_request s) v (decompr_cmd_count s) (decompr_busy s)
    (decompr_buffers s) (regs s) (clk_enabled s) (comp_thread s).

Definition set_regs (v : eh_regs) (s : eh_device) : eh_device :=
  mk_eh_device (fifo_size s) (fifo_index_mask s) (fifo_color_mask s)
    (write_index s) (complete_index s) (fifo s) (completions s) (compr_buffers s)
    (nr_request s) (suspended s) (decompr_cmd_count s) (decompr_busy s)
    (decompr_buffers s) v (clk_enabled s) (comp_thread s).

Definition set_clk_enabled (v : bool) (s : eh_device) : eh_device :=
  mk_eh_device (fifo_size s) (fifo_index_mask s) (fifo_color_mask s)
    (write_index s) (complete_index s) (fifo s) (completions s) (compr_buffers s)
    (nr_request s) (suspended s) (decompr_cmd_count s) (decompr_busy s)
    (decompr_buffers s) (regs s) v (comp_thread s).

Definition set_comp_thread (v : comp_thread_state) (s : eh_device) : eh_device :=
  mk_eh_device (fifo_size s) (fifo_index_mask s) (fifo_color_mask s)
    (write_index s) (complete_index s) (fifo s) (completions s) (compr_buffers s)
    (nr_request s) (suspended s) (decompr_cmd_count s) (decompr_busy s)
    (decompr_buffers s) (regs s) (clk_enabled s) v.

Definition set_cdesc_wridx (v : Z) (r : eh_regs) : eh_regs :=
  mk_regs (cdesc_complete_idx r) (cdesc_compress_enable r) v (err_cond r)
    (intrp_mask_error r) (intrp_mask_cmp r) (intrp_mask_dcmp r) (fifo_halted r).

Definition set_cdesc_compress_enable (v : bool) (r : eh_regs) : eh_regs :=
  mk_regs (cdesc_complete_idx r) v (cdesc_wridx r) (err_cond r)
    (intrp_mask_error r) (intrp_mask_cmp r) (intrp_mask_dcmp r) (fifo_halted r).

Definition set_intrp_masks (e c d : Z) (r : eh_regs) : eh_regs :=
  mk_regs (cdesc_complete_idx r) (cdesc_compress_enable r) (cdesc_wridx r)
    (err_cond r) e c d (fifo_halted r).

Definition set_desc_status (v : eh_cdesc_status) (d : eh_compress_desc)
  : eh_compress_desc :=
  mk_desc (src_addr d) v (compr_len d) (buf_sel d).

(** Wrap-around of [unsigned short]. *)
Definition u16 (x : Z) : Z := x mod 2 ^ 16.

(** * Compression FIFO: producer side *)

(** [eh_setup_descriptor]: only the source address and the status are
    rewritten on reuse of a descriptor. *)
Definition eh_setup_descriptor (s : eh_device) (src_page masked_w_index : Z)
  : eh_device :=
  let i := Z.to_nat masked_w_index in
  let desc := fifo s !!! i in
  set_fifo
    (<[i := mk_desc (page_to_phys src_page) EH_CDESC_PENDING
              (compr_len desc) (buf_sel desc)]> (fifo s)) s.

(** Outcome of one pass from the label [try_again] of
    [eh_compress_page]: a return value with the new state, or the jump
    back to the label after the congestion wait. *)
Inductive try_result : Set :=
| TryDone (ret : Z) (s : eh_device)
| TryAgain.

(** One pass of [eh_compress_page] under [fifo_prod_lock]. *)
Definition eh_compress_page_try (s : eh_device) (page priv : Z)
  : try_result * list event :=
  if suspended s then
    (TryDone (- EBUSY) s,
     [EvLock fifo_prod_lock; EvWarn; EvUnlock fifo_prod_lock])
  else
    let complete_index := complete_index s in
    let new_write_index := Z.land (u32 (write_index s + 1)) (fifo_color_mask s) in
    let new_pending_count :=
      Z.land (u32 (new_write_index - complete_index)) (fifo_color_mask s) in
    if fifo_size s <? new_pending_count then
      (TryAgain, [EvLock fifo_prod_lock; EvUnlock fifo_prod_lock])
    else
      let masked_w_index := Z.land (write_index s) (fifo_index_mask s) in
      let s := eh_setup_descriptor s page masked_w_index in
      let s := set_completions
                 (<[Z.to_nat masked_w_index := mk_cmpl priv]> (completions s)) s in
      let s := set_nr_request (nr_request s + 1) s in
      let s := set_write_index new_write_index s in
      let s := set_regs (set_cdesc_wridx new_write_index (regs s)) s in
      (TryDone 0 s, [EvLock fifo_prod_lock; EvUnlock fifo_prod_lock]).

(** [eh_compress_page].  While the caller sleeps in
    [eh_congestion_wait] the other threads run; [others] lists what they
    do to the device during each successive wait.  The result is [None]
    when the list is used up before the call returns. *)
Fixpoint eh_compress_page (others : list (eh_device -> eh_device))
    (s : eh_device) (page priv : Z) : option (Z * eh_device * list event) :=
  match eh_compress_page_try s page priv with
  | (TryDone ret s', ev) => Some (ret, s', ev)
  | (TryAgain, ev) =>
      match others with
      | [] => None
      | f :: others' =>
          match eh_compress_page others' (f s) page priv with
          | Some (ret, s', ev') => Some (ret, s', ev ++ ev')
          | None => None
          end
      end
  end.

(** * Compression FIFO: completion side *)

(** [eh_process_completed_descriptor]. *)
Definition eh_process_completed_descriptor (s : eh_device) (fifo_index : Z)
    (cmpl : eh_completion) : Z * eh_device * list event :=
  let i := Z.to_nat fifo_index in
  let desc := fifo s !!! i in
  let compr_status := status desc in
  let compr_size := compr_len desc in
  let compr_bufsel := buf_sel desc in
  let offset := if compr_bufsel =? 2 then PAGE_SIZE / 2 else 0 in
  let '(compr_data, ret, diag) :=
    match compr_status with
    | EH_CDESC_COPIED => (compr_buffers s !!! i + offset, 0, [])
    | EH_CDESC_COMPRESSED => (compr_buffers s !!! i + offset, 0, [])
    | EH_CDESC_ZERO => (NULL, 0, [])
    | EH_CDESC_ABORT => (NULL, 0, [])
    | EH_CDESC_ERROR_CONTINUE => (NULL, 0, [])
    | EH_CDESC_ERROR_HALTED => (NULL, 1, [])
    | EH_CDESC_IDLE | EH_CDESC_PENDING => (NULL, 0, [EvDumpRegs; EvWarn])
    end in
  let s := set_fifo (<[i := set_desc_status EH_CDESC_IDLE desc]> (fifo s)) s in
  let s := set_nr_request (nr_request s - 1) s in
  (ret, s,
   [EvLatency EH_COMPRESS] ++ diag ++
   [EvCallback compr_status compr_data compr_size (priv cmpl);
    EvWakeCompressWait]).

(** The loop of [eh_process_completions], entered with loop variable
    [i]; [None] when [fuel] iterations do not reach [end_]. *)
Fixpoint eh_process_completions_loop (fuel : nat) (s : eh_device) (i end_ : Z)
  : option (Z * eh_device * list event) :=
  if i =? end_ then Some (0, s, [])
  else
    match fuel with
    | O => None
    | S fuel' =>
        let index := Z.land i (fifo_index_mask s) in
        let cmpl := completions s !!! Z.to_nat index in
        let '(ret, s, ev) := eh_process_completed_descriptor s (u16 index) cmpl in
        let s := set_completions
                   (<[Z.to_nat index := mk_cmpl NULL]> (completions s)) s in
        let s := set_complete_index
                   (Z.land (u32 (complete_index s + 1)) (fifo_color_mask s)) s in
        if negb (ret =? 0) then Some (ret, s, ev)
        else
          match eh_process_completions_loop fuel' s
                  (Z.land (u32 (i + 1)) (fifo_color_mask s)) end_ with
          | Some (ret', s', ev') => Some (ret', s', ev ++ ev')
          | None => None
          end
    end.

Definition eh_process_completions (fuel : nat) (s : eh_device) (start end_ : Z)
  : option (Z * eh_device * list event) :=
  eh_process_completions_loop fuel s start end_.

(** [eh_update_complete_index]. *)
Definition eh_update_complete_index (fuel : nat) (s : eh_device)
  : option (Z * eh_device * list event) :=
  let new_complete_index := cdesc_complete_idx (regs s) in
  if new_complete_index =? complete_index s then Some (0, s, [])
  else eh_process_completions fuel s (complete_index s) new_complete_index.

(** The loop of [eh_abort_incomplete_descriptors]. *)
Fixpoint eh_abort_loop (fuel : nat) (s : eh_device) (i masked_write_index : Z)
  : option (eh_device * list event) :=
  if i =? masked_write_index then Some (s, [])
  else
    match fuel with
    | O => None
    | S fuel' =>
        let cmpl := completions s !!! Z.to_nat i in
        let ev := EvCallback EH_CDESC_ERROR_HALTED NULL 0 (priv cmpl) in
        let s := set_completions
                   (<[Z.to_nat i := mk_cmpl NULL]> (completions s)) s in
        match eh_abort_loop fuel' s (Z.land (i + 1) (fifo_index_mask s))
                masked_write_index with
        | Some (s', ev') => Some (s', ev :: ev')
        | None => None
        end
    end.

(** [eh_abort_incomplete_descriptors]. *)
Definition eh_abort_incomplete_descriptors (fuel : nat) (s : eh_device)
  : option (eh_device * list event) :=
  let masked_write_index := u16 (Z.land (write_index s) (fifo_index_mask s)) in
  let new_complete_index :=
    u16 (Z.land (cdesc_complete_idx (regs s)) (fifo_index_mask s)) in
  eh_abort_loop fuel s new_complete_index masked_write_index.

(** Body of the loop of [eh_comp_thread] up to the return of
    [eh_update_complete_index]. *)
Definition eh_comp_thread_reap (fuel : nat) (s : eh_device)
  : option (eh_device * list event) :=
  match eh_update_complete_index fuel s with
  | Some (ret, s', ev) =>
      Some (if ret =? 0 then s' else set_comp_thread THREAD_ERROR_SEEN s', ev)
  | None => None
  end.

(** Rest of the loop body of [eh_comp_thread] once
    [eh_update_complete_index] returned non-zero: read of
    [EH_REG_ERR_COND], then abort and leave, or warn and go on. *)
Definition eh_comp_thread_error (fuel : nat) (s : eh_device)
  : option (eh_device * list event) :=
  let error := err_cond (regs s) in
  if negb (error =? 0) then
    match eh_abort_incomplete_descriptors fuel s with
    | Some (s', ev) => Some (set_comp_thread THREAD_EXITED s', EvDumpRegs :: ev)
    | None => None
    end
  else Some (set_comp_thread THREAD_RUNNING s, [EvWarn]).

(** One full iteration of the loop of [eh_comp_thread], with nothing
    else running in between. *)
Definition eh_comp_thread_iteration (fuel : nat) (s : eh_device)
  : option (eh_device * list event) :=
  match eh_comp_thread_reap fuel s with
  | Some (s', ev) =>
      match comp_thread s' with
      | THREAD_ERROR_SEEN =>
          match eh_comp_thread_error fuel s' with
          | Some (s'', ev') => Some (s'', ev ++ ev')
          | None => None
          end
      | _ => Some (s', ev)
      end
  | None => None
  end.

(** * Decompression *)

(** Bound of the polling loop, [msecs_to_jiffies(EH_POLL_DELAY_MS)]; the
    constant is declared in a header that is not at hand. *)
Variable EH_POLL_DELAY_JIFFIES : Z.

(** Outcome of the polling loop of [eh_decompress_page]. *)
Inductive poll_result : Set :=
| PollTimeout
| PollStatus (st : eh_dcmd_status).

(** The do-while loop of [eh_decompress_page].  [obs n] is what the
    [n]-th iteration reads: the value of [jiffies] and the status of the
    command set.  [None] when [fuel] iterations do not leave the loop. *)
Fixpoint eh_poll (fuel : nat) (timeout : Z) (obs : nat -> Z * eh_dcmd_status)
    (n : nat) : option poll_result :=
  match fuel with
  | O => None
  | S fuel' =>
      let '(jiffies, st) := obs n in
      if time_after jiffies timeout then Some PollTimeout
      else if decide (st = EH_DCMD_PENDING) then eh_poll fuel' timeout obs (S n)
      else Some (PollStatus st)
  end.

(** [eh_decompress_page] called on processor [cpu] when [jiffies] reads
    [now].  No field of the device structure is written. *)
Definition eh_decompress_page (fuel : nat) (s : eh_device) (cpu now : Z)
    (obs : nat -> Z * eh_dcmd_status) (compr_data compr_size page : Z)
  : option (Z * list event) :=
  let index := cpu mod decompr_cmd_count s in
  if suspended s then
    Some (- EBUSY,
          [EvLock (decompr_lock index); EvWarn; EvUnlock (decompr_lock index)])
  else if (decompr_busy s !!! Z.to_nat index : bool) then
    Some (- EBUSY, [EvLock (decompr_lock index); EvUnlock (decompr_lock index)])
  else
    let setup := eh_setup_dcmd s index compr_data compr_size page in
    let timeout := now + EH_POLL_DELAY_JIFFIES in
    match eh_poll fuel timeout obs 0 with
    | None => None
    | Some PollTimeout =>
        Some (- ETIME,
              [EvLock (decompr_lock index)] ++ setup ++
              [EvDumpRegs; EvUnlock (decompr_lock index)])
    | Some (PollStatus st) =>
        if decide (st = EH_DCMD_DECOMPRESSED) then
          Some (0,
                [EvLock (decompr_lock index)] ++ setup ++
                [EvLatency EH_DECOMPRESS_POLL; EvUnlock (decompr_lock index)])
        else
          Some (- EIO,
                [EvLock (decompr_lock index)] ++ setup ++
                [EvLatency EH_DECOMPRESS_POLL; EvDumpRegs;
                 EvUnlock (decompr_lock index)])
    end.

(** * Power management *)

(** [~0UL] *)
Definition ALL_ONES : Z := 2 ^ 64 - 1.

(** [eh_suspend]. *)
Definition eh_suspend (s : eh_device) : Z * eh_device * list event :=
  let slots := seqZ 0 (decompr_cmd_count s) in
  let grab := EvLock fifo_prod_lock :: map (fun i => EvLock (decompr_lock i)) slots in
  let drop := map (fun i => EvUnlock (decompr_lock i)) (reverse slots) ++
              [EvUnlock fifo_prod_lock] in
  if 0 <? nr_request s then (- EBUSY, s, grab ++ [EvWarn] ++ drop)
  else if existsb (fun i => (decompr_busy s !!! Z.to_nat i : bool)) slots then
    (- EBUSY, s, grab ++ [EvWarn] ++ drop)
  else
    let r := set_intrp_masks ALL_ONES ALL_ONES ALL_ONES (regs s) in
    let r := set_cdesc_compress_enable false r in
    let s' := set_suspended true (set_clk_enabled false (set_regs r s)) in
    (0, s', grab ++ drop).

(** [eh_compr_fifo_init].  The FIFO reset puts the index registers of
    the engine back to zero and restarts a halted FIFO; the wait for the
    reset bit to clear is taken to end. *)
Definition eh_compr_fifo_init (s : eh_device) : eh_device :=
  let r := regs s in
  let r := mk_regs 0 true 0 (err_cond r) (intrp_mask_error r)
             (intrp_mask_cmp r) (intrp_mask_dcmp r) false in
  set_regs r (set_complete_index 0 (set_write_index 0 s)).

(** [eh_resume]. *)
Definition eh_resume (s : eh_device) : Z * eh_device * list event :=
  let s := set_clk_enabled true s in
  let s := eh_compr_fifo_init s in
  let s := set_regs (set_intrp_masks 0 0 0 (regs s)) s in
  let s := set_suspended false s in
  (0, s, [EvLock fifo_prod_lock; EvUnlock fifo_prod_lock]).

(** * Initialisation *)

(** Modelled from the spec: [EH_MAX_FIFO_SIZE] is declared in
    [eh_internal.h], which is not at hand; the capacity is bounded by a
    hard maximum, which the comment in [eh_init] puts at 32k. *)
Definition EH_MAX_FIFO_SIZE : Z := 32768.

Definition eh_default_fifo_size : Z := 256.

(** The device structure after a successful [eh_init]: zeroed by
    [kzalloc], then filled in by [eh_init_compression],
    [eh_init_decompression], [eh_compr_fifo_init] and [eh_sw_init].
    A zeroed descriptor is idle, a zeroed busy flag is false, and the
    engine comes out of its reset with no error pending.  [cbufs] and
    [dbufs] are the pages obtained for the compression and
    decompression buffers. *)
Definition eh_init_state (fifo_size decompr_cmd_count : Z) (cbufs dbufs : list Z)
  : eh_device :=
  mk_eh_device fifo_size (fifo_size - 1) (Z.shiftl fifo_size 1 - 1) 0 0
    (replicate (Z.to_nat fifo_size) (mk_desc 0 EH_CDESC_IDLE 0 0))
    (replicate (Z.to_nat fifo_size) (mk_cmpl NULL))
    cbufs 0 false decompr_cmd_count
    (replicate (Z.to_nat decompr_cmd_count) false) dbufs
    (mk_regs 0 true 0 0 0 0 0 false) true THREAD_RUNNING.

(** The check at the head of [eh_init]. *)
Definition eh_fifo_size_invalid (fifo_size : Z) : bool :=
  (fifo_size =? 0) || negb (__ffs fifo_size =? __fls fifo_size) ||
  (EH_MAX_FIFO_SIZE <? fifo_size).

(** [eh_init], allocation failures left out: the error code, or the
    initialised device. *)
Definition eh_init (fifo_size decompr_cmd_count : Z) (cbufs dbufs : list Z)
  : Z + eh_device :=
  if eh_fifo_size_invalid fifo_size then inl (- EINVAL)
  else if decompr_cmd_count =? 0 then inl (- EINVAL)
  else inr (eh_init_state fifo_size decompr_cmd_count cbufs dbufs).

(** * The engine and the driver running together *)

(** The engine completes the descriptor at its completion index: it
    writes the status, the compressed length and the buffer selection,
    then advances the index.  It does so only while enabled, not halted,
    and while the published write index is ahead.  [err] is the content
    of [EH_REG_ERR_COND] afterwards. *)
Definition hw_complete (s : eh_device) (st : eh_cdesc_status)
    (len bufsel err : Z) : option eh_device :=
  let r := regs s in
  if negb (cdesc_compress_enable r) || fifo_halted r ||
     (cdesc_complete_idx r =? cdesc_wridx r) then None
  else
    let i := Z.to_nat (Z.land (cdesc_complete_idx r) (fifo_index_mask s)) in
    let desc := fifo s !!! i in
    let r' := mk_regs (Z.land (cdesc_complete_idx r + 1) (fifo_color_mask s))
                (cdesc_compress_enable r) (cdesc_wridx r) err
                (intrp_mask_error r) (intrp_mask_cmp r) (intrp_mask_dcmp r)
                (bool_decide (st = EH_CDESC_ERROR_HALTED)) in
    Some (set_regs r' (set_fifo (<[i := mk_desc (src_addr desc) st len bufsel]> (fifo s)) s)).

(** What can happen next: a step of a driver entry point or of the
    engine. *)
Inductive op : Type :=
(** one pass of [eh_compress_page] from [try_again] *)
| OpCompress (page priv : Z)
(** the engine completes a descriptor *)
| OpHwComplete (st : eh_cdesc_status) (len bufsel err : Z)
(** the completion thread wakes up and calls [eh_update_complete_index] *)
| OpReap
(** the completion thread reads [EH_REG_ERR_COND] after a failure *)
| OpErrorCheck
| OpDecompress (fuel : nat) (cpu now : Z) (obs : nat -> Z * eh_dcmd_status)
    (compr_data compr_size page : Z)
| OpSuspend
| OpResume.

(** The whole system: the device, everything observed so far, and the
    [priv] tokens of the requests accepted so far, oldest first. *)
Record system : Type := mk_system {
  dev : eh_device;
  trace : list event;
  submitted : list Z
}.

(** Iterations that suffice for the loops over the FIFO. *)
Definition fifo_fuel (s : eh_device) : nat := Z.to_nat (fifo_color_mask s + 1).

(** One step.  [None] when the step cannot happen: the thread is
    elsewhere or asleep, the engine has nothing to do, a loop does not
    end.  [eh_suspend] can be called in any state, also between the two
    halves of the error path of the completion thread, which holds no
    lock there; the system is resumed only when suspended. *)
Definition step (o : op) (y : system) : option system :=
  let s := dev y in
  match o with
  | OpCompress page priv =>
      match eh_compress_page_try s page priv with
      | (TryDone ret s', ev) =>
          Some (mk_system s' (trace y ++ ev)
                  (if ret =? 0 then submitted y ++ [priv] else submitted y))
      | (TryAgain, ev) => Some (mk_system s (trace y ++ ev) (submitted y))
      end
  | OpHwComplete st len bufsel err =>
      match hw_complete s st len bufsel err with
      | Some s' => Some (mk_system s' (trace y) (submitted y))
      | None => None
      end
  | OpReap =>
      if bool_decide (comp_thread s = THREAD_RUNNING) && (0 <? nr_request s) then
        match eh_comp_thread_reap (fifo_fuel s) s with
        | Some (s', ev) => Some (mk_system s' (trace y ++ ev) (submitted y))
        | None => None
        end
      else None
  | OpErrorCheck =>
      if bool_decide (comp_thread s = THREAD_ERROR_SEEN) then
        match eh_comp_thread_error (fifo_fuel s) s with
        | Some (s', ev) => Some (mk_system s' (trace y ++ ev) (submitted y))
        | None => None
        end
      else None
  | OpDecompress fuel cpu now obs compr_data compr_size page =>
      match eh_decompress_page fuel s cpu now obs compr_data compr_size page with
      | Some (_, ev) => Some (mk_system s (trace y ++ ev) (submitted y))
      | None => None
      end
  | OpSuspend =>
      let '(_, s', ev) := eh_suspend s in
      Some (mk_system s' (trace y ++ ev) (submitted y))
  | OpResume =>
      if suspended s then
        let '(_, s', ev) := eh_resume s in
        Some (mk_system s' (trace y ++ ev) (submitted y))
      else None
  end.

(** A run: the steps of [ops] one after the other. *)
Fixpoint run (ops : list op) (y : system) : option system :=
  match ops with
  | [] => Some y
  | o :: ops' =>
      match step o y with
      | Some y' => run ops' y'
      | None => None
      end
  end.

(** The [priv] arguments of the callback invocations of a trace. *)
Fixpoint delivered (tr : list event) : list Z :=
  match tr with
  | [] => []
  | EvCallback _ _ _ p :: tr' => p :: delivered tr'
  | _ :: tr' => delivered tr'
  end.

(** The callback invocations of a trace. *)
Fixpoint callbacks (tr : list event) : list event :=
  match tr with
  | [] => []
  | EvCallback st data size p :: tr' => EvCallback st data size p :: callbacks tr'
  | _ :: tr' => callbacks tr'
  end.

(** * Auxiliary definitions for the statements *)

(** The descriptor table after slot [i] went back to idle. *)
Definition fifo_idle_at (s : eh_device) (i : nat) : list eh_compress_desc :=
  <[i := set_desc_status EH_CDESC_IDLE (fifo s !!! i)]> (fifo s).

(** Every pass of [eh_compress_page] made before and between the waits
    [waits] finds the ring full. *)
Fixpoint congested_through (waits : list (eh_device -> eh_device))
    (s : eh_device) (page priv : Z) : Prop :=
  match waits with
  | [] => True
  | f :: waits' =>
      (eh_compress_page_try s page priv).1 = TryAgain /\
      congested_through waits' (f s) page priv
  end.

(** The device after the other threads ran during each wait. *)
Definition after_waits (waits : list (eh_device -> eh_device)) (s : eh_device)
  : eh_device :=
  fold_left (fun s f => f s) waits s.

(** Slot of the ring used by the [j]-th request since the last FIFO
    reset. *)
Definition slot (s : eh_device) (j : Z) : nat := Z.to_nat (j mod fifo_size s).

#[local] Arguments slot : simpl never.

(** The tokens in the completion records of the requests [C], ...,
    [C + n - 1]. *)
Definition ring_tokens (s : eh_device) (C n : Z) : list Z :=
  map (fun j => priv (completions s !!! slot s j)) (seqZ C n).

(** The invariant of the ring, for a FIFO of [2 ^ k] descriptors.  [C],
    [H] and [W] count, since the last FIFO reset, the requests reaped by
    the driver, completed by the engine and accepted from the callers. *)
Record ring_inv (k : Z) (y : system) (C H W : Z) : Prop := mk_ring_inv {
  inv_k : 1 <= k <= 15;
  inv_size : fifo_size (dev y) = 2 ^ k;
  inv_imask : fifo_index_mask (dev y) = 2 ^ k - 1;
  inv_cmask : fifo_color_mask (dev y) = 2 ^ (k + 1) - 1;
  inv_len_fifo : length (fifo (dev y)) = Z.to_nat (2 ^ k);
  inv_len_cmpl : length (completions (dev y)) = Z.to_nat (2 ^ k);
  inv_order : 0 <= C /\ C <= H /\ H <= W /\ W <= C + 2 ^ k;
  inv_c : complete_index (dev y) = C mod 2 ^ (k + 1);
  inv_w : write_index (dev y) = W mod 2 ^ (k + 1);
  inv_hw : cdesc_complete_idx (regs (dev y)) = H mod 2 ^ (k + 1);
  inv_wridx : cdesc_wridx (regs (dev y)) = write_index (dev y);
  inv_nr : nr_request (dev y) = W - C;
  inv_idle : forall j, W <= j < C + 2 ^ k ->
    status (fifo (dev y) !!! slot (dev y) j) = EH_CDESC_IDLE;
  inv_halt : forall j, C <= j < H ->
    status (fifo (dev y) !!! slot (dev y) j) = EH_CDESC_ERROR_HALTED ->
    j = H - 1 /\ fifo_halted (regs (dev y)) = true;
  inv_susp : suspended (dev y) = true -> W = C;
  inv_tokens : comp_thread (dev y) <> THREAD_EXITED ->
    submitted y = delivered (trace y) ++ ring_tokens (dev y) C (W - C);
  inv_sub : delivered (trace y) `sublist_of` submitted y
}.

Definition ring_ok (k : Z) (y : system) : Prop :=
  exists C H W, ring_inv k y C H W.

(** The system right after [eh_init]. *)
Definition initial_system (fifo_size decompr_cmd_count : Z) (cbufs dbufs : list Z)
  : system :=
  mk_system (eh_init_state fifo_size decompr_cmd_count cbufs dbufs) [] [].

(** [(write_index - complete_index) mod 2N]. *)
Definition pending (s : eh_device) : Z :=
  (write_index s - complete_index s) mod (2 * fifo_size s).

(** Slot of the ring addressed by index [i]: [i & fifo_index_mask]. *)
Definition ring_slot (s : eh_device) (i : Z) : nat :=
  Z.to_nat (Z.land i (fifo_index_mask s)).

(** The tokens in the completion records of the [n] slots that follow
    index [from], in ring order. *)
Definition in_flight_tokens (s : eh_device) (from n : Z) : list Z :=
  map (fun i => priv (completions s !!! ring_slot s (from + i))) (seqZ 0 n).

(** Number of requests the engine reported complete and the driver has
    not reaped yet. *)
Definition reported (s : eh_device) : Z :=
  (cdesc_complete_idx (regs s) - complete_index s) mod (2 * fifo_size s).

(** * Further definitions *)

(** What the loops over the ring leave alone: everything but the
    descriptors, the completion records, the request count and
    [complete_index]. *)
Definition same_frame (s s' : eh_device) : Prop :=
  fifo_size s' = fifo_size s /\
  fifo_index_mask s' = fifo_index_mask s /\
  fifo_color_mask s' = fifo_color_mask s /\
  write_index s' = write_index s /\
  compr_buffers s' = compr_buffers s /\
  suspended s' = suspended s /\
  decompr_cmd_count s' = decompr_cmd_count s /\
  decompr_busy s' = decompr_busy s /\
  decompr_buffers s' = decompr_buffers s /\
  regs s' = regs s /\
  clk_enabled s' = clk_enabled s /\
  comp_thread s' = comp_thread s.

(** The callback invocation [eh_process_completed_descriptor] makes for
    the descriptor in slot [i]. *)
Definition completion_of_slot (s : eh_device) (i : nat) : event :=
  let desc := fifo s !!! i in
  let offset := if buf_sel desc =? 2 then PAGE_SIZE / 2 else 0 in
  let compr_data :=
    match status desc with
    | EH_CDESC_COPIED | EH_CDESC_COMPRESSED => compr_buffers s !!! i + offset
    | _ => NULL
    end in
  EvCallback (status desc) compr_data (compr_len desc)
    (priv (completions s !!! i)).

(** What the slots of the ring hold, on top of [ring_inv]: a request
    accepted and not yet completed by the engine has a pending
    descriptor, a slot outside the window of the requests in flight has
    a null token, and the engine is enabled exactly while the driver is
    not suspended. *)
Record ring_layout_inv (k : Z) (y : system) (C H W : Z) : Prop := mk_ring_layout_inv {
  lay_inv : ring_inv k y C H W;
  lay_pending : forall j, H <= j < W ->
    status (fifo (dev y) !!! slot (dev y) j) = EH_CDESC_PENDING;
  lay_clear : forall j, W <= j < C + 2 ^ k ->
    completions (dev y) !!! slot (dev y) j = mk_cmpl NULL;
  lay_enable :
    cdesc_compress_enable (regs (dev y)) = negb (suspended (dev y))
}.

(** What the engine writes back for one descriptor, and the content of
    [EH_REG_ERR_COND] afterwards. *)
Record hw_result : Type := mk_hw_result {
  res_status : eh_cdesc_status;
  res_len : Z;
  res_bufsel : Z;
  res_err : Z
}.

Definition submit_op (r : Z * Z) : op := OpCompress r.1 r.2.

Definition complete_op (r : hw_result) : op :=
  OpHwComplete (res_status r) (res_len r) (res_bufsel r) (res_err r).

(** The callback owed to the request with token [priv] that went into
    the slot [i] places after the write index of [s], once the engine
    has written back [r]. *)
Definition expected_callback (s : eh_device) (i : Z) (priv : Z) (r : hw_result)
  : event :=
  let n := ring_slot s (write_index s + i) in
  let offset := if res_bufsel r =? 2 then PAGE_SIZE / 2 else 0 in
  let compr_data :=
    match res_status r with
    | EH_CDESC_COPIED | EH_CDESC_COMPRESSED => compr_buffers s !!! n + offset
    | _ => NULL
    end in
  EvCallback (res_status r) compr_data (res_len r) priv.

Fixpoint expected_callbacks (s : eh_device) (i : Z) (reqs : list (Z * Z))
    (res : list hw_result) : list event :=
  match reqs, res with
  | (_, priv) :: reqs', r :: res' =>
      expected_callback s i priv r :: expected_callbacks s (i + 1) reqs' res'
  | _, _ => []
  end.

(** * Lock discipline *)

(** The order in which the locks of the driver are taken:
    [fifo_prod_lock] first, then the locks of the command sets by
    index. *)
Definition lock_rank (l : eh_lock) : Z :=
  match l with
  | fifo_prod_lock => -1
  | decompr_lock i => i
  end.

(** The locks held after the events of [tr], most recent first, when
    [held] are held before.  [None] when a lock is taken out of order
    (which includes taking a lock that is already held), when a lock is
    given back that is not the last one taken, or when a completion
    callback is made with a lock held. *)
Fixpoint locks_after (held : list eh_lock) (tr : list event)
  : option (list eh_lock) :=
  match tr with
  | [] => Some held
  | e :: tr' =>
      match e with
      | EvLock l =>
          if forallb (fun h => lock_rank h <? lock_rank l) held
          then locks_after (l :: held) tr'
          else None
      | EvUnlock l =>
          match held with
          | h :: held' =>
              if decide (h = l) then locks_after held' tr' else None
          | [] => None
          end
      | EvCallback _ _ _ _ =>
          match held with
          | [] => locks_after held tr'
          | _ :: _ => None
          end
      | _ => locks_after held tr'
      end
  end.

(** Events that neither touch a lock nor call back. *)
Definition quiet (e : event) : bool :=
  match e with
  | EvLock _ | EvUnlock _ | EvCallback _ _ _ _ => false
  | _ => true
  end.

(** Events that do not touch a lock. *)
Definition lockless (e : event) : bool :=
  match e with
  | EvLock _ | EvUnlock _ => false
  | _ => true
  end.

(** * Bring-up and tear-down *)

(** More errno values, and [IS_ERR] of [linux/err.h] on a pointer read
    as a signed long. *)
Definition ENOMEM : Z := 12.
Definition ENODEV : Z := 19.
Definition ETIMEDOUT : Z := 110.
Definition MAX_ERRNO : Z := 4095.
Definition IS_ERR (p : Z) : bool := (- MAX_ERRNO <=? p) && (p <? 0).

Definition EH_MAX_RESET_WAIT : nat := 100.

(** The quirk bit tested by [eh_reset]; it is declared in
    [eh_internal.h], which is not at hand. *)
Variable EH_QUIRK_IGNORE_GCTRL_RESET : Z.

(** What the driver obtains from the kernel and has to give back. *)
Inductive resource : Type :=
(** [ioremap] / [iounmap] *)
| ResIomap (p : Z)
(** [kzalloc] / [kfree] *)
| ResMem (p : Z)
(** [__get_free_pages] / [free_pages] *)
| ResPage (p : Z)
(** [request_threaded_irq] / [free_irq] *)
| ResIrq (irq : Z)
(** [kthread_run] / [kthread_stop] *)
| ResThread (p : Z)
(** [alloc_percpu] / [free_percpu] *)
| ResPercpu (p : Z).

#[global] Instance resource_eq_dec : EqDecision resource.
Proof. solve_decision. Defined.

(** What bring-up and tear-down do, as far as the kernel and the engine
    see it. *)
Inductive kevent : Type :=
| KAcquire (r : resource)
| KRelease (r : resource)
(** write of [EH_REG_GCTRL] *)
| KWriteGctrl
(** read of [EH_REG_GCTRL] *)
| KReadGctrl
(** [usleep_range] *)
| KSleep
(** [eh_compr_fifo_init] *)
| KFifoInit
(** write of 0 to [EH_REG_INTRP_MASK_ERROR] *)
| KUnmaskError
| KPrErr.

Fixpoint remove_first (r : resource) (l : list resource) : list resource :=
  match l with
  | [] => []
  | x :: l' => if decide (x = r) then l' else x :: remove_first r l'
  end.

(** The resources held after the events [ev], when [held] are held
    before; [None] when something is released that is not held. *)
Fixpoint held_after (held : list resource) (ev : list kevent)
  : option (list resource) :=
  match ev with
  | [] => Some held
  | KAcquire r :: ev' => held_after (r :: held) ev'
  | KRelease r :: ev' =>
      if decide (r ∈ held) then held_after (remove_first r held) ev' else None
  | _ :: ev' => held_after held ev'
  end.

(** The fields of [struct eh_device] that hold resources, and the
    fields the bring-up reads.  [m_compr_pages] is the content of the
    array [compr_buffers] points to; [m_decompr_buffers] is an array
    inside the structure. *)
Record eh_device_mem : Type := mk_eh_device_mem {
  m_quirks : Z;
  m_regs : Z;
  m_max_buffer_count : Z;
  m_decompr_cmd_count : Z;
  m_fifo_size : Z;
  m_completions : Z;
  m_fifo_alloc : Z;
  m_compr_buffers : Z;
  m_compr_pages : list Z;
  m_decompr_cmd_used : Z;
  m_decompr_buffers : list Z;
  m_error_irq : Z;
  m_comp_thread : Z;
  m_stats : Z
}.

Definition set_m_quirks (v : Z) (d : eh_device_mem) : eh_device_mem :=
  mk_eh_device_mem v (m_regs d) (m_max_buffer_count d) (m_decompr_cmd_count d)
    (m_fifo_size d) (m_completions d) (m_fifo_alloc d) (m_compr_buffers d)
    (m_compr_pages d) (m_decompr_cmd_used d) (m_decompr_buffers d)
    (m_error_irq d) (m_comp_thread d) (m_stats d).

Definition set_m_regs (v : Z) (d : eh_device_mem) : eh_device_mem :=
  mk_eh_device_mem (m_quirks d) v (m_max_buffer_count d) (m_decompr_cmd_count d)
    (m_fifo_size d) (m_completions d) (m_fifo_alloc d) (m_compr_buffers d)
    (m_compr_pages d) (m_decompr_cmd_used d) (m_decompr_buffers d)
    (m_error_irq d) (m_comp_thread d) (m_stats d).

Definition set_m_features (buf_max cmds : Z) (d : eh_device_mem) : eh_device_mem :=
  mk_eh_device_mem (m_quirks d) (m_regs d) buf_max cmds
    (m_fifo_size d) (m_completions d) (m_fifo_alloc d) (m_compr_buffers d)
    (m_compr_pages d) (m_decompr_cmd_used d) (m_decompr_buffers d)
    (m_error_irq d) (m_comp_thread d) (m_stats d).

Definition set_m_fifo_size (v : Z) (d : eh_device_mem) : eh_device_mem :=
  mk_eh_device_mem (m_quirks d) (m_regs d) (m_max_buffer_count d)
    (m_decompr_cmd_count d) v (m_completions d) (m_fifo_alloc d)
    (m_compr_buffers d) (m_compr_pages d) (m_decompr_cmd_used d)
    (m_decompr_buffers d) (m_error_irq d) (m_comp_thread d) (m_stats d).

Definition set_m_completions (v : Z) (d : eh_device_mem) : eh_device_mem :=
  mk_eh_device_mem (m_quirks d) (m_regs d) (m_max_buffer_count d)
    (m_decompr_cmd_count d) (m_fifo_size d) v (m_fifo_alloc d)
    (m_compr_buffers d) (m_compr_pages d) (m_decompr_cmd_used d)
    (m_decompr_buffers d) (m_error_irq d) (m_comp_thread d) (m_stats d).

Definition set_m_fifo_alloc (v : Z) (d : eh_device_mem) : eh_device_mem :=
  mk_eh_device_mem (m_quirks d) (m_regs d) (m_max_buffer_count d)
    (m_decompr_cmd_count d) (m_fifo_size d) (m_completions d) v
    (m_compr_buffers d) (m_compr_pages d) (m_decompr_cmd_used d)
    (m_decompr_buffers d) (m_error_irq d) (m_comp_thread d) (m_stats d).

Definition set_m_compr_buffers (v : Z) (pages : list Z) (d : eh_device_mem)
  : eh_device_mem :=
  mk_eh_device_mem (m_quirks d) (m_regs d) (m_max_buffer_count d)
    (m_decompr_cmd_count d) (m_fifo_size d) (m_completions d) (m_fifo_alloc d)
    v pages (m_decompr_cmd_used d)
    (m_decompr_buffers d) (m_error_irq d) (m_comp_thread d) (m_stats d).

Definition set_m_decompr_cmd_used (v : Z) (d : eh_device_mem) : eh_device_mem :=
  mk_eh_device_mem (m_quirks d) (m_regs d) (m_max_buffer_count d)
    (m_decompr_cmd_count d) (m_fifo_size d) (m_completions d) (m_fifo_alloc d)
    (m_compr_buffers d) (m_compr_pages d) v
    (m_decompr_buffers d) (m_error_irq d) (m_comp_thread d) (m_stats d).

Definition set_m_decompr_buffers (v : list Z) (d : eh_device_mem) : eh_device_mem :=
  mk_eh_device_mem (m_quirks d) (m_regs d) (m_max_buffer_count d)
    (m_decompr_cmd_count d) (m_fifo_size d) (m_completions d) (m_fifo_alloc d)
    (m_compr_buffers d) (m_compr_pages d) (m_decompr_cmd_used d)
    v (m_error_irq d) (m_comp_thread d) (m_stats d).

Definition set_m_error_irq (v : Z) (d : eh_device_mem) : eh_device_mem :=
  mk_eh_device_mem (m_quirks d) (m_regs d) (m_max_buffer_count d)
    (m_decompr_cmd_count d) (m_fifo_size d) (m_completions d) (m_fifo_alloc d)
    (m_compr_buffers d) (m_compr_pages d) (m_decompr_cmd_used d)
    (m_decompr_buffers d) v (m_comp_thread d) (m_stats d).

Definition set_m_comp_thread (v : Z) (d : eh_device_mem) : eh_device_mem :=
  mk_eh_device_mem (m_quirks d) (m_regs d) (m_max_buffer_count d)
    (m_decompr_cmd_count d) (m_fifo_size d) (m_completions d) (m_fifo_alloc d)
    (m_compr_buffers d) (m_compr_pages d) (m_decompr_cmd_used d)
    (m_decompr_buffers d) (m_error_irq d) v (m_stats d).

Definition set_m_stats (v : Z) (d : eh_device_mem) : eh_device_mem :=
  mk_eh_device_mem (m_quirks d) (m_regs d) (m_max_buffer_count d)
    (m_decompr_cmd_count d) (m_fifo_size d) (m_completions d) (m_fifo_alloc d)
    (m_compr_buffers d) (m_compr_pages d) (m_decompr_cmd_used d)
    (m_decompr_buffers d) (m_error_irq d) (m_comp_thread d) v.

(** What the kernel and the engine answer during bring-up: the result
    of each allocation (a null pointer when it fails), the two fields of
    [EH_REG_HWFEATURES2], the successive reads of [EH_REG_GCTRL], the
    return value of [request_threaded_irq], and the pointer or error
    value [kthread_run] returns. *)
Record bringup_env : Type := mk_bringup_env {
  env_ioremap : Z -> Z;
  env_buf_max : Z;
  env_decompr_cmds : Z;
  env_completions : Z;
  env_fifo_alloc : Z;
  env_compr_buffers : Z;
  env_compr_page : Z -> Z;
  env_decompr_cmd_used : Z;
  env_decompr_page : Z -> Z;
  env_gctrl : nat -> Z;
  env_request_irq : Z;
  env_kthread : Z;
  env_stats : Z
}.

(** The wait loop of [eh_reset], entered with [count] and [left] turns
    to go: the final [count] and what was done.  [gctrl n] is what the
    [n]-th read of the register gives. *)
Fixpoint eh_reset_wait (gctrl : nat -> Z) (left count : nat) : nat * list kevent :=
  match left with
  | O => (count, [])
  | S left' =>
      if gctrl count =? 0 then (count, [KReadGctrl])
      else
        let '(c, ev) := eh_reset_wait gctrl left' (S count) in
        (c, KReadGctrl :: KSleep :: ev)
  end.

(** [eh_reset]. *)
Definition eh_reset (quirks : Z) (gctrl : nat -> Z) : Z * list kevent :=
  if negb (Z.land quirks EH_QUIRK_IGNORE_GCTRL_RESET =? 0) then (0, [])
  else
    let '(count, ev) := eh_reset_wait gctrl EH_MAX_RESET_WAIT 0 in
    (if (count =? EH_MAX_RESET_WAIT)%nat then 1 else 0, KWriteGctrl :: ev).

(** The loop that gives back the pages of an array of buffers: each
    entry that is not null is freed and set to null. *)
Fixpoint free_buffers (idx : list Z) (buffers : list Z) : list Z * list kevent :=
  match idx with
  | [] => (buffers, [])
  | i :: idx' =>
      let p := buffers !!! Z.to_nat i in
      if p =? NULL then free_buffers idx' buffers
      else
        let '(b, ev) := free_buffers idx' (<[Z.to_nat i := NULL]> buffers) in
        (b, KRelease (ResPage p) :: ev)
  end.

(** The loop that fills an array of buffers with pages, left at the
    first page that cannot be had. *)
Fixpoint alloc_buffers (page : Z -> Z) (idx : list Z) (buffers : list Z)
  : bool * list Z * list kevent :=
  match idx with
  | [] => (true, buffers, [])
  | i :: idx' =>
      let buf := page i in
      if buf =? NULL then (false, buffers, [])
      else
        let '(ok, b, ev) :=
          alloc_buffers page idx' (<[Z.to_nat i := buf]> buffers) in
        (ok, b, KAcquire (ResPage buf) :: ev)
  end.

(** [eh_deinit_compression]. *)
Definition eh_deinit_compression (d : eh_device_mem) : eh_device_mem * list kevent :=
  let '(d, ev1) :=
    if m_compr_buffers d =? NULL then (d, [])
    else
      let '(_, ev) := free_buffers (seqZ 0 (m_fifo_size d)) (m_compr_pages d) in
      (set_m_compr_buffers NULL [] d,
       ev ++ [KRelease (ResMem (m_compr_buffers d))]) in
  let '(d, ev2) :=
    if m_completions d =? NULL then (d, [])
    else (set_m_completions NULL d, [KRelease (ResMem (m_completions d))]) in
  let '(d, ev3) :=
    if m_fifo_alloc d =? NULL then (d, [])
    else (set_m_fifo_alloc NULL d, [KRelease (ResMem (m_fifo_alloc d))]) in
  (d, ev1 ++ ev2 ++ ev3).

(** [eh_init_compression], as far as resources go. *)
Definition eh_init_compression (e : bringup_env) (d : eh_device_mem) (fifo_size : Z)
  : Z * eh_device_mem * list kevent :=
  let d := set_m_fifo_size fifo_size d in
  let d := set_m_completions (env_completions e) d in
  if m_completions d =? NULL then (- ENOMEM, d, [])
  else
    let ev0 := [KAcquire (ResMem (m_completions d))] in
    let d := set_m_fifo_alloc (env_fifo_alloc e) d in
    if m_fifo_alloc d =? NULL then
      let '(d, ev) := eh_deinit_compression d in
      (- ENOMEM, d, ev0 ++ ev ++ [KPrErr])
    else
      let ev1 := ev0 ++ [KAcquire (ResMem (m_fifo_alloc d))] in
      if env_compr_buffers e =? NULL then
        let d := set_m_compr_buffers NULL (m_compr_pages d) d in
        let '(d, ev) := eh_deinit_compression d in
        (- ENOMEM, d, ev1 ++ ev ++ [KPrErr])
      else
        let d := set_m_compr_buffers (env_compr_buffers e)
                   (replicate (Z.to_nat fifo_size) NULL) d in
        let ev2 := ev1 ++ [KAcquire (ResMem (m_compr_buffers d))] in
        let '(ok, pages, ev3) :=
          alloc_buffers (env_compr_page e) (seqZ 0 fifo_size) (m_compr_pages d) in
        let d := set_m_compr_buffers (m_compr_buffers d) pages d in
        if ok then (0, d, ev2 ++ ev3)
        else
          let '(d, ev) := eh_deinit_compression d in
          (- ENOMEM, d, ev2 ++ ev3 ++ ev ++ [KPrErr]).

(** [eh_deinit_decompression]. *)
Definition eh_deinit_decompression (d : eh_device_mem)
  : eh_device_mem * list kevent :=
  let '(bufs, ev1) :=
    free_buffers (seqZ 0 (m_decompr_cmd_count d)) (m_decompr_buffers d) in
  let d := set_m_decompr_buffers bufs d in
  let '(d, ev2) :=
    if m_decompr_cmd_used d =? NULL then (d, [])
    else (set_m_decompr_cmd_used NULL d,
          [KRelease (ResMem (m_decompr_cmd_used d))]) in
  (d, ev1 ++ ev2).

(** [eh_init_decompression]. *)
Definition eh_init_decompression (e : bringup_env) (d : eh_device_mem)
  : Z * eh_device_mem * list kevent :=
  let d := set_m_decompr_cmd_used (env_decompr_cmd_used e) d in
  if m_decompr_cmd_used d =? NULL then (- ENOMEM, d, [])
  else
    let ev0 := [KAcquire (ResMem (m_decompr_cmd_used d))] in
    let '(ok, bufs, ev1) :=
      alloc_buffers (env_decompr_page e) (seqZ 0 (m_decompr_cmd_count d))
        (m_decompr_buffers d) in
    let d := set_m_decompr_buffers bufs d in
    if ok then (0, d, ev0 ++ ev1)
    else
      let '(d, ev) := eh_deinit_decompression d in
      (- ENOMEM, d, ev0 ++ ev1 ++ ev).

(** [eh_hw_deinit]. *)
Definition eh_hw_deinit (d : eh_device_mem) : eh_device_mem * list kevent :=
  let '(d, ev1) := eh_deinit_decompression d in
  let '(d, ev2) := eh_deinit_compression d in
  (set_m_regs NULL d, ev1 ++ ev2 ++ [KRelease (ResIomap (m_regs d))]).

(** [eh_hw_init]. *)
Definition eh_hw_init (e : bringup_env) (d : eh_device_mem)
    (fifo_size regs quirks : Z) : Z * eh_device_mem * list kevent :=
  let d := set_m_quirks quirks d in
  let d := set_m_regs (env_ioremap e regs) d in
  if m_regs d =? NULL then (- ENOMEM, d, [])
  else
    let ev0 := [KAcquire (ResIomap (m_regs d))] in
    let iounmap := [KRelease (ResIomap (m_regs d)); KPrErr] in
    let d := set_m_features (env_buf_max e) (env_decompr_cmds e) d in
    if (m_max_buffer_count d =? 0) || (m_decompr_cmd_count d =? 0) then
      (- EINVAL, d, ev0 ++ iounmap)
    else
      let '(r, d, ev1) := eh_init_compression e d fifo_size in
      if negb (r =? 0) then (- EINVAL, d, ev0 ++ ev1 ++ iounmap)
      else
        let '(r, d, ev2) := eh_init_decompression e d in
        if negb (r =? 0) then
          let '(d, ev3) := eh_deinit_compression d in
          (- EINVAL, d, ev0 ++ ev1 ++ ev2 ++ ev3 ++ iounmap)
        else
          let '(r, ev3) := eh_reset (m_quirks d) (env_gctrl e) in
          if negb (r =? 0) then
            let '(d, ev4) := eh_deinit_decompression d in
            let '(d, ev5) := eh_deinit_compression d in
            (- ETIMEDOUT, d, ev0 ++ ev1 ++ ev2 ++ ev3 ++ ev4 ++ ev5 ++ iounmap)
          else
            (0, d, ev0 ++ ev1 ++ ev2 ++ ev3 ++ [KFifoInit; KUnmaskError]).

(** [eh_sw_init] for the device structure at address [eh_dev];
    [eh_dev_list] is the list of the unclaimed devices. *)
Definition eh_sw_init (e : bringup_env) (d : eh_device_mem) (eh_dev error_irq : Z)
    (eh_dev_list : list Z) : Z * eh_device_mem * list Z * list kevent :=
  let ret := env_request_irq e in
  if negb (ret =? 0) then (ret, d, eh_dev_list, [KPrErr])
  else
    let d := set_m_error_irq error_irq d in
    let ev0 := [KAcquire (ResIrq error_irq)] in
    let free_irq := [KRelease (ResIrq (m_error_irq d))] in
    let d := set_m_comp_thread (env_kthread e) d in
    if IS_ERR (m_comp_thread d) then
      (m_comp_thread d, d, eh_dev_list, ev0 ++ free_irq)
    else
      let ev1 := ev0 ++ [KAcquire (ResThread (m_comp_thread d))] in
      let d := set_m_stats (env_stats e) d in
      if m_stats d =? NULL then
        (- ENOMEM, d, eh_dev_list,
         ev1 ++ [KRelease (ResThread (m_comp_thread d))] ++ free_irq)
      else
        (0, d, eh_dev_list ++ [eh_dev],
         ev1 ++ [KAcquire (ResPercpu (m_stats d))]).

(** [eh_deinit]. *)
Definition eh_deinit (d : eh_device_mem) : eh_device_mem * list kevent :=
  let '(d, ev1) := eh_deinit_compression d in
  let '(d, ev2) := eh_deinit_decompression d in
  (d, ev1 ++ ev2 ++
      [KRelease (ResIrq (m_error_irq d)); KRelease (ResThread (m_comp_thread d));
       KRelease (ResPercpu (m_stats d)); KRelease (ResIomap (m_regs d))]).

(** [eh_init] with its allocations. *)
Definition eh_init_full (e : bringup_env) (d : eh_device_mem)
    (eh_dev fifo_size regs error_irq quirks : Z) (eh_dev_list : list Z)
  : Z * eh_device_mem * list Z * list kevent :=
  if eh_fifo_size_invalid fifo_size then (- EINVAL, d, eh_dev_list, [KPrErr])
  else
    let '(ret, d, ev1) := eh_hw_init e d fifo_size regs quirks in
    if negb (ret =? 0) then (ret, d, eh_dev_list, ev1)
    else
      let '(ret, d, l, ev2) := eh_sw_init e d eh_dev error_irq eh_dev_list in
      if negb (ret =? 0) then
        let '(d, ev3) := eh_hw_deinit d in
        (ret, d, l, ev1 ++ ev2 ++ ev3)
      else (0, d, l, ev1 ++ ev2).

(** [eh_remove] of the device structure at address [eh_dev]. *)
Definition eh_remove (d : eh_device_mem) (eh_dev : Z) (eh_dev_list : list Z)
  : list Z * list kevent :=
  let '(_, ev) := eh_deinit d in
  (eh_dev_list, ev ++ [KRelease (ResMem eh_dev)]).

(** A device structure as [kzalloc] leaves it, with room for [n]
    decompression buffers. *)
Definition zeroed_device (n : nat) : eh_device_mem :=
  mk_eh_device_mem 0 NULL 0 0 0 NULL NULL NULL [] NULL (replicate n NULL) 0 NULL NULL.

(** * The list of unclaimed devices *)

(** The callbacks of each device structure, by its address. *)
Definition upd (d : Z) (v : Z * Z) (cb : Z -> Z * Z) : Z -> Z * Z :=
  fun x => if x =? d then v else cb x.

(** The loop of [eh_create]: the entry taken off the list, if any, and
    the list left. *)
Fixpoint eh_create_scan (l : list Z) : Z * list Z :=
  match l with
  | [] => (NULL, [])
  | impl :: rest => if impl =? NULL then eh_create_scan rest else (impl, rest)
  end.

(** [eh_create]: the device or [ERR_PTR(-ENODEV)], the list and the
    callbacks afterwards. *)
Definition eh_create (comp decomp : Z) (eh_dev_list : list Z) (cb : Z -> Z * Z)
  : Z * list Z * (Z -> Z * Z) :=
  let '(ret, l) := eh_create_scan eh_dev_list in
  if negb (ret =? NULL) then (ret, l, upd ret (comp, decomp) cb)
  else (- ENODEV, l, cb).

(** [eh_destroy]. *)
Definition eh_destroy (eh_dev : Z) (eh_dev_list : list Z) (cb : Z -> Z * Z)
  : list Z * (Z -> Z * Z) :=
  (eh_dev_list ++ [eh_dev], upd eh_dev (NULL, NULL) cb).

(** The pages recorded in the entries [idx] of an array of buffers. *)
Definition pages_of (buffers : list Z) (idx : list Z) : list resource :=
  flat_map (fun i => let p := buffers !!! Z.to_nat i in
                     if p =? NULL then [] else [ResPage p]) idx.

(** The resources the compression side of the device structure records. *)
Definition holds_compression (d : eh_device_mem) : list resource :=
  (if m_compr_buffers d =? NULL then []
   else pages_of (m_compr_pages d) (seqZ 0 (m_fifo_size d)) ++
        [ResMem (m_compr_buffers d)]) ++
  (if m_completions d =? NULL then [] else [ResMem (m_completions d)]) ++
  (if m_fifo_alloc d =? NULL then [] else [ResMem (m_fifo_alloc d)]).

(** The resources the decompression side records. *)
Definition holds_decompression (d : eh_device_mem) : list resource :=
  pages_of (m_decompr_buffers d) (seqZ 0 (m_decompr_cmd_count d)) ++
  (if m_decompr_cmd_used d =? NULL then [] else [ResMem (m_decompr_cmd_used d)]).

(** The resources a device holds once [eh_init] has succeeded. *)
Definition holds_all (d : eh_device_mem) : list resource :=
  [ResPercpu (m_stats d); ResThread (m_comp_thread d); ResIrq (m_error_irq d)] ++
  holds_decompression d ++ holds_compression d ++ [ResIomap (m_regs d)].

(** Every allocation of [eh_init_compression] succeeds. *)
Definition compression_allocs_ok (e : bringup_env) (fifo_size : Z) : Prop :=
  env_completions e <> NULL /\ env_fifo_alloc e <> NULL /\
  env_compr_buffers e <> NULL /\
  forall i, 0 <= i < fifo_size -> env_compr_page e i <> NULL.

(** Every allocation of [eh_init_decompression] succeeds. *)
Definition decompression_allocs_ok (e : bringup_env) : Prop :=
  env_decompr_cmd_used e <> NULL /\
  forall i, 0 <= i < env_decompr_cmds e -> env_decompr_page e i <> NULL.

(** A device structure that holds no memory yet, with room for the
    buffers of [cmds] command sets. *)
Definition mem_clean (d : eh_device_mem) (cmds : Z) : Prop :=
  m_completions d = NULL /\ m_fifo_alloc d = NULL /\ m_compr_buffers d = NULL /\
  (Z.to_nat cmds <= length (m_decompr_buffers d))%nat /\
  forall j, 0 <= j < cmds -> m_decompr_buffers d !!! Z.to_nat j = NULL.

(** Number of reads of [EH_REG_GCTRL] and of sleeps among events. *)
Fixpoint gctrl_reads (ev : list kevent) : nat :=
  match ev with
  | [] => 0
  | KReadGctrl :: ev' => S (gctrl_reads ev')
  | _ :: ev' => gctrl_reads ev'
  end.

Fixpoint sleeps (ev : list kevent) : nat :=
  match ev with
  | [] => 0
  | KSleep :: ev' => S (sleeps ev')
  | _ :: ev' => sleeps ev'
  end.

(** Events that neither acquire nor release. *)
Definition no_resource (e : kevent) : Prop :=
  match e with
  | KAcquire _ | KRelease _ => False
  | _ => True
  end.

(** The devices, their callbacks, and who holds what: [eh_dev_list] is
    the list of the same name, [claimed] the devices handed out by
    [eh_create] and not yet given back. *)
Record pool : Type := mk_pool {
  eh_dev_list : list Z;
  callback_of : Z -> Z * Z;
  claimed : list Z
}.

Inductive pool_op : Type :=
(** the [list_add_tail] of [eh_sw_init], for a new device structure *)
| PoolAdd (eh_dev : Z)
| PoolCreate (comp decomp : Z)
| PoolDestroy (eh_dev : Z).

(** A step on the pool.  A device structure is added once, at an
    address that is neither null nor an error value, with the null
    callbacks [kzalloc] gave it; a client gives back only what it was
    handed. *)
Definition pool_step (o : pool_op) (p : pool) : option pool :=
  match o with
  | PoolAdd d =>
      if bool_decide (d <> NULL) && negb (IS_ERR d) &&
         bool_decide (d ∉ eh_dev_list p ++ claimed p) then
        Some (mk_pool (eh_dev_list p ++ [d]) (upd d (NULL, NULL) (callback_of p))
                (claimed p))
      else None
  | PoolCreate comp decomp =>
      let '(ret, l, cb) := eh_create comp decomp (eh_dev_list p) (callback_of p) in
      Some (mk_pool l cb (if IS_ERR ret then claimed p else ret :: claimed p))
  | PoolDestroy d =>
      if bool_decide (d ∈ claimed p) then
        let '(l, cb) := eh_destroy d (eh_dev_list p) (callback_of p) in
        Some (mk_pool l cb (filter (fun x => x <> d) (claimed p)))
      else None
  end.

Fixpoint pool_run (ops : list pool_op) (p : pool) : option pool :=
  match ops with
  | [] => Some p
  | o :: ops' =>
      match pool_step o p with
      | Some p' => pool_run ops' p'
      | None => None
      end
  end.

Definition empty_pool : pool := mk_pool [] (fun _ => (NULL, NULL)) [].

Record pool_inv (p : pool) : Prop := mk_pool_inv {
  pool_nodup : NoDup (eh_dev_list p ++ claimed p);
  pool_valid : forall d, d ∈ eh_dev_list p ++ claimed p ->
                 d <> NULL /\ IS_ERR d = false;
  pool_callbacks : forall d, d ∈ eh_dev_list p -> callback_of p d = (NULL, NULL)
}.

(** Events by which [eh_decompress_page] hands work to the engine. *)
Definition programs_engine (e : event) : bool :=
  match e with
  | EvMemcpy _ _ _ | EvDcmdCsize _ _ | EvDcmdBuf0 _ _ _ | EvDcmdBuf _ _ _
  | EvDcmdDest _ _ _ => true
  | _ => false
  end.

(** * Calls running side by side *)

(** An execution in which several threads take turns: each event with
    the thread that makes it. *)
Definition schedule : Type := list (nat * event).

(** The events of thread [t], in order. *)
Definition events_of (t : nat) (sch : schedule) : list event :=
  map snd (filter (fun p => p.1 = t) sch).

(** Spin locks.  The locks held, each with its holder, after the events
    of [sch], when [held] are held before.  [None] when a thread gets a
    lock that another one holds, which [spin_lock] does not allow (the
    caller spins until the lock is free), or gives back a lock it does
    not hold. *)
Fixpoint spin_after (held : list (nat * eh_lock)) (sch : schedule)
  : option (list (nat * eh_lock)) :=
  match sch with
  | [] => Some held
  | (t, e) :: sch' =>
      match e with
      | EvLock l =>
          if decide (l ∈ map snd held) then None
          else spin_after ((t, l) :: held) sch'
      | EvUnlock l =>
          if decide ((t, l) ∈ held)
          then spin_after (filter (fun h => h <> (t, l)) held) sch'
          else None
      | _ => spin_after held sch'
      end
  end.

(** * Facts about the bit helpers *)

Lemma ffs_pos_nonneg p : 0 <= ffs_pos p.
Proof. induction p; simpl; lia. Qed.

Lemma ffs_pos_odd_part p : exists q, Zpos p = 2 ^ ffs_pos p * (2 * q + 1) /\ 0 <= q.
Proof.
  induction p as [p _|p [q [Hq Hq0]]|].
  - exists (Zpos p). simpl ffs_pos. rewrite Z.pow_0_r. lia.
  - exists q. split; [|done]. simpl ffs_pos.
    rewrite Z.pow_add_r by (pose proof (ffs_pos_nonneg p); lia).
    rewrite Pos2Z.inj_xO, Hq. change (2 ^ 1) with 2. ring.
  - exists 0. simpl. lia.
Qed.

(** [1UL << __ffs(a)] is the largest power of two that divides [a]. *)
Lemma natural_alignment_largest a :
  0 < a ->
  Z.shiftl 1 (__ffs a) = 2 ^ __ffs a /\
  (2 ^ __ffs a | a) /\
  forall k, 0 <= k -> (2 ^ k | a) -> 2 ^ k <= 2 ^ __ffs a.
Proof.
  intros Ha. destruct a as [|p|p]; try lia. simpl __ffs.
  pose proof (ffs_pos_nonneg p) as Hf.
  destruct (ffs_pos_odd_part p) as [q [Hq Hq0]].
  split; [by rewrite Z.shiftl_1_l|]. split.
  - exists (2 * q + 1). lia.
  - intros k Hk [c Hc].
    apply Z.pow_le_mono_r; [lia|].
    destruct (Z_le_gt_dec k (ffs_pos p)) as [|Hgt]; [done|exfalso].
    assert (Hk' : k = ffs_pos p + 1 + (k - ffs_pos p - 1)) by lia.
    rewrite Hk' in Hc. rewrite !Z.pow_add_r in Hc by lia.
    rewrite Hq in Hc. change (2 ^ 1) with 2 in Hc.
    assert (H2 : 2 * q + 1 = 2 * (c * 2 ^ (k - ffs_pos p - 1))).
    { apply (Z.mul_cancel_l _ _ (2 ^ ffs_pos p)); [|lia].
      apply Z.pow_nonzero; lia. }
    lia.
Qed.

(** * Decompression command setup *)

(** C7. [eh_setup_dcmd] copies the compressed data into the bounce
    buffer of the command set exactly when the natural alignment of the
    source address (the largest power of two dividing it) is below 64
    bytes or smaller than the compressed size.  With a copy the engine
    is handed the bounce buffer with page alignment; without one it is
    handed the source itself, no copy is made, and the programmed
    alignment is the natural one capped at the page size. *)
Theorem eh_setup_dcmd_copy_iff s index compr_data compr_size dst_page :
  0 < compr_data ->
  let al := Z.shiftl 1 (__ffs compr_data) in
  let ev := eh_setup_dcmd s index compr_data compr_size dst_page in
  let bounce := decompr_buffers s !!! Z.to_nat index in
  let program size_code src_paddr :=
    [ EvDcmdCsize index compr_size;
      EvDcmdBuf0 index size_code src_paddr;
      EvDcmdBuf index 1 0; EvDcmdBuf index 2 0; EvDcmdBuf index 3 0;
      EvDcmdDest index (page_to_phys dst_page) EH_DCMD_PENDING ] in
  (al = 2 ^ __ffs compr_data /\ (al | compr_data) /\
   forall k, 0 <= k -> (2 ^ k | compr_data) -> 2 ^ k <= al) /\
  ((exists dst src n, In (EvMemcpy dst src n) ev) <-> al < 64 \/ al < compr_size) /\
  (al < 64 \/ al < compr_size ->
   ev = EvMemcpy bounce compr_data compr_size ::
        program (__ffs PAGE_SIZE - 5) (virt_to_phys bounce)) /\
  (~ (al < 64 \/ al < compr_size) ->
   ev = program (__ffs (Z.min al PAGE_SIZE) - 5) (virt_to_phys compr_data)).
Proof.
  intros Hpos al ev bounce program.
  destruct (natural_alignment_largest compr_data Hpos) as (Hal & Hdiv & Hmax).
  fold al in Hal. rewrite <- Hal in Hdiv, Hmax.
  split; [done|].
  assert (Hev : ev = if (al <? 64) || (al <? compr_size)
                     then EvMemcpy bounce compr_data compr_size ::
                          program (__ffs PAGE_SIZE - 5) (virt_to_phys bounce)
                     else program (__ffs (Z.min al PAGE_SIZE) - 5)
                            (virt_to_phys compr_data)).
  { subst ev. unfold eh_setup_dcmd. fold al.
    destruct ((al <? 64) || (al <? compr_size)); [done|].
    simpl. unfold program. do 3 f_equal.
    destruct (Z.ltb_spec PAGE_SIZE al).
    - by rewrite Z.min_r by lia.
    - by rewrite Z.min_l by lia. }
  destruct ((al <? 64) || (al <? compr_size)) eqn:E.
  - assert (Hc : al < 64 \/ al < compr_size).
    { apply orb_true_iff in E as [E|E]; apply Z.ltb_lt in E; auto. }
    split; [|split; [done|tauto]].
    split; [done|]. intros _. exists bounce, compr_data, compr_size.
    rewrite Hev. by left.
  - assert (Hc : ~ (al < 64 \/ al < compr_size)).
    { apply orb_false_iff in E as [E1 E2].
      apply Z.ltb_ge in E1, E2. lia. }
    split; [|split; [tauto|done]].
    split; [|tauto]. intros (dst & src & n & Hin). exfalso.
    rewrite Hev in Hin. unfold program in Hin. simpl in Hin.
    repeat (destruct Hin as [Hin|Hin]; [discriminate|]). done.
Qed.

(** * Reaping one descriptor *)

Lemma eh_process_completed_descriptor_state s fifo_index cmpl :
  (eh_process_completed_descriptor s fifo_index cmpl).1.2 =
  set_nr_request (nr_request s - 1)
    (set_fifo (fifo_idle_at s (Z.to_nat fifo_index)) s).
Proof.
  unfold eh_process_completed_descriptor.
  by destruct (status (fifo s !!! Z.to_nat fifo_index)).
Qed.

(** C9 (as the code has it). For [ZERO] and [ABORT] the callback gets a
    null data pointer and the length field of the descriptor as it
    stands; for [COPIED] and [COMPRESSED] it gets the compression buffer
    of the slot, moved by half a page when buffer 2 was selected, and
    the length field of the descriptor.  The token is the [priv] of the
    completion record in all four cases. *)
Theorem eh_process_completed_descriptor_callback s fifo_index cmpl :
  let desc := fifo s !!! Z.to_nat fifo_index in
  let ev := (eh_process_completed_descriptor s fifo_index cmpl).2 in
  let buf := compr_buffers s !!! Z.to_nat fifo_index in
  (status desc = EH_CDESC_ZERO \/ status desc = EH_CDESC_ABORT ->
   callbacks ev = [EvCallback (status desc) NULL (compr_len desc) (priv cmpl)]) /\
  (status desc = EH_CDESC_COPIED \/ status desc = EH_CDESC_COMPRESSED ->
   callbacks ev =
   [EvCallback (status desc)
      (buf + (if buf_sel desc =? 2 then PAGE_SIZE / 2 else 0))
      (compr_len desc) (priv cmpl)]).
Proof.
  intros desc ev buf. subst ev. unfold eh_process_completed_descriptor.
  fold desc. fold buf.
  split; intros [H|H]; rewrite H; reflexivity.
Qed.

(** C4 (as the code has it). A descriptor found idle or pending at an
    index the engine reported complete makes
    [eh_process_completed_descriptor] dump the registers and warn; the
    callback is then invoked as for any other status, the descriptor is
    put back to idle, the request count drops, and the function returns
    0.  The loop of [eh_process_completions] therefore goes on with the
    next index. *)
Theorem eh_process_idle_or_pending_continues s i end_ fuel :
  let index := Z.land i (fifo_index_mask s) in
  let desc := fifo s !!! Z.to_nat (u16 index) in
  let cmpl := completions s !!! Z.to_nat index in
  let s1 := set_nr_request (nr_request s - 1)
              (set_fifo (fifo_idle_at s (Z.to_nat (u16 index))) s) in
  let s2 := set_complete_index
              (Z.land (u32 (complete_index s + 1)) (fifo_color_mask s))
              (set_completions
                 (<[Z.to_nat index := mk_cmpl NULL]> (completions s)) s1) in
  let ev := [EvLatency EH_COMPRESS; EvDumpRegs; EvWarn;
             EvCallback (status desc) NULL (compr_len desc) (priv cmpl);
             EvWakeCompressWait] in
  status desc = EH_CDESC_IDLE \/ status desc = EH_CDESC_PENDING ->
  i <> end_ ->
  eh_process_completed_descriptor s (u16 index) cmpl = (0, s1, ev) /\
  eh_process_completions (S fuel) s i end_ =
  match eh_process_completions fuel s2
          (Z.land (u32 (i + 1)) (fifo_color_mask s)) end_ with
  | Some (ret, s', ev') => Some (ret, s', ev ++ ev')
  | None => None
  end.
Proof.
  intros index desc cmpl s1 s2 ev Hst Hne.
  assert (H1 : eh_process_completed_descriptor s (u16 index) cmpl = (0, s1, ev)).
  { unfold eh_process_completed_descriptor. fold desc. subst ev.
    destruct Hst as [H|H]; rewrite H; reflexivity. }
  split; [done|].
  unfold eh_process_completions. simpl eh_process_completions_loop.
  destruct (Z.eqb_spec i end_); [done|].
  fold index. fold cmpl. rewrite H1. reflexivity.
Qed.

(** * Suspend *)

(** The two ways through [eh_suspend].  It takes [fifo_prod_lock], then
    the lock of every decompression command set in index order, and
    gives them back in the opposite order.  With a compression request
    outstanding, or a command set marked busy, it returns [-EBUSY] and
    leaves the device structure and the registers as they were.
    Otherwise it masks the three interrupt groups, clears the enable bit
    of the compression FIFO, stops the clock, sets [suspended] and
    returns 0. *)
Lemma eh_suspend_cases s :
  let slots := seqZ 0 (decompr_cmd_count s) in
  let in_flight :=
    0 < nr_request s \/
    exists i, 0 <= i < decompr_cmd_count s /\
              decompr_busy s !!! Z.to_nat i = true in
  let '(ret, s', ev) := eh_suspend s in
  (exists body,
     ev = [EvLock fifo_prod_lock] ++
          map (fun i => EvLock (decompr_lock i)) slots ++
          body ++
          map (fun i => EvUnlock (decompr_lock i)) (reverse slots) ++
          [EvUnlock fifo_prod_lock] /\
     forall l, ~ In (EvLock l) body /\ ~ In (EvUnlock l) body) /\
  (in_flight -> ret = - EBUSY /\ s' = s) /\
  (~ in_flight ->
   ret = 0 /\
   s' = set_suspended true (set_clk_enabled false (set_regs (regs s') s)) /\
   suspended s' = true /\
   cdesc_compress_enable (regs s') = false /\
   intrp_mask_error (regs s') = ALL_ONES /\
   intrp_mask_cmp (regs s') = ALL_ONES /\
   intrp_mask_dcmp (regs s') = ALL_ONES /\
   cdesc_complete_idx (regs s') = cdesc_complete_idx (regs s) /\
   cdesc_wridx (regs s') = cdesc_wridx (regs s) /\
   err_cond (regs s') = err_cond (regs s)).
Proof.
  intros slots in_flight. unfold eh_suspend. fold slots.
  assert (Hbusy : existsb (fun i => (decompr_busy s !!! Z.to_nat i : bool)) slots = true
                  <-> exists i, 0 <= i < decompr_cmd_count s /\
                                decompr_busy s !!! Z.to_nat i = true).
  { rewrite existsb_exists. split.
    - intros (i & Hin & Hi). exists i. split; [|done].
      apply list_elem_of_In, elem_of_seqZ in Hin. lia.
    - intros (i & Hr & Hi). exists i. split; [|done].
      apply list_elem_of_In, elem_of_seqZ. lia. }
  destruct (Z.ltb_spec 0 (nr_request s)) as [Hnr|Hnr].
  - split; [|split].
    + exists [EvWarn]. split; [done|].
      intros l. split; intros [?|[]]; discriminate.
    + done.
    + intros Hn. exfalso. apply Hn. by left.
  - destruct (existsb _ slots) eqn:E.
    + split; [|split].
      * exists [EvWarn]. split; [done|].
        intros l. split; intros [?|[]]; discriminate.
      * done.
      * intros Hn. exfalso. apply Hn. right. by apply Hbusy.
    + split; [|split].
      * exists []. split; [done|]. intros l. split; intros [].
      * intros [?|Hb]; [lia|]. apply Hbusy in Hb. congruence.
      * intros _. done.
Qed.

(** * Submission while suspended *)

Lemma eh_compress_page_try_suspended s page priv :
  suspended s = true ->
  eh_compress_page_try s page priv =
  (TryDone (- EBUSY) s,
   [EvLock fifo_prod_lock; EvWarn; EvUnlock fifo_prod_lock]).
Proof. intros H. unfold eh_compress_page_try. by rewrite H. Qed.

Lemma eh_compress_page_try_ret s page priv ret s' :
  (eh_compress_page_try s page priv).1 = TryDone ret s' ->
  (ret = - EBUSY /\ suspended s = true /\ s' = s) \/
  (ret = 0 /\ suspended s = false).
Proof.
  unfold eh_compress_page_try. destruct (suspended s).
  - simpl. intros [= <- <-]. by left.
  - destruct (_ <? _); simpl; [done|]. intros [= <- _]. by right.
Qed.

Lemma eh_compress_page_unfold others s page priv :
  eh_compress_page others s page priv =
  match eh_compress_page_try s page priv with
  | (TryDone ret s', ev) => Some (ret, s', ev)
  | (TryAgain, ev) =>
      match others with
      | [] => None
      | f :: others' =>
          match eh_compress_page others' (f s) page priv with
          | Some (ret, s', ev') => Some (ret, s', ev ++ ev')
          | None => None
          end
      end
  end.
Proof. by destruct others. Qed.

(** C5. A pass of [eh_compress_page] that finds the device suspended
    returns [-EBUSY] at once: nothing is queued, the device is left as
    it was, and no congestion wait is entered.  The same holds when the
    device becomes suspended while the caller waits for room in the
    ring: the pass after that wait returns [-EBUSY].  [-EBUSY] is
    returned in no other case, the only other return value being 0. *)
Theorem eh_compress_page_suspended waits others s page priv :
  congested_through waits s page priv ->
  suspended (after_waits waits s) = true ->
  (exists ev,
     eh_compress_page (waits ++ others) s page priv =
     Some (- EBUSY, after_waits waits s,
           ev ++ [EvLock fifo_prod_lock; EvWarn; EvUnlock fifo_prod_lock])) /\
  (waits = [] ->
   eh_compress_page_try s page priv =
   (TryDone (- EBUSY) s,
    [EvLock fifo_prod_lock; EvWarn; EvUnlock fifo_prod_lock])) /\
  (forall others' s0 ret s' ev',
     eh_compress_page others' s0 page priv = Some (ret, s', ev') ->
     (ret = - EBUSY /\ suspended s' = true) \/ (ret = 0 /\ ret <> - EBUSY)).
Proof.
  intros Hc Hs. split; [|split].
  - revert s Hc Hs. induction waits as [|f waits IH]; intros s Hc Hs.
    + exists []. simpl in *.
      by rewrite eh_compress_page_unfold, eh_compress_page_try_suspended.
    + destruct Hc as [Hc1 Hc2]. simpl in Hs.
      destruct (IH (f s) Hc2 Hs) as [ev Hev].
      rewrite eh_compress_page_unfold. simpl.
      destruct (eh_compress_page_try s page priv) as [r ev0].
      simpl in Hc1. subst r. fold (after_waits waits (f s)).
      rewrite Hev. exists (ev0 ++ ev). by rewrite app_assoc.
  - intros ->. simpl in Hs. by apply eh_compress_page_try_suspended.
  - intros others'. induction others' as [|f others' IH]; intros s0 ret s' ev'; simpl.
    + destruct (eh_compress_page_try s0 page priv) as [[r s1|] ev0] eqn:E; [|done].
      intros [= <- <- <-].
      destruct (eh_compress_page_try_ret s0 page priv r s1) as [(-> & ? & ->)|[-> _]].
      { by rewrite E. }
      * by left.
      * right. done.
    + destruct (eh_compress_page_try s0 page priv) as [[r s1|] ev0] eqn:E.
      * intros [= <- <- <-].
        destruct (eh_compress_page_try_ret s0 page priv r s1) as [(-> & ? & ->)|[-> _]].
        { by rewrite E. }
        -- by left.
        -- right. done.
      * destruct (eh_compress_page others' (f s0) page priv) as [[[r s1] ev1]|] eqn:E2;
           [|done].
        intros [= <- <- <-]. eapply IH. exact E2.
Qed.

(** * Polled decompression *)

Lemma eh_poll_pending timeout obs k : forall fuel n,
  (forall j, (j < k)%nat ->
     time_after (obs (n + j)%nat).1 timeout = false /\
     (obs (n + j)%nat).2 = EH_DCMD_PENDING) ->
  eh_poll (k + fuel) timeout obs n = eh_poll fuel timeout obs (n + k).
Proof.
  induction k as [|k IH]; intros fuel n H.
  - simpl. by rewrite Nat.add_0_r.
  - simpl. destruct (H 0%nat ltac:(lia)) as [H1 H2].
    rewrite Nat.add_0_r in H1, H2.
    destruct (obs n) as [jf st]. simpl in H1, H2. rewrite H1.
    destruct (decide (st = EH_DCMD_PENDING)); [|done].
    rewrite IH.
    + f_equal. lia.
    + intros j Hj. replace (S n + j)%nat with (n + S j)%nat by lia.
      apply H. lia.
Qed.

(** C6. A call of [eh_decompress_page] that gets past the checks polls
    the status of its command set.  If [jiffies] passes the deadline
    while every status read so far was still pending, the call returns
    [-ETIME]; if a status other than pending is read in time and it is
    not [EH_DCMD_DECOMPRESSED], the call returns [-EIO]; if it is
    [EH_DCMD_DECOMPRESSED], the latency is recorded and the call returns
    0.  The lock of the command set is released on each path. *)
Theorem eh_decompress_page_outcomes fuel s cpu now obs compr_data compr_size page k :
  let index := cpu mod decompr_cmd_count s in
  let timeout := now + EH_POLL_DELAY_JIFFIES in
  let lock := decompr_lock index in
  let setup := eh_setup_dcmd s index compr_data compr_size page in
  let result := eh_decompress_page fuel s cpu now obs compr_data compr_size page in
  suspended s = false ->
  decompr_busy s !!! Z.to_nat index = false ->
  (k < fuel)%nat ->
  (forall j, (j < k)%nat ->
     time_after (obs j).1 timeout = false /\ (obs j).2 = EH_DCMD_PENDING) ->
  (time_after (obs k).1 timeout = true ->
   result = Some (- ETIME, [EvLock lock] ++ setup ++ [EvDumpRegs; EvUnlock lock])) /\
  (time_after (obs k).1 timeout = false ->
   (obs k).2 <> EH_DCMD_PENDING -> (obs k).2 <> EH_DCMD_DECOMPRESSED ->
   result = Some (- EIO, [EvLock lock] ++ setup ++
                         [EvLatency EH_DECOMPRESS_POLL; EvDumpRegs; EvUnlock lock])) /\
  (time_after (obs k).1 timeout = false ->
   (obs k).2 = EH_DCMD_DECOMPRESSED ->
   result = Some (0, [EvLock lock] ++ setup ++
                     [EvLatency EH_DECOMPRESS_POLL; EvUnlock lock])).
Proof.
  intros index timeout lock setup result Hs Hb Hk Hpend.
  assert (Hpoll : eh_poll fuel timeout obs 0 =
                  eh_poll (S (fuel - k - 1)) timeout obs k).
  { replace fuel with (k + S (fuel - k - 1))%nat at 1 by lia.
    rewrite eh_poll_pending; [done|]. intros j Hj. by apply Hpend. }
  assert (Hres : result =
    match eh_poll (S (fuel - k - 1)) timeout obs k with
    | None => None
    | Some PollTimeout =>
        Some (- ETIME, [EvLock lock] ++ setup ++ [EvDumpRegs; EvUnlock lock])
    | Some (PollStatus st) =>
        if decide (st = EH_DCMD_DECOMPRESSED) then
          Some (0, [EvLock lock] ++ setup ++
                   [EvLatency EH_DECOMPRESS_POLL; EvUnlock lock])
        else
          Some (- EIO, [EvLock lock] ++ setup ++
                       [EvLatency EH_DECOMPRESS_POLL; EvDumpRegs; EvUnlock lock])
    end).
  { subst result. unfold eh_decompress_page. fold index. rewrite Hs, Hb.
    fold timeout. by rewrite Hpoll. }
  rewrite Hres. simpl eh_poll. destruct (obs k) as [jf st]. simpl.
  split; [|split].
  - by intros ->.
  - intros -> Hn1 Hn2. destruct (decide (st = EH_DCMD_PENDING)); [done|].
    by destruct (decide (st = EH_DCMD_DECOMPRESSED)).
  - intros -> ->. simpl. done.
Qed.

(** * Masks and wrap-around *)

Lemma pow2_pos k : 0 <= k -> 0 < 2 ^ k.
Proof. intros. apply Z.pow_pos_nonneg; lia. Qed.

Lemma pow2_succ k : 0 <= k -> 2 ^ (k + 1) = 2 * 2 ^ k.
Proof. intros. rewrite Z.pow_add_r by lia. change (2 ^ 1) with 2. lia. Qed.

Lemma land_mask_mod x k : 0 <= k -> Z.land x (2 ^ k - 1) = x mod 2 ^ k.
Proof.
  intros Hk. rewrite <- Z.land_ones by done. f_equal.
  rewrite Z.ones_equiv. lia.
Qed.

Lemma mod_mod_pow2 x a b : 0 <= a <= b -> (x mod 2 ^ b) mod 2 ^ a = x mod 2 ^ a.
Proof.
  intros Hab. apply Z.mod_mod_divide.
  exists (2 ^ (b - a)). rewrite <- Z.pow_add_r by lia. f_equal. lia.
Qed.

Lemma land_u32_mask x k : 0 <= k <= 32 -> Z.land (u32 x) (2 ^ k - 1) = x mod 2 ^ k.
Proof.
  intros Hk. rewrite land_mask_mod by lia. unfold u32.
  apply mod_mod_pow2. lia.
Qed.

Lemma mod_eq_close x y m : x mod m = y mod m -> 0 <= y - x < m -> x = y.
Proof.
  intros He Hr.
  assert (H0 : (y - x) mod m = 0).
  { rewrite Zminus_mod, He, Z.sub_diag. apply Z.mod_0_l. lia. }
  rewrite Z.mod_small in H0 by lia. lia.
Qed.

Lemma mod_ne_close x y m : 0 < y - x < m -> x mod m <> y mod m.
Proof. intros Hr He. apply mod_eq_close in He; lia. Qed.

Lemma u16_small x : 0 <= x < 2 ^ 16 -> u16 x = x.
Proof. intros. unfold u16. by apply Z.mod_small. Qed.

(** * Slots *)

Lemma slot_lt s j : 0 < fifo_size s -> (slot s j < Z.to_nat (fifo_size s))%nat.
Proof.
  intros Hn. unfold slot. pose proof (Z.mod_pos_bound j (fifo_size s) Hn). lia.
Qed.

Lemma slot_ne s j j' : 0 < j' - j < fifo_size s -> slot s j <> slot s j'.
Proof.
  intros Hr He. unfold slot in He.
  assert (Hn : 0 < fifo_size s) by lia.
  pose proof (Z.mod_pos_bound j (fifo_size s) Hn).
  pose proof (Z.mod_pos_bound j' (fifo_size s) Hn).
  apply Z2Nat.inj in He; [|lia|lia].
  by apply mod_ne_close in He.
Qed.

Lemma slot_ne' s j j' : 0 < j - j' < fifo_size s -> slot s j <> slot s j'.
Proof. intros Hr He. symmetry in He. by apply slot_ne in He. Qed.

(** * Traces *)

Lemma delivered_app tr1 tr2 : delivered (tr1 ++ tr2) = delivered tr1 ++ delivered tr2.
Proof.
  induction tr1 as [|e tr1 IH]; [done|].
  destruct e; simpl; by rewrite ?IH.
Qed.

Lemma callbacks_app tr1 tr2 : callbacks (tr1 ++ tr2) = callbacks tr1 ++ callbacks tr2.
Proof.
  induction tr1 as [|e tr1 IH]; [done|].
  destruct e; simpl; by rewrite ?IH.
Qed.


Lemma delivered_setup_dcmd s index compr_data compr_size dst_page :
  delivered (eh_setup_dcmd s index compr_data compr_size dst_page) = [].
Proof.
  unfold eh_setup_dcmd.
  by destruct ((_ <? 64) || _).
Qed.

(** * The invariant is kept by every step *)

Lemma ring_inv_same_dev k y y' C H W :
  ring_inv k y C H W ->
  dev y' = dev y ->
  delivered (trace y') = delivered (trace y) ->
  submitted y' = submitted y ->
  ring_inv k y' C H W.
Proof.
  intros [] Hd Ht Hs.
  constructor; rewrite ?Hd, ?Ht, ?Hs; done.
Qed.

Lemma slot_same_size s' s j : fifo_size s' = fifo_size s -> slot s' j = slot s j.
Proof. intros Hs. unfold slot. by rewrite Hs. Qed.

Lemma ring_tokens_ext s s' C n :
  fifo_size s' = fifo_size s ->
  (forall j, C <= j < C + n ->
     priv (completions s' !!! slot s j) = priv (completions s !!! slot s j)) ->
  ring_tokens s' C n = ring_tokens s C n.
Proof.
  intros Hsz Hp. unfold ring_tokens.
  apply map_ext_in. intros j Hj.
  apply list_elem_of_In, elem_of_seqZ in Hj.
  unfold slot in *. rewrite Hsz. apply Hp. lia.
Qed.

Lemma ring_tokens_snoc s C n :
  0 <= n ->
  ring_tokens s C (n + 1) =
  ring_tokens s C n ++ [priv (completions s !!! slot s (C + n))].
Proof.
  intros Hn. unfold ring_tokens.
  rewrite seqZ_app by lia. rewrite map_app. f_equal.
Qed.

Lemma ring_tokens_cons s C n :
  0 < n ->
  ring_tokens s C n =
  priv (completions s !!! slot s C) :: ring_tokens s (C + 1) (n - 1).
Proof.
  intros Hn. unfold ring_tokens.
  rewrite seqZ_cons by lia. simpl. do 2 f_equal; lia.
Qed.

Lemma ring_tokens_nil s C n : n <= 0 -> ring_tokens s C n = [].
Proof. intros Hn. unfold ring_tokens. by rewrite seqZ_nil. Qed.

Lemma ring_tokens_split s C m n :
  0 <= m <= n ->
  ring_tokens s C n = ring_tokens s C m ++ ring_tokens s (C + m) (n - m).
Proof.
  intros Hm. unfold ring_tokens.
  replace n with (m + (n - m)) at 1 by lia.
  rewrite seqZ_app by lia. by rewrite map_app.
Qed.

(** Facts about the sizes that every proof below starts from. *)
Ltac size_facts k :=
  let N := fresh "N" in
  pose proof (pow2_pos k ltac:(lia));
  pose proof (pow2_succ k ltac:(lia));
  assert (2 ^ k <= 2 ^ 15) by (apply Z.pow_le_mono_r; lia);
  assert (2 <= 2 ^ k) by (change 2 with (2 ^ 1) at 1; apply Z.pow_le_mono_r; lia);
  change (2 ^ 15) with 32768 in *.

Lemma step_compress_inv k y C H W page priv y' :
  ring_inv k y C H W ->
  step (OpCompress page priv) y = Some y' ->
  exists W', ring_inv k y' C H W'.
Proof.
  intros Hinv Hstep. pose proof Hinv as [].
  size_facts k.
  unfold step, eh_compress_page_try in Hstep.
  destruct (suspended (dev y)) eqn:Hsusp.
  { injection Hstep as <-. exists W.
    apply (ring_inv_same_dev k y); [done|done| |done].
    simpl. by rewrite delivered_app, app_nil_r. }
  rewrite inv_cmask0, !land_u32_mask in Hstep by lia.
  rewrite inv_w0, inv_c0, inv_size0 in Hstep.
  rewrite Zplus_mod_idemp_l, Zminus_mod_idemp_l, Zminus_mod_idemp_r in Hstep.
  rewrite (Z.mod_small (W + 1 - C)) in Hstep by lia.
  destruct (Z.ltb_spec (2 ^ k) (W + 1 - C)) as [Hfull|Hroom].
  { injection Hstep as <-. exists W.
    apply (ring_inv_same_dev k y); [done|done| |done].
    simpl. by rewrite delivered_app, app_nil_r. }
  injection Hstep as <-. exists (W + 1).
  rewrite inv_imask0, land_mask_mod, mod_mod_pow2 by lia.
  assert (Hslot : Z.to_nat (W mod 2 ^ k) = slot (dev y) W).
  { unfold slot. by rewrite inv_size0. }
  unfold eh_setup_descriptor. simpl. rewrite !Hslot.
  constructor; simpl; try done.
  - by rewrite length_insert.
  - by rewrite length_insert.
  - lia.
  - lia.
  - intros j Hj. rewrite (slot_same_size _ (dev y)) by done.
    rewrite list_lookup_total_insert_ne; [apply inv_idle0; lia|].
    apply slot_ne. lia.
  - intros j Hj. rewrite (slot_same_size _ (dev y)) by done.
    rewrite list_lookup_total_insert_ne; [by apply inv_halt0|].
    apply slot_ne'. lia.
  - by rewrite Hsusp.
  - intros Ht.
    match goal with |- context [ring_tokens ?t _ _] => set (s' := t) end.
    rewrite delivered_app. simpl. rewrite app_nil_r.
    rewrite inv_tokens0 by done. rewrite <- app_assoc. f_equal.
    replace (W + 1 - C) with (W - C + 1) by lia.
    rewrite ring_tokens_snoc by lia.
    replace (C + (W - C)) with W by lia.
    rewrite (slot_same_size s' (dev y)) by done. subst s'. simpl.
    rewrite list_lookup_total_insert_eq
      by (simpl; rewrite inv_len_cmpl0, <- inv_size0; apply slot_lt; lia).
    simpl. f_equal. symmetry. apply ring_tokens_ext; [done|].
    intros j Hj. simpl. rewrite list_lookup_total_insert_ne; [done|].
    apply slot_ne'. lia.
  - rewrite delivered_app. simpl. rewrite app_nil_r.
    by apply sublist_inserts_r.
Qed.

Lemma step_hw_complete_inv k y C H W st len bufsel err y' :
  ring_inv k y C H W ->
  step (OpHwComplete st len bufsel err) y = Some y' ->
  ring_inv k y' C (H + 1) W.
Proof.
  intros Hinv Hstep. pose proof Hinv as [].
  size_facts k.
  unfold step, hw_complete in Hstep.
  destruct (cdesc_compress_enable (regs (dev y))); simpl in Hstep; [|done].
  destruct (fifo_halted (regs (dev y))) eqn:Hhalt; simpl in Hstep; [done|].
  rewrite inv_wridx0, inv_hw0, inv_w0 in Hstep.
  destruct (Z.eqb_spec (H mod 2 ^ (k + 1)) (W mod 2 ^ (k + 1))) as [|Hne]; [done|].
  assert (HW : H < W).
  { destruct (Z.eq_dec H W) as [->|]; [done|lia]. }
  injection Hstep as <-.
  rewrite inv_imask0, inv_cmask0, !land_mask_mod, mod_mod_pow2 by lia.
  rewrite Zplus_mod_idemp_l.
  assert (Hslot : Z.to_nat (H mod 2 ^ k) = slot (dev y) H).
  { unfold slot. by rewrite inv_size0. }
  rewrite !Hslot.
  constructor; simpl; try done.
  - by rewrite length_insert.
  - lia.
  - intros j Hj. rewrite (slot_same_size _ (dev y)) by done.
    rewrite list_lookup_total_insert_ne; [apply inv_idle0; lia|].
    apply slot_ne. lia.
  - intros j Hj. rewrite (slot_same_size _ (dev y)) by done.
    destruct (Z.eq_dec j H) as [->|Hjne].
    + rewrite list_lookup_total_insert_eq
        by (rewrite inv_len_fifo0, <- inv_size0; apply slot_lt; lia).
      simpl. intros ->. split; [lia|]. by apply bool_decide_eq_true.
    + rewrite list_lookup_total_insert_ne by (apply slot_ne'; lia).
      intros Hst. destruct (inv_halt0 j ltac:(lia) Hst) as [_ Hh]. congruence.
Qed.

Lemma step_decompress_inv k y C H W fuel cpu now obs compr_data compr_size page y' :
  ring_inv k y C H W ->
  step (OpDecompress fuel cpu now obs compr_data compr_size page) y = Some y' ->
  ring_inv k y' C H W.
Proof.
  intros Hinv Hstep. unfold step, eh_decompress_page in Hstep.
  assert (Hd : dev y' = dev y /\ submitted y' = submitted y /\
               delivered (trace y') = delivered (trace y)).
  { destruct (suspended (dev y)).
    { injection Hstep as <-. simpl. by rewrite delivered_app, app_nil_r. }
    destruct (decompr_busy (dev y) !!! _ : bool).
    { injection Hstep as <-. simpl. by rewrite delivered_app, app_nil_r. }
    destruct (eh_poll _ _ _ _) as [[|st]|]; [| |done].
    - injection Hstep as <-. simpl.
      rewrite delivered_app. simpl. rewrite delivered_app, delivered_setup_dcmd.
      simpl. by rewrite app_nil_r.
    - destruct (decide (st = EH_DCMD_DECOMPRESSED)); injection Hstep as <-; simpl;
        rewrite delivered_app; simpl; rewrite delivered_app, delivered_setup_dcmd;
        simpl; by rewrite app_nil_r. }
  destruct Hd as (Hd & Hs & Ht). by apply (ring_inv_same_dev k y).
Qed.

Lemma delivered_locks (f : Z -> eh_lock) (g : eh_lock -> event) l :
  (forall x, delivered [g x] = []) ->
  delivered (map (fun i => g (f i)) l) = [].
Proof.
  intros Hg. induction l as [|a l IH]; [done|].
  simpl. pose proof (Hg (f a)) as Ha.
  destruct (g (f a)); simpl in *; done.
Qed.

Lemma delivered_suspend s : delivered (eh_suspend s).2 = [].
Proof.
  unfold eh_suspend.
  pose proof (delivered_locks decompr_lock EvLock (seqZ 0 (decompr_cmd_count s))
                ltac:(done)) as Hl.
  pose proof (delivered_locks decompr_lock EvUnlock
                (reverse (seqZ 0 (decompr_cmd_count s))) ltac:(done)) as Hu.
  destruct (0 <? nr_request s); [|destruct (existsb _ _)]; simpl;
    rewrite !delivered_app, Hl; simpl; rewrite ?delivered_app, Hu; done.
Qed.

Lemma step_suspend_inv k y C H W y' :
  ring_inv k y C H W ->
  step OpSuspend y = Some y' ->
  ring_inv k y' C H W.
Proof.
  intros Hinv Hstep. pose proof Hinv as [].
  unfold step in Hstep.
  pose proof (delivered_suspend (dev y)) as Hdel.
  destruct (eh_suspend (dev y)) as [[ret s'] ev] eqn:E. simpl in Hdel.
  injection Hstep as <-.
  unfold eh_suspend in E.
  destruct (Z.ltb_spec 0 (nr_request (dev y))) as [Hnr|Hnr].
  { injection E as <- <- <-. apply (ring_inv_same_dev k y); [done|done| |done].
    simpl. by rewrite delivered_app, Hdel, app_nil_r. }
  destruct (existsb _ _).
  { injection E as <- <- <-. apply (ring_inv_same_dev k y); [done|done| |done].
    simpl. by rewrite delivered_app, Hdel, app_nil_r. }
  injection E as <- <- <-.
  constructor; simpl; rewrite ?delivered_app, ?Hdel, ?app_nil_r; try done.
  intros _. lia.
Qed.

Lemma step_resume_inv k y C H W y' :
  ring_inv k y C H W ->
  step OpResume y = Some y' ->
  ring_inv k y' 0 0 0.
Proof.
  intros Hinv Hstep. pose proof Hinv as [].
  size_facts k.
  unfold step in Hstep.
  destruct (suspended (dev y)) eqn:Hsusp; [|done].
  injection Hstep as <-.
  assert (HWC : W = C) by auto. subst W.
  assert (HHC : H = C) by lia. subst H.
  constructor; simpl; rewrite ?delivered_app, ?app_nil_r; try done.
  - lia.
  - lia.
  - intros j Hj. rewrite (slot_same_size _ (dev y)) by done.
    pose proof (Z.mod_pos_bound (j - C) (2 ^ k) ltac:(lia)) as Hb.
    replace (slot (dev y) j) with (slot (dev y) (C + (j - C) mod 2 ^ k)).
    + apply inv_idle0. lia.
    + unfold slot. f_equal. rewrite inv_size0.
      rewrite Zplus_mod_idemp_r. f_equal. lia.
  - lia.
  - intros Ht. rewrite inv_tokens0 by done.
    rewrite ring_tokens_nil by lia. by rewrite app_nil_r.
Qed.

Lemma eh_process_completed_descriptor_ret s fifo_index cmpl :
  (eh_process_completed_descriptor s fifo_index cmpl).1.1 =
  if decide (status (fifo s !!! Z.to_nat fifo_index) = EH_CDESC_ERROR_HALTED)
  then 1 else 0.
Proof.
  unfold eh_process_completed_descriptor.
  by destruct (status (fifo s !!! Z.to_nat fifo_index)).
Qed.

Lemma eh_process_completed_descriptor_delivered s fifo_index cmpl :
  delivered (eh_process_completed_descriptor s fifo_index cmpl).2 = [priv cmpl] /\
  length (callbacks (eh_process_completed_descriptor s fifo_index cmpl).2) = 1%nat.
Proof.
  unfold eh_process_completed_descriptor.
  by destruct (status (fifo s !!! Z.to_nat fifo_index)).
Qed.

Lemma eh_process_completions_loop_done fuel s i :
  eh_process_completions_loop fuel s i i = Some (0, s, []).
Proof. destruct fuel; simpl; by rewrite Z.eqb_refl. Qed.

(** One turn of the loop of [eh_process_completions] on the oldest
    request of the ring. *)
Lemma reap_slot_inv k y C H W ret s1 ev1 :
  ring_inv k y C H W ->
  C < H ->
  comp_thread (dev y) <> THREAD_EXITED ->
  let index := Z.land (C mod 2 ^ (k + 1)) (fifo_index_mask (dev y)) in
  eh_process_completed_descriptor (dev y) (u16 index)
    (completions (dev y) !!! Z.to_nat index) = (ret, s1, ev1) ->
  let s2 := set_complete_index
              (Z.land (u32 (complete_index s1 + 1)) (fifo_color_mask s1))
              (set_completions
                 (<[Z.to_nat index := mk_cmpl NULL]> (completions s1)) s1) in
  ring_inv k (mk_system s2 (trace y ++ ev1) (submitted y)) (C + 1) H W /\
  delivered ev1 = [priv (completions (dev y) !!! slot (dev y) C)] /\
  length (callbacks ev1) = 1%nat /\
  (comp_thread s2 = comp_thread (dev y) /\ suspended s2 = suspended (dev y)) /\
  fifo_color_mask s2 = fifo_color_mask (dev y) /\
  (forall m, m <= 2 ^ k - 1 ->
     ring_tokens s2 (C + 1) m = ring_tokens (dev y) (C + 1) m) /\
  (ret <> 0 -> C + 1 = H /\ fifo_halted (regs s2) = true).
Proof.
  intros Hinv HCH Hth index E s2. pose proof Hinv as [].
  size_facts k.
  assert (Hindex : index = C mod 2 ^ k).
  { subst index. rewrite inv_imask0, land_mask_mod, mod_mod_pow2 by lia. done. }
  assert (Hb : 0 <= C mod 2 ^ k < 2 ^ k) by (apply Z.mod_pos_bound; lia).
  assert (Hslot : Z.to_nat index = slot (dev y) C).
  { unfold slot. by rewrite inv_size0, Hindex. }
  assert (Hslot16 : Z.to_nat (u16 index) = slot (dev y) C).
  { rewrite u16_small; [done|]. rewrite Hindex. lia. }
  pose proof (eh_process_completed_descriptor_state (dev y) (u16 index)
                (completions (dev y) !!! Z.to_nat index)) as Hst.
  pose proof (eh_process_completed_descriptor_ret (dev y) (u16 index)
                (completions (dev y) !!! Z.to_nat index)) as Hret.
  pose proof (eh_process_completed_descriptor_delivered (dev y) (u16 index)
                (completions (dev y) !!! Z.to_nat index)) as [Hdel Hlen].
  rewrite E in Hst, Hret, Hdel, Hlen. simpl in Hst, Hret, Hdel, Hlen.
  rewrite Hslot16 in Hst, Hret. rewrite Hslot in Hdel.
  subst s2. rewrite Hslot. subst s1. unfold fifo_idle_at. simpl.
  rewrite inv_cmask0, land_u32_mask, inv_c0, Zplus_mod_idemp_l by lia.
  assert (Hlt : (slot (dev y) C < length (fifo (dev y)))%nat).
  { rewrite inv_len_fifo0, <- inv_size0. apply slot_lt. lia. }
  assert (Htok : submitted y =
                 (delivered (trace y) ++ [priv (completions (dev y) !!! slot (dev y) C)]) ++
                 ring_tokens (dev y) (C + 1) (W - C - 1)).
  { rewrite inv_tokens0 by done. rewrite <- app_assoc. f_equal.
    by rewrite (ring_tokens_cons (dev y) C) by lia. }
  split; [|split; [done|split; [done|split; [done|split; [done|split]]]]].
  - constructor; simpl; try done.
    + by rewrite length_insert.
    + by rewrite length_insert.
    + lia.
    + lia.
    + intros j Hj. rewrite (slot_same_size _ (dev y)) by done.
      destruct (Z.eq_dec j (C + 2 ^ k)) as [->|Hjne].
      * replace (slot (dev y) (C + 2 ^ k)) with (slot (dev y) C).
        { by rewrite list_lookup_total_insert_eq. }
        unfold slot. rewrite inv_size0. f_equal.
        replace (C + 2 ^ k) with (C + 1 * 2 ^ k) by lia.
        by rewrite Z.mod_add by lia.
      * rewrite list_lookup_total_insert_ne; [apply inv_idle0; lia|].
        apply slot_ne. lia.
    + intros j Hj. rewrite (slot_same_size _ (dev y)) by done.
      rewrite list_lookup_total_insert_ne; [apply inv_halt0; lia|].
      apply slot_ne. lia.
    + intros Hsu. specialize (inv_susp0 Hsu). lia.
    + intros _. rewrite delivered_app, Hdel, Htok. f_equal.
      replace (W - (C + 1)) with (W - C - 1) by lia.
      symmetry. apply ring_tokens_ext; [done|].
      intros j Hj. simpl. rewrite list_lookup_total_insert_ne; [done|].
      apply slot_ne. lia.
    + rewrite delivered_app, Hdel, Htok. by apply sublist_inserts_r.
  - intros m Hm. apply ring_tokens_ext; [done|].
    intros j Hj. simpl. rewrite list_lookup_total_insert_ne; [done|].
    apply slot_ne. lia.
  - intros Hr. destruct (decide (status (fifo (dev y) !!! slot (dev y) C) = EH_CDESC_ERROR_HALTED))
      as [Hh|]; [|done].
    destruct (inv_halt0 C ltac:(lia) Hh) as [? Hhalt]. split; [lia|done].
Qed.

Lemma eh_process_completions_loop_step fuel s i end_ :
  i <> end_ ->
  eh_process_completions_loop (S fuel) s i end_ =
  let index := Z.land i (fifo_index_mask s) in
  let r := eh_process_completed_descriptor s (u16 index)
             (completions s !!! Z.to_nat index) in
  let s2 := set_complete_index
              (Z.land (u32 (complete_index r.1.2 + 1)) (fifo_color_mask r.1.2))
              (set_completions
                 (<[Z.to_nat index := mk_cmpl NULL]> (completions r.1.2)) r.1.2) in
  if negb (r.1.1 =? 0) then Some (r.1.1, s2, r.2)
  else
    match eh_process_completions_loop fuel s2
            (Z.land (u32 (i + 1)) (fifo_color_mask s2)) end_ with
    | Some (ret', s', ev') => Some (ret', s', r.2 ++ ev')
    | None => None
    end.
Proof.
  intros Hne. simpl. destruct (Z.eqb_spec i end_); [done|].
  by destruct (eh_process_completed_descriptor _ _ _) as [[ret s1] ev1].
Qed.

(** The loop of [eh_process_completions] drains the requests [C], ...,
    [H - 1] in this order. *)
Lemma process_completions_inv k n : forall fuel y C H W,
  ring_inv k y C H W ->
  comp_thread (dev y) <> THREAD_EXITED ->
  H - C = Z.of_nat n ->
  (n <= fuel)%nat ->
  exists ret s' ev,
    eh_process_completions_loop fuel (dev y)
      (C mod 2 ^ (k + 1)) (H mod 2 ^ (k + 1)) = Some (ret, s', ev) /\
    ring_inv k (mk_system s' (trace y ++ ev) (submitted y)) H H W /\
    (comp_thread s' = comp_thread (dev y) /\ suspended s' = suspended (dev y)) /\
    delivered ev = ring_tokens (dev y) C (H - C) /\
    length (callbacks ev) = n /\
    (ret <> 0 -> fifo_halted (regs s') = true).
Proof.
  induction n as [|n IH]; intros fuel y C H W Hinv Hth Hn Hfuel.
  - assert (H = C) as -> by lia.
    exists 0, (dev y), []. rewrite eh_process_completions_loop_done.
    split; [done|]. split.
    { apply (ring_inv_same_dev k y); simpl; rewrite ?app_nil_r; done. }
    rewrite ring_tokens_nil by lia. done.
  - destruct fuel as [|fuel]; [lia|].
    pose proof Hinv as []. size_facts k.
    rewrite eh_process_completions_loop_step by (apply mod_ne_close; lia).
    cbv zeta.
    destruct (eh_process_completed_descriptor (dev y) _ _) as [[ret s1] ev1] eqn:E.
    destruct (reap_slot_inv k y C H W ret s1 ev1 Hinv ltac:(lia) Hth E)
      as (Hinv2 & Hdel & Hlen & [Hth2 Hsu2] & Hmask & Htok & Hret).
    cbv zeta. simpl fst. simpl snd.
    set (s2 := set_complete_index _ _) in *.
    destruct (Z.eqb_spec ret 0) as [->|Hr]; simpl negb; cbv iota.
    + rewrite Hmask, inv_cmask0, land_u32_mask, Zplus_mod_idemp_l by lia.
      destruct (IH fuel (mk_system s2 (trace y ++ ev1) (submitted y)) (C + 1) H W)
        as (ret' & s' & ev' & Hloop & Hinv' & [Hth' Hsu'] & Hdel' & Hlen' & Hret');
        [done|simpl dev; by rewrite Hth2|lia|lia|].
      simpl in Hloop. rewrite Hloop.
      exists ret', s', (ev1 ++ ev'). split; [done|].
      simpl in Hinv'. rewrite <- app_assoc in Hinv'.
      split; [done|].
      split; [simpl dev in Hth', Hsu'; by rewrite Hth', Hth2, Hsu', Hsu2|].
      split; [|split; [|done]].
      * rewrite delivered_app, Hdel, Hdel'. simpl.
        rewrite (ring_tokens_cons (dev y) C) by lia. f_equal.
        replace (H - (C + 1)) with (H - C - 1) by lia. apply Htok. lia.
      * rewrite callbacks_app, length_app, Hlen, Hlen'. done.
    + destruct (Hret Hr) as [HH Hhalt]. subst H.
      exists ret, s2, ev1. split; [done|].
      split; [done|]. split; [done|].
      split; [|split; [|done]].
      * rewrite Hdel. rewrite (ring_tokens_cons (dev y) C) by lia.
        by rewrite ring_tokens_nil by lia.
      * rewrite Hlen. lia.
Qed.

Lemma ring_inv_set_comp_thread k s tr sub C H W t :
  ring_inv k (mk_system s tr sub) C H W ->
  (t <> THREAD_EXITED -> comp_thread s <> THREAD_EXITED) ->
  ring_inv k (mk_system (set_comp_thread t s) tr sub) C H W.
Proof.
  intros [] Hex. simpl in *.
  constructor; simpl; try done.
  intros Hne. auto.
Qed.

(** What the reaper does when it wakes up: every request the engine
    reported complete is delivered, oldest first. *)
Lemma comp_thread_reap_inv k y C H W :
  ring_inv k y C H W ->
  comp_thread (dev y) = THREAD_RUNNING ->
  exists s' ev,
    eh_comp_thread_reap (fifo_fuel (dev y)) (dev y) = Some (s', ev) /\
    ring_inv k (mk_system s' (trace y ++ ev) (submitted y)) H H W /\
    delivered ev = ring_tokens (dev y) C (H - C) /\
    length (callbacks ev) = Z.to_nat (H - C) /\
    (comp_thread s' = THREAD_RUNNING \/
     comp_thread s' = THREAD_ERROR_SEEN /\ fifo_halted (regs s') = true).
Proof.
  intros Hinv Hth. pose proof Hinv as []. size_facts k.
  unfold eh_comp_thread_reap, eh_update_complete_index, eh_process_completions.
  rewrite inv_hw0, inv_c0.
  destruct (Z.eqb_spec (H mod 2 ^ (k + 1)) (C mod 2 ^ (k + 1))) as [He|Hne].
  - assert (C = H) as <- by (apply (mod_eq_close _ _ (2 ^ (k + 1))); [done|lia]).
    exists (dev y), []. simpl. split; [done|]. split.
    { apply (ring_inv_same_dev k y); simpl; rewrite ?app_nil_r; done. }
    rewrite ring_tokens_nil by lia. rewrite Z.sub_diag. auto.
  - assert (HCH : C < H).
    { destruct (Z.eq_dec C H) as [->|]; [done|lia]. }
    destruct (process_completions_inv k (Z.to_nat (H - C)) (fifo_fuel (dev y))
                y C H W Hinv) as (ret & s' & ev & Hloop & Hinv' & [Hth' Hsu'] & Hdel & Hlen & Hret).
    { by rewrite Hth. }
    { lia. }
    { unfold fifo_fuel. rewrite inv_cmask0. lia. }
    rewrite Hloop.
    destruct (Z.eqb_spec ret 0) as [->|Hr].
    + exists s', ev. rewrite Hth', Hth. simpl. auto 10.
    + exists (set_comp_thread THREAD_ERROR_SEEN s'), ev.
      split; [done|]. split; [|simpl; auto 10].
      apply ring_inv_set_comp_thread; [done|].
      intros _. by rewrite Hth', Hth.
Qed.

Lemma step_reap_inv k y C H W y' :
  ring_inv k y C H W ->
  step OpReap y = Some y' ->
  ring_inv k y' H H W.
Proof.
  intros Hinv Hstep. unfold step in Hstep.
  destruct (bool_decide_reflect (comp_thread (dev y) = THREAD_RUNNING)) as [Hth|];
    [|done].
  simpl in Hstep. destruct (0 <? nr_request (dev y)); [|done].
  destruct (comp_thread_reap_inv k y C H W Hinv Hth) as (s' & ev & Hr & Hinv' & _).
  rewrite Hr in Hstep. by injection Hstep as <-.
Qed.

(** The loop of [eh_abort_incomplete_descriptors] over the [n] requests
    from [j] on, fewer than the ring has slots. *)
Lemma eh_abort_loop_spec k n : forall fuel s j,
  0 <= k ->
  fifo_size s = 2 ^ k ->
  fifo_index_mask s = 2 ^ k - 1 ->
  Z.of_nat n < 2 ^ k ->
  (n <= fuel)%nat ->
  exists cs,
    eh_abort_loop fuel s (j mod 2 ^ k) ((j + Z.of_nat n) mod 2 ^ k) =
    Some (set_completions cs s,
          map (fun p => EvCallback EH_CDESC_ERROR_HALTED NULL 0 p)
            (ring_tokens s j (Z.of_nat n))) /\
    length cs = length (completions s).
Proof.
  induction n as [|n IH]; intros fuel s j Hk Hsz Hmask Hn Hfuel.
  - exists (completions s). rewrite Z.add_0_r. split; [|done].
    destruct s. destruct fuel; simpl; by rewrite Z.eqb_refl.
  - destruct fuel as [|fuel]; [lia|].
    pose proof (pow2_pos k Hk).
    simpl eh_abort_loop.
    destruct (Z.eqb_spec (j mod 2 ^ k) ((j + Z.of_nat (S n)) mod 2 ^ k)) as [He|_].
    { exfalso. revert He. apply mod_ne_close. lia. }
    set (s1 := set_completions _ s).
    destruct (IH fuel s1 (j + 1)) as (cs & Hloop & Hlen); [done|done|done|lia|lia|].
    change (fifo_index_mask s1) with (fifo_index_mask s).
    rewrite Hmask, land_mask_mod, Zplus_mod_idemp_l by done.
    replace (j + Z.of_nat (S n)) with (j + 1 + Z.of_nat n) by lia.
    rewrite Hloop. exists cs. split.
    + f_equal. f_equal.
      rewrite (ring_tokens_cons s j) by lia. simpl.
      assert (Hslot : Z.to_nat (j mod 2 ^ k) = slot s j).
      { unfold slot. by rewrite Hsz. }
      rewrite Hslot. do 2 f_equal.
      replace (Z.of_nat (S n) - 1) with (Z.of_nat n) by lia.
      apply ring_tokens_ext; [done|].
      intros i Hi. subst s1. simpl. rewrite Hslot.
      rewrite list_lookup_total_insert_ne; [done|].
      apply slot_ne. lia.
    + rewrite Hlen. subst s1. simpl. by rewrite length_insert.
Qed.

Lemma delivered_halted_callbacks l :
  delivered (map (fun p => EvCallback EH_CDESC_ERROR_HALTED NULL 0 p) l) = l.
Proof. induction l as [|p l IH]; simpl; by rewrite ?IH. Qed.

Lemma eh_abort_loop_done fuel s i : eh_abort_loop fuel s i i = Some (s, []).
Proof. destruct fuel; simpl; by rewrite Z.eqb_refl. Qed.

(** [eh_abort_incomplete_descriptors] on a ring that satisfies the
    invariant: the requests from the index reported by the engine up to
    the write index get a synthesized completion, unless the ring is
    full from that index on, in which case the two masked indices
    coincide and nothing is delivered. *)
Lemma eh_abort_incomplete_descriptors_spec k y C H W :
  ring_inv k y C H W ->
  exists cs ev,
    eh_abort_incomplete_descriptors (fifo_fuel (dev y)) (dev y) =
    Some (set_completions cs (dev y), ev) /\
    length cs = length (completions (dev y)) /\
    ((W - H < 2 ^ k /\
      ev = map (fun p => EvCallback EH_CDESC_ERROR_HALTED NULL 0 p)
             (ring_tokens (dev y) H (W - H))) \/
     (W - H = 2 ^ k /\ ev = [] /\ cs = completions (dev y))).
Proof.
  intros Hinv. pose proof Hinv as []. size_facts k.
  unfold eh_abort_incomplete_descriptors.
  rewrite inv_w0, inv_hw0, inv_imask0, !land_mask_mod, !mod_mod_pow2 by lia.
  pose proof (Z.mod_pos_bound W (2 ^ k) ltac:(lia)).
  pose proof (Z.mod_pos_bound H (2 ^ k) ltac:(lia)).
  rewrite !u16_small by lia.
  destruct (Z.eq_dec (W - H) (2 ^ k)) as [Hfull|Hroom].
  - assert (W mod 2 ^ k = H mod 2 ^ k) as ->.
    { replace W with (H + 1 * 2 ^ k) by lia. apply Z.mod_add. lia. }
    rewrite eh_abort_loop_done.
    exists (completions (dev y)), []. split; [by destruct (dev y)|].
    split; [done|]. right. done.
  - destruct (eh_abort_loop_spec k (Z.to_nat (W - H)) (fifo_fuel (dev y)) (dev y) H)
      as (cs & Hloop & Hlen); [lia|done|done|lia| |].
    { unfold fifo_fuel. rewrite inv_cmask0. lia. }
    rewrite Z2Nat.id in Hloop by lia.
    replace (H + (W - H)) with W in Hloop by lia.
    rewrite Hloop. eexists cs, _. split; [done|]. split; [done|].
    left. split; [lia|done].
Qed.

Lemma step_error_check_inv k y C H W y' :
  ring_inv k y C H W ->
  step OpErrorCheck y = Some y' ->
  ring_inv k y' C H W.
Proof.
  intros Hinv Hstep. pose proof Hinv as [].
  unfold step in Hstep.
  destruct (bool_decide_reflect (comp_thread (dev y) = THREAD_ERROR_SEEN)) as [Hth|];
    [|done].
  size_facts k.
  unfold eh_comp_thread_error in Hstep.
  destruct (err_cond (regs (dev y)) =? 0); simpl in Hstep.
  - injection Hstep as <-.
    apply ring_inv_set_comp_thread; [|by rewrite Hth].
    apply (ring_inv_same_dev k y); simpl; [done|done| |done].
    by rewrite delivered_app, app_nil_r.
  - destruct (eh_abort_incomplete_descriptors_spec k y C H W Hinv)
      as (cs & ev & Hab & Hlen & Hev).
    rewrite Hab in Hstep. injection Hstep as <-.
    constructor; simpl; try done.
    + congruence.
    + rewrite delivered_app. simpl.
      rewrite inv_tokens0 by (by rewrite Hth).
      apply sublist_app; [done|].
      destruct Hev as [[_ ->]|(_ & -> & _)]; [|apply sublist_nil_l].
      rewrite delivered_halted_callbacks.
      rewrite (ring_tokens_split (dev y) C (H - C) (W - C)) by lia.
      replace (C + (H - C)) with H by lia.
      replace (W - C - (H - C)) with (W - H) by lia.
      by apply sublist_inserts_l.
Qed.

(** Every step keeps the invariant. *)
Lemma step_ring_ok k o y y' :
  ring_ok k y -> step o y = Some y' -> ring_ok k y'.
Proof.
  intros (C & H & W & Hinv) Hstep. destruct o.
  - destruct (step_compress_inv _ _ _ _ _ _ _ _ Hinv Hstep) as [W' ?].
    by exists C, H, W'.
  - exists C, (H + 1), W. by eapply step_hw_complete_inv.
  - exists H, H, W. by eapply step_reap_inv.
  - exists C, H, W. by eapply step_error_check_inv.
  - exists C, H, W. by eapply step_decompress_inv.
  - exists C, H, W. by eapply step_suspend_inv.
  - exists 0, 0, 0. by eapply step_resume_inv.
Qed.

Lemma run_ring_ok k ops : forall y y',
  ring_ok k y -> run ops y = Some y' -> ring_ok k y'.
Proof.
  induction ops as [|o ops IH]; intros y y' Hok Hrun; simpl in Hrun.
  - by injection Hrun as <-.
  - destruct (step o y) as [y1|] eqn:Hstep; [|done].
    eapply IH; [|done]. by eapply step_ring_ok.
Qed.

Lemma initial_ring_ok k n cbufs dbufs :
  1 <= k <= 15 ->
  ring_ok k (initial_system (2 ^ k) n cbufs dbufs).
Proof.
  intros Hk. size_facts k. exists 0, 0, 0.
  constructor; simpl; try done.
  - rewrite Z.shiftl_mul_pow2 by lia. change (2 ^ 1) with 2. lia.
  - by rewrite length_replicate.
  - by rewrite length_replicate.
  - lia.
  - intros j Hj. rewrite lookup_total_replicate_2; [done|].
    unfold slot. simpl. pose proof (Z.mod_pos_bound j (2 ^ k) ltac:(lia)). lia.
  - lia.
Qed.

(** Every state reached from a device initialised with a FIFO of [2 ^ k]
    descriptors satisfies the invariant. *)
Lemma reachable_ring_ok k n cbufs dbufs ops y :
  1 <= k <= 15 ->
  run ops (initial_system (2 ^ k) n cbufs dbufs) = Some y ->
  ring_ok k y.
Proof.
  intros Hk Hrun. eapply run_ring_ok; [|done]. by apply initial_ring_ok.
Qed.

(** * The ring never overflows *)

Lemma ring_inv_pending k y C H W :
  ring_inv k y C H W -> pending (dev y) = W - C /\ reported (dev y) = H - C.
Proof.
  intros []. size_facts k. unfold pending, reported.
  rewrite inv_w0, inv_c0, inv_hw0, inv_size0.
  replace (2 * 2 ^ k) with (2 ^ (k + 1)) by lia.
  rewrite !Zminus_mod_idemp_l, !Zminus_mod_idemp_r.
  rewrite !Z.mod_small by lia. done.
Qed.

Lemma in_flight_ring_tokens k s from J n :
  1 <= k ->
  fifo_size s = 2 ^ k ->
  fifo_index_mask s = 2 ^ k - 1 ->
  from mod 2 ^ (k + 1) = J mod 2 ^ (k + 1) ->
  in_flight_tokens s from n = ring_tokens s J n.
Proof.
  intros Hk Hsize Hmask Hfrom. unfold in_flight_tokens, ring_tokens.
  pose proof (pow2_pos k ltac:(lia)).
  rewrite <- (Z.add_0_r J) at 1. rewrite <- fmap_add_seqZ.
  change (Z.add J <$> seqZ 0 n) with (map (Z.add J) (seqZ 0 n)).
  rewrite map_map. apply map_ext. intros i.
  unfold ring_slot, slot. rewrite Hmask, Hsize, land_mask_mod by lia.
  do 3 f_equal.
  rewrite <- (mod_mod_pow2 (from + i) k (k + 1)) by lia.
  rewrite <- Zplus_mod_idemp_l, Hfrom, Zplus_mod_idemp_l.
  apply mod_mod_pow2. lia.
Qed.


Lemma mod_eq_near x y m : x mod m = y mod m -> - m < y - x < m -> x = y.
Proof.
  intros He Hr. destruct (Z_le_gt_dec x y).
  - apply (mod_eq_close x y m); [done|lia].
  - symmetry. apply (mod_eq_close y x m); [done|lia].
Qed.

Lemma eh_compress_page_try_accept s page priv s' :
  (eh_compress_page_try s page priv).1 = TryDone 0 s' ->
  let new_write_index := Z.land (u32 (write_index s + 1)) (fifo_color_mask s) in
  let masked_w_index := Z.land (write_index s) (fifo_index_mask s) in
  suspended s = false /\
  write_index s' = new_write_index /\
  fifo s' = <[Z.to_nat masked_w_index :=
               mk_desc (page_to_phys page) EH_CDESC_PENDING
                 (compr_len (fifo s !!! Z.to_nat masked_w_index))
                 (buf_sel (fifo s !!! Z.to_nat masked_w_index))]> (fifo s).
Proof.
  unfold eh_compress_page_try. destruct (suspended s); [simpl; discriminate|].
  destruct (fifo_size s <? _); simpl; [discriminate|].
  intros [= <-]. done.
Qed.

(** C1. In every state reached by the driver and the engine from an
    initialised device whose FIFO has [2 ^ k] descriptors, [k >= 1], the
    number [(write_index - complete_index) mod 2N] lies between 0 and
    [N] and equals the number of outstanding requests.  When it equals
    [N] a pass of [eh_compress_page] takes the congestion wait and
    changes nothing; when a pass accepts a request, the descriptor it
    rewrites was idle, hence not pending, and the count grows by one. *)
Theorem ring_pending_bounded k n cbufs dbufs ops y :
  1 <= k <= 15 ->
  run ops (initial_system (2 ^ k) n cbufs dbufs) = Some y ->
  let s := dev y in
  0 <= pending s <= fifo_size s /\
  pending s = nr_request s /\
  (pending s = fifo_size s ->
   forall page priv, (eh_compress_page_try s page priv).1 = TryAgain) /\
  (forall page priv s',
     (eh_compress_page_try s page priv).1 = TryDone 0 s' ->
     status (fifo s !!! ring_slot s (write_index s)) = EH_CDESC_IDLE /\
     status (fifo s' !!! ring_slot s (write_index s)) = EH_CDESC_PENDING /\
     pending s < fifo_size s /\
     pending s' = pending s + 1).
Proof.
  intros Hk Hrun s. subst s.
  destruct (reachable_ring_ok _ _ _ _ _ _ Hk Hrun) as (C & H & W & Hinv).
  destruct (ring_inv_pending _ _ _ _ _ Hinv) as [Hp _].
  pose proof Hinv as [].
  size_facts k.
  assert (Htry : forall page priv,
            suspended (dev y) = false ->
            eh_compress_page_try (dev y) page priv =
            if 2 ^ k <? W + 1 - C
            then (TryAgain, [EvLock fifo_prod_lock; EvUnlock fifo_prod_lock])
            else eh_compress_page_try (dev y) page priv).
  { intros page priv Hs. destruct (Z.ltb_spec (2 ^ k) (W + 1 - C)); [|done].
    unfold eh_compress_page_try. rewrite Hs.
    rewrite inv_cmask0, !land_u32_mask by lia.
    rewrite inv_w0, inv_c0, inv_size0.
    rewrite Zplus_mod_idemp_l, Zminus_mod_idemp_l, Zminus_mod_idemp_r.
    rewrite (Z.mod_small (W + 1 - C)) by lia.
    destruct (Z.ltb_spec (2 ^ k) (W + 1 - C)); [done|lia]. }
  split; [lia|]. split; [lia|]. split.
  - intros Hfull page priv.
    assert (Hs : suspended (dev y) = false).
    { destruct (suspended (dev y)); [|done]. specialize (inv_susp0 eq_refl). lia. }
    rewrite Htry by done.
    destruct (Z.ltb_spec (2 ^ k) (W + 1 - C)); [done|lia].
  - intros page priv s' Htd.
    assert (Hs : suspended (dev y) = false).
    { destruct (suspended (dev y)) eqn:E; [|done].
      unfold eh_compress_page_try in Htd. rewrite E in Htd. simpl in Htd.
      discriminate. }
    assert (Hroom : W + 1 - C <= 2 ^ k).
    { destruct (Z.ltb_spec (2 ^ k) (W + 1 - C)) as [Hf|]; [|done].
      rewrite Htry in Htd by done.
      destruct (Z.ltb_spec (2 ^ k) (W + 1 - C)); [done|lia]. }
    assert (Hslot : ring_slot (dev y) (write_index (dev y)) = slot (dev y) W).
    { unfold ring_slot, slot.
      rewrite inv_imask0, land_mask_mod, inv_w0, mod_mod_pow2, inv_size0 by lia.
      done. }
    rewrite Hslot.
    assert (Hstep : step (OpCompress page priv) y =
                    Some (mk_system s' (trace y ++ (eh_compress_page_try (dev y) page priv).2)
                            (submitted y ++ [priv]))).
    { unfold step.
      destruct (eh_compress_page_try (dev y) page priv) as [r ev]. simpl in Htd.
      by subst r. }
    destruct (step_compress_inv _ _ _ _ _ _ _ _ Hinv Hstep) as [W' Hinv'].
    destruct (ring_inv_pending _ _ _ _ _ Hinv') as [Hp' _]. simpl in Hp'.
    assert (Hs' : write_index s' = (W + 1) mod 2 ^ (k + 1) /\
                  status (fifo s' !!! slot (dev y) W) = EH_CDESC_PENDING).
    { destruct (eh_compress_page_try_accept _ _ _ _ Htd) as (_ & -> & ->).
      rewrite inv_cmask0, land_u32_mask, inv_w0, Zplus_mod_idemp_l by lia.
      split; [done|].
      rewrite inv_imask0, land_mask_mod, mod_mod_pow2 by lia.
      replace (Z.to_nat (W mod 2 ^ k)) with (slot (dev y) W)
        by (unfold slot; by rewrite inv_size0).
      rewrite list_lookup_total_insert_eq; [done|].
      rewrite inv_len_fifo0, <- inv_size0. apply slot_lt. lia. }
    destruct Hs' as [Hw' Hst'].
    assert (W' = W + 1).
    { destruct Hinv'. simpl in *. rewrite Hw' in inv_w1.
      apply (mod_eq_near _ _ (2 ^ (k + 1))) in inv_w1; lia. }
    subst W'. split; [apply inv_idle0; lia|]. split; [done|]. lia.
Qed.

(** * Completions are delivered in submission order *)


(** * The busy flags of the command sets *)

Lemma eh_process_completions_loop_busy fuel : forall s i end_ ret s' ev,
  eh_process_completions_loop fuel s i end_ = Some (ret, s', ev) ->
  decompr_busy s' = decompr_busy s /\
  decompr_cmd_count s' = decompr_cmd_count s.
Proof.
  induction fuel as [|fuel IH]; intros s i end_ ret s' ev; simpl.
  - destruct (i =? end_); [|done]. by intros [= _ <- _].
  - destruct (i =? end_); [by intros [= _ <- _]|].
    pose proof (eh_process_completed_descriptor_state s
                  (u16 (Z.land i (fifo_index_mask s)))
                  (completions s !!! Z.to_nat (Z.land i (fifo_index_mask s)))) as Hst.
    destruct (eh_process_completed_descriptor _ _ _) as [[r s1] ev1].
    simpl in Hst. subst s1.
    destruct (negb (r =? 0)).
    + by intros [= _ <- _].
    + destruct (eh_process_completions_loop _ _ _ _) as [[[r' s''] ev']|] eqn:E;
        [|done].
      intros [= _ <- _]. by apply IH in E.
Qed.

Lemma eh_abort_loop_busy fuel : forall s i m s' ev,
  eh_abort_loop fuel s i m = Some (s', ev) ->
  decompr_busy s' = decompr_busy s /\
  decompr_cmd_count s' = decompr_cmd_count s.
Proof.
  induction fuel as [|fuel IH]; intros s i m s' ev; simpl.
  - destruct (i =? m); [|done]. by intros [= <- _].
  - destruct (i =? m); [by intros [= <- _]|].
    destruct (eh_abort_loop _ _ _ _) as [[s'' ev']|] eqn:E; [|done].
    intros [= <- _]. by apply IH in E.
Qed.

(** No step writes [decompr_busy] or [decompr_cmd_count]. *)
Lemma step_decompr_busy o y y' :
  step o y = Some y' ->
  decompr_busy (dev y') = decompr_busy (dev y) /\
  decompr_cmd_count (dev y') = decompr_cmd_count (dev y).
Proof.
  destruct o; simpl.
  - unfold eh_compress_page_try. destruct (suspended (dev y)).
    { by intros [= <-]. }
    destruct (_ <? _); by intros [= <-].
  - unfold hw_complete. destruct (_ || _); [done|]. by intros [= <-].
  - destruct (_ && _); [|done].
    unfold eh_comp_thread_reap, eh_update_complete_index, eh_process_completions.
    destruct (_ =? _).
    { by intros [= <-]. }
    destruct (eh_process_completions_loop _ _ _ _) as [[[r s'] ev]|] eqn:E; [|done].
    apply eh_process_completions_loop_busy in E.
    intros [= <-]. simpl. by destruct (r =? 0).
  - destruct (bool_decide _); [|done].
    unfold eh_comp_thread_error, eh_abort_incomplete_descriptors.
    destruct (negb _).
    + destruct (eh_abort_loop _ _ _ _) as [[s' ev]|] eqn:E; [|done].
      apply eh_abort_loop_busy in E. by intros [= <-].
    + by intros [= <-].
  - destruct (eh_decompress_page _ _ _ _ _ _ _ _) as [[r ev]|]; [|done].
    by intros [= <-].
  - unfold eh_suspend. destruct (0 <? _); [by intros [= <-]|].
    destruct (existsb _ _); by intros [= <-].
  - destruct (suspended (dev y)); [|done]. by intros [= <-].
Qed.

(** C10. [decompr_busy] is written by no step of the driver or of the
    engine: in every state reached from an initialised device it is all
    false, as [kzalloc] left it.  Consequently [eh_decompress_page]
    returns [-EBUSY] only for a suspended device, never through its
    busy branch, and [eh_suspend] refuses exactly when compression
    requests are outstanding. *)
Theorem decompr_busy_never_set fifo_size n cbufs dbufs ops y :
  0 < n ->
  run ops (initial_system fifo_size n cbufs dbufs) = Some y ->
  decompr_busy (dev y) = replicate (Z.to_nat n) false /\
  (forall i, 0 <= i < decompr_cmd_count (dev y) ->
     decompr_busy (dev y) !!! Z.to_nat i = false) /\
  (forall fuel cpu now obs compr_data compr_size page ret ev,
     0 <= cpu ->
     eh_decompress_page fuel (dev y) cpu now obs compr_data compr_size page
     = Some (ret, ev) ->
     ret = - EBUSY ->
     suspended (dev y) = true /\ In EvWarn ev) /\
  ((eh_suspend (dev y)).1.1 = - EBUSY <-> 0 < nr_request (dev y)).
Proof.
  intros Hn Hrun.
  assert (Hb : decompr_busy (dev y) = replicate (Z.to_nat n) false /\
               decompr_cmd_count (dev y) = n).
  { assert (Hgen : forall y0, run ops y0 = Some y ->
                     decompr_busy (dev y) = decompr_busy (dev y0) /\
                     decompr_cmd_count (dev y) = decompr_cmd_count (dev y0)).
    { clear Hrun. induction ops as [|o ops IH]; intros y0; simpl.
      - by intros [= <-].
      - destruct (step o y0) as [y1|] eqn:E; [|done].
        intros Hr. destruct (IH y1 Hr) as [-> ->]. by eapply step_decompr_busy. }
    by destruct (Hgen _ Hrun) as [-> ->]. }
  destruct Hb as [Hb Hc].
  assert (Hall : forall i, 0 <= i < decompr_cmd_count (dev y) ->
                   decompr_busy (dev y) !!! Z.to_nat i = false).
  { intros i Hi. rewrite Hb. apply lookup_total_replicate_2. lia. }
  split; [done|]. split; [done|]. split.
  - intros fuel cpu now obs compr_data compr_size page ret ev Hcpu.
    unfold eh_decompress_page. destruct (suspended (dev y)).
    { intros [= <- <-] _. split; [done|]. simpl. auto. }
    rewrite Hall by (apply Z.mod_pos_bound; lia).
    destruct (eh_poll _ _ _ _) as [[|st]|]; [| |done].
    + by intros [= <- _].
    + destruct (decide _); by intros [= <- _].
  - unfold eh_suspend.
    destruct (Z.ltb_spec 0 (nr_request (dev y))); [done|].
    assert (He : existsb (fun i => (decompr_busy (dev y) !!! Z.to_nat i : bool))
                   (seqZ 0 (decompr_cmd_count (dev y))) = false).
    { apply not_true_is_false. rewrite existsb_exists.
      intros (i & Hin & Hi).
      apply list_elem_of_In, elem_of_seqZ in Hin. rewrite Hall in Hi by lia. done. }
    rewrite He. simpl. split; [done|lia].
Qed.

(** * Halt recovery *)

(** The completions synthesized by [eh_abort_incomplete_descriptors]:
    one for every request between the index the engine reported and the
    write index, when these are fewer than the ring has slots. *)
Lemma halt_recovery_delivers k n cbufs dbufs ops y :
  1 <= k <= 15 ->
  run ops (initial_system (2 ^ k) n cbufs dbufs) = Some y ->
  comp_thread (dev y) = THREAD_ERROR_SEEN ->
  err_cond (regs (dev y)) <> 0 ->
  exists s' ev,
    eh_comp_thread_error (fifo_fuel (dev y)) (dev y) = Some (s', EvDumpRegs :: ev) /\
    comp_thread s' = THREAD_EXITED /\
    (pending (dev y) - reported (dev y) < fifo_size (dev y) ->
     ev = map (fun p => EvCallback EH_CDESC_ERROR_HALTED NULL 0 p)
            (in_flight_tokens (dev y) (cdesc_complete_idx (regs (dev y)))
               (pending (dev y) - reported (dev y))) /\
     (reported (dev y) = 0 ->
      submitted y = delivered (trace y) ++ delivered ev)) /\
    (pending (dev y) - reported (dev y) = fifo_size (dev y) -> ev = []).
Proof.
  intros Hk Hrun Hth Herr.
  destruct (reachable_ring_ok _ _ _ _ _ _ Hk Hrun) as (C & H & W & Hinv).
  destruct (ring_inv_pending _ _ _ _ _ Hinv) as [Hp Hr].
  pose proof Hinv as []. size_facts k.
  unfold eh_comp_thread_error.
  destruct (Z.eqb_spec (err_cond (regs (dev y))) 0) as [|_]; [done|]. simpl.
  destruct (eh_abort_incomplete_descriptors_spec k y C H W Hinv)
    as (cs & ev & Hab & _ & Hev).
  rewrite Hab. exists (set_comp_thread THREAD_EXITED (set_completions cs (dev y))), ev.
  split; [done|]. split; [done|].
  rewrite Hp, Hr, inv_size0.
  replace (W - C - (H - C)) with (W - H) by lia.
  destruct Hev as [[Hlt ->]|(Heq & -> & _)].
  - split; [|lia]. intros _.
    rewrite (in_flight_ring_tokens k _ _ H)
      by (try done; try lia; rewrite inv_hw0; apply Z.mod_mod; lia).
    split; [done|]. intros HCH. assert (H = C) as -> by lia.
    rewrite delivered_halted_callbacks.
    apply inv_tokens0. by rewrite Hth.
  - split; [lia|done].
Qed.

Lemma delivered_nil_callbacks tr : delivered tr = [] -> callbacks tr = [].
Proof.
  induction tr as [|e tr IH]; [done|].
  destruct e; simpl; auto; discriminate.
Qed.

(** Once the completion thread has left, no step brings it back and no
    step invokes the callback. *)
Lemma exited_thread_stays o y y' :
  comp_thread (dev y) = THREAD_EXITED ->
  step o y = Some y' ->
  comp_thread (dev y') = THREAD_EXITED /\
  callbacks (trace y') = callbacks (trace y).
Proof.
  intros Hth Hstep.
  destruct o; simpl in Hstep.
  - unfold eh_compress_page_try in Hstep.
    destruct (suspended (dev y)).
    { injection Hstep as <-. simpl. by rewrite callbacks_app, app_nil_r. }
    destruct (_ <? _); injection Hstep as <-; simpl;
      by rewrite callbacks_app, app_nil_r.
  - unfold hw_complete in Hstep. destruct (_ || _); [done|].
    by injection Hstep as <-.
  - rewrite Hth in Hstep. done.
  - rewrite Hth in Hstep. done.
  - destruct (eh_decompress_page _ _ _ _ _ _ _ _) as [[r ev]|] eqn:E; [|done].
    injection Hstep as <-. simpl. split; [done|].
    rewrite callbacks_app.
    assert (Hev : delivered ev = []).
    { unfold eh_decompress_page in E.
      destruct (suspended (dev y)); [by injection E as <- <-|].
      destruct (decompr_busy (dev y) !!! _ : bool); [by injection E as <- <-|].
      destruct (eh_poll _ _ _ _) as [[|st]|]; [| |done].
      - injection E as <- <-. simpl.
        by rewrite delivered_app, delivered_setup_dcmd.
      - destruct (decide _); injection E as <- <-; simpl;
          by rewrite delivered_app, delivered_setup_dcmd. }
    by rewrite (delivered_nil_callbacks _ Hev), app_nil_r.
  - pose proof (delivered_suspend (dev y)) as Hdel.
    destruct (eh_suspend (dev y)) as [[r s'] ev] eqn:E. simpl in Hdel.
    injection Hstep as <-. simpl.
    rewrite callbacks_app, (delivered_nil_callbacks _ Hdel), app_nil_r.
    split; [|done]. unfold eh_suspend in E.
    destruct (0 <? _); [by injection E as <- <- <-|].
    destruct (existsb _ _); by injection E as <- <- <-.
  - destruct (suspended (dev y)); [|done].
    injection Hstep as <-. simpl. by rewrite callbacks_app, app_nil_r.
Qed.

(** * Initialisation *)

Lemma fls_pos_nonneg p : 0 <= fls_pos p.
Proof. induction p; simpl; lia. Qed.

Lemma ffs_fls_pow2 p : ffs_pos p = fls_pos p -> Zpos p = 2 ^ ffs_pos p.
Proof.
  induction p as [p _|p IH|]; simpl.
  - pose proof (fls_pos_nonneg p). lia.
  - intros He. rewrite Pos2Z.inj_xO, IH by lia.
    rewrite Z.pow_add_r by (pose proof (ffs_pos_nonneg p); lia).
    change (2 ^ 1) with 2. lia.
  - done.
Qed.

(** [eh_init] accepts only powers of two up to 32k ([fifo_size] is an
    [unsigned short], hence not negative), and hands back the state the
    runs above start from. *)
Lemma eh_init_accepts fifo_size n cbufs dbufs s :
  0 <= fifo_size ->
  eh_init fifo_size n cbufs dbufs = inr s ->
  exists k, 0 <= k <= 15 /\ fifo_size = 2 ^ k /\ n <> 0 /\
            s = eh_init_state (2 ^ k) n cbufs dbufs.
Proof.
  intros Hpos. unfold eh_init, eh_fifo_size_invalid.
  destruct (Z.eqb_spec fifo_size 0) as [|Hnz]; [done|].
  destruct (Z.eqb_spec (__ffs fifo_size) (__fls fifo_size)) as [He|]; [|done].
  destruct (Z.ltb_spec EH_MAX_FIFO_SIZE fifo_size) as [|Hmax]; [done|].
  destruct (Z.eqb_spec n 0) as [|Hn]; [done|]. simpl. intros [= <-].
  destruct fifo_size as [|p|p]; [done| |lia].
  simpl in He. pose proof (ffs_pos_nonneg p) as Hf.
  pose proof (ffs_fls_pow2 p He) as Hp.
  exists (ffs_pos p). split; [|by rewrite <- Hp].
  split; [done|].
  destruct (Z_le_gt_dec (ffs_pos p) 15) as [|Hgt]; [done|exfalso].
  assert (2 ^ 16 <= 2 ^ ffs_pos p) by (apply Z.pow_le_mono_r; lia).
  unfold EH_MAX_FIFO_SIZE in Hmax. change (2 ^ 16) with 65536 in *. lia.
Qed.

(** The probe passes [eh_default_fifo_size], that is [2 ^ 8]. *)
Lemma eh_of_probe_fifo n cbufs dbufs :
  n <> 0 ->
  eh_init eh_default_fifo_size n cbufs dbufs =
  inr (eh_init_state (2 ^ 8) n cbufs dbufs).
Proof.
  intros Hn. unfold eh_init.
  destruct (Z.eqb_spec n 0); [done|]. reflexivity.
Qed.

(** * The steps of the completion thread are enabled *)

Lemma reap_enabled k n cbufs dbufs ops y :
  1 <= k <= 15 ->
  run ops (initial_system (2 ^ k) n cbufs dbufs) = Some y ->
  comp_thread (dev y) = THREAD_RUNNING ->
  0 < nr_request (dev y) ->
  exists y', step OpReap y = Some y'.
Proof.
  intros Hk Hrun Hth Hnr.
  destruct (reachable_ring_ok _ _ _ _ _ _ Hk Hrun) as (C & H & W & Hinv).
  destruct (comp_thread_reap_inv k y C H W Hinv Hth) as (s' & ev & Hr & _).
  unfold step. rewrite Hth, Hr. simpl.
  destruct (Z.ltb_spec 0 (nr_request (dev y))); [eauto|lia].
Qed.

Lemma error_check_enabled k n cbufs dbufs ops y :
  1 <= k <= 15 ->
  run ops (initial_system (2 ^ k) n cbufs dbufs) = Some y ->
  comp_thread (dev y) = THREAD_ERROR_SEEN ->
  exists y', step OpErrorCheck y = Some y'.
Proof.
  intros Hk Hrun Hth.
  destruct (reachable_ring_ok _ _ _ _ _ _ Hk Hrun) as (C & H & W & Hinv).
  destruct (eh_abort_incomplete_descriptors_spec k y C H W Hinv)
    as (cs & ev & Hab & _).
  unfold step, eh_comp_thread_error. rewrite Hth, Hab. simpl.
  destruct (negb _); eauto.
Qed.

(** * Further properties of the ring *)

Lemma same_frame_refl s : same_frame s s.
Proof. by repeat split. Qed.

Lemma same_frame_trans s1 s2 s3 :
  same_frame s1 s2 -> same_frame s2 s3 -> same_frame s1 s3.
Proof.
  unfold same_frame. intros H1 H2.
  destruct H1 as (?&?&?&?&?&?&?&?&?&?&?&?).
  destruct H2 as (?&?&?&?&?&?&?&?&?&?&?&?).
  repeat split; congruence.
Qed.

Lemma eh_process_completions_loop_frame fuel : forall s i end_ ret s' ev,
  eh_process_completions_loop fuel s i end_ = Some (ret, s', ev) ->
  same_frame s s'.
Proof.
  induction fuel as [|fuel IH]; intros s i end_ ret s' ev; simpl.
  - destruct (i =? end_); [|done]. intros [= _ <- _]. apply same_frame_refl.
  - destruct (i =? end_); [intros [= _ <- _]; apply same_frame_refl|].
    pose proof (eh_process_completed_descriptor_state s
                  (u16 (Z.land i (fifo_index_mask s)))
                  (completions s !!! Z.to_nat (Z.land i (fifo_index_mask s)))) as Hst.
    destruct (eh_process_completed_descriptor _ _ _) as [[r s1] ev1].
    simpl in Hst. subst s1.
    destruct (negb (r =? 0)).
    + intros [= _ <- _]. by repeat split.
    + destruct (eh_process_completions_loop _ _ _ _) as [[[r' s''] ev']|] eqn:E;
        [|done].
      intros [= _ <- _]. apply IH in E.
      eapply same_frame_trans; [|exact E]. by repeat split.
Qed.

Lemma eh_abort_loop_frame fuel : forall s i m s' ev,
  eh_abort_loop fuel s i m = Some (s', ev) ->
  same_frame s s' /\ fifo s' = fifo s /\ nr_request s' = nr_request s /\
  complete_index s' = complete_index s.
Proof.
  induction fuel as [|fuel IH]; intros s i m s' ev; simpl.
  - destruct (i =? m); [|done]. intros [= <- _].
    split; [apply same_frame_refl|done].
  - destruct (i =? m); [intros [= <- _]; split; [apply same_frame_refl|done]|].
    destruct (eh_abort_loop _ _ _ _) as [[s'' ev']|] eqn:E; [|done].
    intros [= <- _]. apply IH in E. destruct E as (Hf & H1 & H2 & H3).
    split; [|by rewrite H1, H2, H3].
    eapply same_frame_trans; [|exact Hf]. by repeat split.
Qed.

(** The completion thread's wake-up changes nothing outside the ring
    but its own control state. *)
Lemma eh_comp_thread_reap_frame fuel s s' ev :
  eh_comp_thread_reap fuel s = Some (s', ev) ->
  regs s' = regs s /\ suspended s' = suspended s /\
  write_index s' = write_index s /\ compr_buffers s' = compr_buffers s.
Proof.
  unfold eh_comp_thread_reap, eh_update_complete_index, eh_process_completions.
  destruct (_ =? _).
  { by intros [= <- _]. }
  destruct (eh_process_completions_loop _ _ _ _) as [[[r s1] ev1]|] eqn:E; [|done].
  apply eh_process_completions_loop_frame in E.
  destruct E as (?&?&?&?&?&?&?&?&?&?&?&?).
  intros [= <- _]. by destruct (r =? 0).
Qed.

(** A pass of [eh_compress_page] on a ring with room. *)
Lemma compress_accept_inv k y C H W page priv :
  ring_inv k y C H W ->
  suspended (dev y) = false ->
  W - C < 2 ^ k ->
  exists s',
    eh_compress_page_try (dev y) page priv =
    (TryDone 0 s', [EvLock fifo_prod_lock; EvUnlock fifo_prod_lock]) /\
    ring_inv k (mk_system s'
                  (trace y ++ [EvLock fifo_prod_lock; EvUnlock fifo_prod_lock])
                  (submitted y ++ [priv])) C H (W + 1) /\
    completions s' = <[slot (dev y) W := mk_cmpl priv]> (completions (dev y)) /\
    fifo s' = <[slot (dev y) W :=
                 mk_desc (page_to_phys page) EH_CDESC_PENDING
                   (compr_len (fifo (dev y) !!! slot (dev y) W))
                   (buf_sel (fifo (dev y) !!! slot (dev y) W))]> (fifo (dev y)) /\
    regs s' = set_cdesc_wridx (write_index s') (regs (dev y)) /\
    write_index s' = (W + 1) mod 2 ^ (k + 1) /\
    nr_request s' = nr_request (dev y) + 1 /\
    suspended s' = false /\
    comp_thread s' = comp_thread (dev y) /\
    compr_buffers s' = compr_buffers (dev y) /\
    complete_index s' = complete_index (dev y).
Proof.
  intros Hinv Hs Hroom. pose proof Hinv as []. size_facts k.
  assert (Hslot : Z.to_nat (Z.land (write_index (dev y)) (fifo_index_mask (dev y)))
                  = slot (dev y) W).
  { unfold slot.
    by rewrite inv_imask0, land_mask_mod, inv_w0, mod_mod_pow2, inv_size0 by lia. }
  assert (Hnw : Z.land (u32 (write_index (dev y) + 1)) (fifo_color_mask (dev y))
                = (W + 1) mod 2 ^ (k + 1)).
  { by rewrite inv_cmask0, land_u32_mask, inv_w0, Zplus_mod_idemp_l by lia. }
  assert (Htry : exists s',
            eh_compress_page_try (dev y) page priv =
            (TryDone 0 s', [EvLock fifo_prod_lock; EvUnlock fifo_prod_lock])).
  { unfold eh_compress_page_try. rewrite Hs, Hnw.
    rewrite inv_cmask0, land_u32_mask by lia.
    rewrite inv_c0, inv_size0, Zminus_mod_idemp_l, Zminus_mod_idemp_r.
    rewrite (Z.mod_small (W + 1 - C)) by lia.
    destruct (Z.ltb_spec (2 ^ k) (W + 1 - C)); [lia|]. eauto. }
  destruct Htry as [s' Htry]. exists s'. split; [done|].
  assert (Hacc : (eh_compress_page_try (dev y) page priv).1 = TryDone 0 s')
    by (by rewrite Htry).
  assert (Hs' : s' =
    set_regs (set_cdesc_wridx ((W + 1) mod 2 ^ (k + 1)) (regs (dev y)))
      (set_write_index ((W + 1) mod 2 ^ (k + 1))
         (set_nr_request (nr_request (dev y) + 1)
            (set_completions
               (<[slot (dev y) W := mk_cmpl priv]> (completions (dev y)))
               (eh_setup_descriptor (dev y) page
                  (Z.land (write_index (dev y)) (fifo_index_mask (dev y)))))))).
  { unfold eh_compress_page_try in Htry. rewrite Hs in Htry.
    destruct (fifo_size (dev y) <? _); [discriminate|].
    injection Htry as <-. rewrite <- Hslot, <- Hnw. reflexivity. }
  assert (Hstep : step (OpCompress page priv) y =
                  Some (mk_system s'
                          (trace y ++ [EvLock fifo_prod_lock; EvUnlock fifo_prod_lock])
                          (submitted y ++ [priv]))).
  { unfold step. by rewrite Htry. }
  destruct (step_compress_inv _ _ _ _ _ _ _ _ Hinv Hstep) as [W' Hinv'].
  assert (W' = W + 1).
  { destruct Hinv'. simpl in *. rewrite Hs' in inv_w1. simpl in inv_w1.
    apply (mod_eq_near _ _ (2 ^ (k + 1))) in inv_w1; lia. }
  subst W'. split; [done|].
  rewrite Hs'. unfold eh_setup_descriptor. simpl. rewrite Hslot.
  repeat split; done.
Qed.

(** X1. Sizes, masks and the order of the three indices of the ring: the
    index published to the engine is the driver's write index, the
    engine never completes past it, and the reaper never reaps past the
    engine. *)
Theorem ring_indices_in_order k n cbufs dbufs ops y :
  1 <= k <= 15 ->
  run ops (initial_system (2 ^ k) n cbufs dbufs) = Some y ->
  let s := dev y in
  fifo_size s = 2 ^ k /\
  fifo_index_mask s = fifo_size s - 1 /\
  fifo_color_mask s = 2 * fifo_size s - 1 /\
  length (fifo s) = Z.to_nat (fifo_size s) /\
  length (completions s) = Z.to_nat (fifo_size s) /\
  0 <= write_index s < 2 * fifo_size s /\
  0 <= complete_index s < 2 * fifo_size s /\
  0 <= cdesc_complete_idx (regs s) < 2 * fifo_size s /\
  cdesc_wridx (regs s) = write_index s /\
  0 <= reported s <= pending s /\
  cdesc_complete_idx (regs s) =
    Z.land (complete_index s + reported s) (fifo_color_mask s) /\
  write_index s = Z.land (complete_index s + pending s) (fifo_color_mask s).
Proof.
  intros Hk Hrun s. subst s.
  destruct (reachable_ring_ok _ _ _ _ _ _ Hk Hrun) as (C & H & W & Hinv).
  destruct (ring_inv_pending _ _ _ _ _ Hinv) as [Hp Hr].
  pose proof Hinv as []. size_facts k.
  pose proof (Z.mod_pos_bound W (2 ^ (k + 1)) ltac:(lia)).
  pose proof (Z.mod_pos_bound C (2 ^ (k + 1)) ltac:(lia)).
  pose proof (Z.mod_pos_bound H (2 ^ (k + 1)) ltac:(lia)).
  rewrite Hp, Hr, inv_size0, inv_imask0, inv_cmask0, inv_len_fifo0, inv_len_cmpl0.
  rewrite inv_wridx0, inv_w0, inv_c0, inv_hw0.
  rewrite !land_mask_mod, !Zplus_mod_idemp_l by lia.
  replace (C + (H - C)) with H by lia. replace (C + (W - C)) with W by lia.
  repeat split; try done; lia.
Qed.

(** X2. While the device is not suspended and the ring has room, a pass of
    [eh_compress_page] accepts the request at once: it returns 0, stores
    the token and the source page in the slot under [write_index], marks
    the descriptor pending, counts the request, and publishes the
    advanced write index; the other slots are left as they were.  The
    call as a whole therefore returns 0 without waiting. *)
Theorem eh_compress_page_accepts k n cbufs dbufs ops y page priv others :
  1 <= k <= 15 ->
  run ops (initial_system (2 ^ k) n cbufs dbufs) = Some y ->
  suspended (dev y) = false ->
  pending (dev y) < fifo_size (dev y) ->
  let s := dev y in
  let i := ring_slot s (write_index s) in
  exists s',
    eh_compress_page others s page priv =
    Some (0, s', [EvLock fifo_prod_lock; EvUnlock fifo_prod_lock]) /\
    completions s' !!! i = mk_cmpl priv /\
    src_addr (fifo s' !!! i) = page_to_phys page /\
    status (fifo s' !!! i) = EH_CDESC_PENDING /\
    (forall j, j <> i -> fifo s' !!! j = fifo s !!! j /\
                         completions s' !!! j = completions s !!! j) /\
    nr_request s' = nr_request s + 1 /\
    write_index s' = Z.land (write_index s + 1) (fifo_color_mask s) /\
    cdesc_wridx (regs s') = write_index s' /\
    pending s' = pending s + 1.
Proof.
  intros Hk Hrun Hs Hroom s i. subst s i.
  destruct (reachable_ring_ok _ _ _ _ _ _ Hk Hrun) as (C & H & W & Hinv).
  destruct (ring_inv_pending _ _ _ _ _ Hinv) as [Hp _].
  pose proof Hinv as []. size_facts k.
  destruct (compress_accept_inv k y C H W page priv Hinv Hs)
    as (s' & Htry & Hinv' & Hc & Hf & Hr & Hw & Hnr & _); [lia|].
  destruct (ring_inv_pending _ _ _ _ _ Hinv') as [Hp' _]. simpl in Hp'.
  exists s'. rewrite eh_compress_page_unfold, Htry.
  assert (Hslot : ring_slot (dev y) (write_index (dev y)) = slot (dev y) W).
  { unfold ring_slot, slot.
    by rewrite inv_imask0, land_mask_mod, inv_w0, mod_mod_pow2, inv_size0 by lia. }
  assert (Hlt : (slot (dev y) W < Z.to_nat (2 ^ k))%nat).
  { rewrite <- inv_size0. apply slot_lt. lia. }
  rewrite Hslot, Hc, Hf, Hr, Hw, Hp, Hp'.
  rewrite !list_lookup_total_insert_eq by lia. simpl.
  split; [done|]. split; [done|]. split; [done|]. split; [done|]. split.
  { intros j Hj. by rewrite !list_lookup_total_insert_ne by done. }
  split; [done|]. split; [|split; [done|lia]].
  by rewrite inv_cmask0, land_mask_mod, inv_w0, Zplus_mod_idemp_l by lia.
Qed.

(** X3. A second wake-up of the completion thread with no progress of the
    engine in between delivers nothing and changes nothing: what was
    reaped is not reaped again. *)
Theorem reap_twice_delivers_once k n cbufs dbufs ops y s' ev :
  1 <= k <= 15 ->
  run ops (initial_system (2 ^ k) n cbufs dbufs) = Some y ->
  comp_thread (dev y) = THREAD_RUNNING ->
  eh_comp_thread_reap (fifo_fuel (dev y)) (dev y) = Some (s', ev) ->
  reported s' = 0 /\
  pending s' = pending (dev y) - reported (dev y) /\
  nr_request s' = pending s' /\
  forall fuel, eh_comp_thread_reap fuel s' = Some (s', []).
Proof.
  intros Hk Hrun Hth Hreap.
  destruct (reachable_ring_ok _ _ _ _ _ _ Hk Hrun) as (C & H & W & Hinv).
  destruct (ring_inv_pending _ _ _ _ _ Hinv) as [Hp Hr].
  destruct (comp_thread_reap_inv k y C H W Hinv Hth) as (s1 & ev1 & Hr1 & Hinv' & _).
  rewrite Hreap in Hr1. injection Hr1 as <- <-.
  destruct (ring_inv_pending _ _ _ _ _ Hinv') as [Hp' Hr']. simpl in Hp', Hr'.
  rewrite Hp', Hr', Hp, Hr. split; [lia|]. split; [lia|].
  destruct Hinv'. simpl in *. split; [done|].
  intros fuel. unfold eh_comp_thread_reap, eh_update_complete_index.
  by rewrite inv_hw0, inv_c0, Z.eqb_refl.
Qed.

Lemma eh_process_completed_descriptor_callbacks s fifo_index :
  callbacks (eh_process_completed_descriptor s fifo_index
               (completions s !!! Z.to_nat fifo_index)).2 =
  [completion_of_slot s (Z.to_nat fifo_index)].
Proof.
  unfold eh_process_completed_descriptor, completion_of_slot.
  by destruct (status (fifo s !!! Z.to_nat fifo_index)).
Qed.

(** The state after one turn of the loop of [eh_process_completions]. *)
Lemma reap_slot_state k y C H W ret s1 ev1 :
  ring_inv k y C H W ->
  C < H ->
  let index := Z.land (C mod 2 ^ (k + 1)) (fifo_index_mask (dev y)) in
  eh_process_completed_descriptor (dev y) (u16 index)
    (completions (dev y) !!! Z.to_nat index) = (ret, s1, ev1) ->
  set_complete_index
    (Z.land (u32 (complete_index s1 + 1)) (fifo_color_mask s1))
    (set_completions (<[Z.to_nat index := mk_cmpl NULL]> (completions s1)) s1) =
  set_complete_index ((C + 1) mod 2 ^ (k + 1))
    (set_completions (<[slot (dev y) C := mk_cmpl NULL]> (completions (dev y)))
       (set_nr_request (nr_request (dev y) - 1)
          (set_fifo (fifo_idle_at (dev y) (slot (dev y) C)) (dev y)))) /\
  callbacks ev1 = [completion_of_slot (dev y) (slot (dev y) C)].
Proof.
  intros Hinv HCH index E. pose proof Hinv as []. size_facts k.
  assert (Hindex : index = C mod 2 ^ k).
  { subst index. rewrite inv_imask0, land_mask_mod, mod_mod_pow2 by lia. done. }
  assert (Hb : 0 <= C mod 2 ^ k < 2 ^ k) by (apply Z.mod_pos_bound; lia).
  assert (Hslot : Z.to_nat index = slot (dev y) C).
  { unfold slot. by rewrite inv_size0, Hindex. }
  assert (H16 : u16 index = index).
  { apply u16_small. rewrite Hindex. lia. }
  rewrite H16 in E.
  pose proof (eh_process_completed_descriptor_state (dev y) index
                (completions (dev y) !!! Z.to_nat index)) as Hst.
  pose proof (eh_process_completed_descriptor_callbacks (dev y) index) as Hcb.
  rewrite E in Hst, Hcb. simpl in Hst, Hcb. rewrite Hslot in Hst, Hcb.
  split; [|done]. subst s1. simpl. rewrite Hslot.
  by rewrite inv_cmask0, land_u32_mask, inv_c0, Zplus_mod_idemp_l by lia.
Qed.

(** The exact effect of the loop of [eh_process_completions]: one
    callback per reported request, built from the descriptor and the
    completion record of its own slot; these slots go back to idle with
    a null token, every other slot is left as it was. *)
Lemma process_completions_effect k n : forall fuel y C H W ret s' ev,
  ring_inv k y C H W ->
  comp_thread (dev y) <> THREAD_EXITED ->
  H - C = Z.of_nat n ->
  eh_process_completions_loop fuel (dev y)
    (C mod 2 ^ (k + 1)) (H mod 2 ^ (k + 1)) = Some (ret, s', ev) ->
  callbacks ev =
    map (fun j => completion_of_slot (dev y) (slot (dev y) j)) (seqZ C (H - C)) /\
  (forall j, C <= j < H ->
     fifo s' !!! slot (dev y) j =
       set_desc_status EH_CDESC_IDLE (fifo (dev y) !!! slot (dev y) j) /\
     completions s' !!! slot (dev y) j = mk_cmpl NULL) /\
  (forall i, (forall j, C <= j < H -> i <> slot (dev y) j) ->
     fifo s' !!! i = fifo (dev y) !!! i /\
     completions s' !!! i = completions (dev y) !!! i) /\
  nr_request s' = nr_request (dev y) - (H - C).
Proof.
  induction n as [|n IH]; intros fuel y C H W ret s' ev Hinv Hth Hn Hloop.
  - assert (H = C) as -> by lia.
    rewrite eh_process_completions_loop_done in Hloop.
    injection Hloop as <- <- <-. rewrite Z.sub_diag.
    split; [done|]. split; [intros j Hj; lia|]. split; [done|lia].
  - pose proof Hinv as []. size_facts k.
    assert (Hne : C mod 2 ^ (k + 1) <> H mod 2 ^ (k + 1))
      by (apply mod_ne_close; lia).
    destruct fuel as [|fuel].
    { simpl in Hloop. destruct (Z.eqb_spec (C mod 2 ^ (k + 1)) (H mod 2 ^ (k + 1)));
        done. }
    rewrite eh_process_completions_loop_step in Hloop by done.
    cbv zeta in Hloop.
    destruct (eh_process_completed_descriptor (dev y) _ _) as [[r s1] ev1] eqn:E.
    destruct (reap_slot_inv k y C H W r s1 ev1 Hinv ltac:(lia) Hth E)
      as (Hinv2 & _ & _ & [Hth2 _] & Hmask & _ & Hret).
    destruct (reap_slot_state k y C H W r s1 ev1 Hinv ltac:(lia) E) as [Hs2 Hcb].
    simpl fst in Hloop. simpl snd in Hloop. cbv zeta in Hinv2, Hth2, Hmask, Hret.
    rewrite Hs2 in Hloop, Hinv2, Hth2, Hret.
    set (s2 := set_complete_index ((C + 1) mod 2 ^ (k + 1)) _) in *.
    assert (Hlt : forall j, (slot (dev y) j < length (fifo (dev y)))%nat /\
                            (slot (dev y) j < length (completions (dev y)))%nat).
    { intros j. rewrite inv_len_fifo0, inv_len_cmpl0, <- inv_size0.
      split; apply slot_lt; lia. }
    assert (Hhead : seqZ C (H - C) = C :: seqZ (C + 1) (H - (C + 1))).
    { rewrite seqZ_cons by lia. do 2 f_equal; lia. }
    destruct (Z.eqb_spec r 0) as [->|Hr]; simpl negb in Hloop; cbv iota in Hloop.
    + change (fifo_color_mask s2) with (fifo_color_mask (dev y)) in Hloop.
      rewrite inv_cmask0, land_u32_mask, Zplus_mod_idemp_l in Hloop by lia.
      destruct (eh_process_completions_loop fuel s2 _ _)
        as [[[r' s''] ev']|] eqn:E2; [|done].
      injection Hloop as <- <- <-.
      destruct (IH fuel (mk_system s2 (trace y ++ ev1) (submitted y)) (C + 1) H W
                  r' s'' ev' Hinv2) as (Hcb' & Hin & Hout & Hnr);
        [simpl dev; by rewrite Hth2|lia|exact E2|].
      simpl dev in Hcb', Hin, Hout, Hnr.
      assert (Hsl : forall j, slot s2 j = slot (dev y) j) by done.
      split; [|split; [|split]].
      * rewrite callbacks_app, Hcb, Hcb', Hhead. simpl. f_equal.
        apply map_ext_in. intros j Hj.
        apply list_elem_of_In, elem_of_seqZ in Hj.
        rewrite Hsl. unfold completion_of_slot. subst s2. simpl.
        unfold fifo_idle_at.
        rewrite !list_lookup_total_insert_ne by (apply slot_ne; lia). done.
      * intros j Hj. destruct (Z.eq_dec j C) as [->|Hjne].
        -- destruct (Hout (slot (dev y) C)) as [Hf Hc].
           { intros j Hj'. rewrite Hsl. apply slot_ne. lia. }
           rewrite Hf, Hc. subst s2. simpl. unfold fifo_idle_at.
           rewrite !list_lookup_total_insert_eq by apply Hlt. done.
        -- destruct (Hin j ltac:(lia)) as [Hf Hc]. rewrite Hsl in Hf, Hc.
           rewrite Hf, Hc. subst s2. simpl. unfold fifo_idle_at.
           rewrite list_lookup_total_insert_ne by (apply slot_ne; lia). done.
      * intros i Hi. destruct (Hout i) as [Hf Hc].
        { intros j Hj. rewrite Hsl. apply Hi. lia. }
        rewrite Hf, Hc. subst s2. simpl. unfold fifo_idle_at.
        rewrite !list_lookup_total_insert_ne by (apply not_eq_sym, Hi; lia). done.
      * rewrite Hnr. subst s2. simpl. lia.
    + destruct (Hret Hr) as [HH _]. subst H.
      injection Hloop as <- <- <-.
      replace (C + 1 - C) with 1 by lia.
      split; [by rewrite Hcb|]. split; [|split].
      * intros j Hj. assert (j = C) as -> by lia.
        subst s2. simpl. unfold fifo_idle_at.
        rewrite !list_lookup_total_insert_eq by apply Hlt. done.
      * intros i Hi. subst s2. simpl. unfold fifo_idle_at.
        rewrite !list_lookup_total_insert_ne by (apply not_eq_sym, Hi; lia). done.
      * subst s2. simpl. lia.
Qed.

(** * What the slots of the ring hold *)

Lemma ring_layout_same_dev k y y' C H W :
  ring_layout_inv k y C H W ->
  dev y' = dev y ->
  delivered (trace y') = delivered (trace y) ->
  submitted y' = submitted y ->
  ring_layout_inv k y' C H W.
Proof.
  intros [] Hd Ht Hs. constructor; rewrite ?Hd; try done.
  by apply (ring_inv_same_dev k y).
Qed.

(** The three ways a pass of [eh_compress_page] ends. *)
Lemma eh_compress_page_try_cases s page priv :
  (exists ev, eh_compress_page_try s page priv = (TryAgain, ev) /\ delivered ev = []) \/
  (exists ret ev, eh_compress_page_try s page priv = (TryDone ret s, ev) /\
                  ret <> 0 /\ delivered ev = []) \/
  (exists s' ev, eh_compress_page_try s page priv = (TryDone 0 s', ev) /\
     delivered ev = [] /\
     let i := Z.to_nat (Z.land (write_index s) (fifo_index_mask s)) in
     completions s' = <[i := mk_cmpl priv]> (completions s) /\
     fifo s' = <[i := mk_desc (page_to_phys page) EH_CDESC_PENDING
                        (compr_len (fifo s !!! i)) (buf_sel (fifo s !!! i))]> (fifo s) /\
     nr_request s' = nr_request s + 1 /\
     cdesc_compress_enable (regs s') = cdesc_compress_enable (regs s) /\
     suspended s' = false /\ suspended s = false /\
     fifo_size s' = fifo_size s).
Proof.
  unfold eh_compress_page_try. destruct (suspended s) eqn:Hs.
  { right. left. eexists _, _. split; [done|]. split; [unfold EBUSY; lia|done]. }
  destruct (fifo_size s <? _).
  { left. by eexists. }
  right. right. eexists _, _. split; [done|]. simpl.
  unfold eh_setup_descriptor. simpl. by rewrite Hs.
Qed.

Lemma step_compress_layout k y C H W page priv y' :
  ring_layout_inv k y C H W ->
  step (OpCompress page priv) y = Some y' ->
  exists W', ring_layout_inv k y' C H W'.
Proof.
  intros Hlay Hstep. pose proof Hlay as [Hinv Hpend Hclear Hen].
  destruct (step_compress_inv k y C H W page priv y' Hinv Hstep) as [W' Hinv'].
  pose proof Hinv as []. size_facts k.
  unfold step in Hstep.
  destruct (eh_compress_page_try_cases (dev y) page priv)
    as [(ev & E & Hd)|[(ret & ev & E & Hret & Hd)|(s' & ev & E & Hd & Hc & Hf & Hnr & He & Hs' & Hs & Hsz)]];
    rewrite E in Hstep; injection Hstep as <-.
  - exists W. apply (ring_layout_same_dev k y); simpl; [done|done| |done].
    by rewrite delivered_app, Hd, app_nil_r.
  - exists W. apply (ring_layout_same_dev k y); simpl; [done|done| |].
    + by rewrite delivered_app, Hd, app_nil_r.
    + destruct (Z.eqb_spec ret 0); done.
  - exists W'. cbv zeta in Hc, Hf.
    assert (Hslot : Z.to_nat (Z.land (write_index (dev y)) (fifo_index_mask (dev y)))
                    = slot (dev y) W).
    { unfold slot.
      by rewrite inv_imask0, land_mask_mod, inv_w0, mod_mod_pow2, inv_size0 by lia. }
    rewrite Hslot in Hc, Hf.
    assert (W' = W + 1) as ->.
    { pose proof (inv_nr _ _ _ _ _ Hinv') as Hnr'. simpl in Hnr'. lia. }
    pose proof (inv_order _ _ _ _ _ Hinv') as Hord.
    constructor; simpl; [done| | |].
    + intros j Hj. rewrite (slot_same_size _ (dev y)) by done. rewrite Hf.
      destruct (Z.eq_dec j W) as [->|Hjne].
      * rewrite list_lookup_total_insert_eq
          by (rewrite inv_len_fifo0, <- inv_size0; apply slot_lt; lia). done.
      * rewrite list_lookup_total_insert_ne by (apply slot_ne'; lia).
        apply Hpend. lia.
    + intros j Hj. rewrite (slot_same_size _ (dev y)) by done. rewrite Hc.
      rewrite list_lookup_total_insert_ne by (apply slot_ne; lia).
      apply Hclear. lia.
    + by rewrite He, Hen, Hs, Hs'.
Qed.

Lemma step_hw_complete_layout k y C H W st len bufsel err y' :
  ring_layout_inv k y C H W ->
  step (OpHwComplete st len bufsel err) y = Some y' ->
  ring_layout_inv k y' C (H + 1) W.
Proof.
  intros Hlay Hstep. pose proof Hlay as [Hinv Hpend Hclear Hen].
  pose proof (step_hw_complete_inv k y C H W st len bufsel err y' Hinv Hstep) as Hinv'.
  pose proof Hinv as []. size_facts k.
  pose proof (inv_order _ _ _ _ _ Hinv') as Hord.
  unfold step, hw_complete in Hstep.
  destruct (_ || _); [done|]. injection Hstep as <-.
  assert (Hslot : Z.to_nat (Z.land (cdesc_complete_idx (regs (dev y)))
                              (fifo_index_mask (dev y))) = slot (dev y) H).
  { unfold slot.
    by rewrite inv_imask0, land_mask_mod, inv_hw0, mod_mod_pow2, inv_size0 by lia. }
  rewrite Hslot in Hinv' |- *.
  constructor; simpl; [done| |done|done].
  intros j Hj. rewrite (slot_same_size _ (dev y)) by done.
  rewrite list_lookup_total_insert_ne by (apply slot_ne; lia).
  apply Hpend. lia.
Qed.

(** What one call of [eh_update_complete_index] from the completion
    thread does to the ring. *)
Lemma comp_thread_reap_effect k y C H W fuel s' ev :
  ring_inv k y C H W ->
  comp_thread (dev y) = THREAD_RUNNING ->
  eh_comp_thread_reap fuel (dev y) = Some (s', ev) ->
  callbacks ev =
    map (fun j => completion_of_slot (dev y) (slot (dev y) j)) (seqZ C (H - C)) /\
  (forall j, C <= j < H ->
     fifo s' !!! slot (dev y) j =
       set_desc_status EH_CDESC_IDLE (fifo (dev y) !!! slot (dev y) j) /\
     completions s' !!! slot (dev y) j = mk_cmpl NULL) /\
  (forall i, (forall j, C <= j < H -> i <> slot (dev y) j) ->
     fifo s' !!! i = fifo (dev y) !!! i /\
     completions s' !!! i = completions (dev y) !!! i) /\
  nr_request s' = nr_request (dev y) - (H - C).
Proof.
  intros Hinv Hth Hr. pose proof Hinv as []. size_facts k.
  unfold eh_comp_thread_reap, eh_update_complete_index, eh_process_completions in Hr.
  rewrite inv_hw0, inv_c0 in Hr.
  destruct (Z.eqb_spec (H mod 2 ^ (k + 1)) (C mod 2 ^ (k + 1))) as [He|Hne].
  - assert (C = H) as <- by (apply (mod_eq_close _ _ (2 ^ (k + 1))); [done|lia]).
    simpl in Hr. injection Hr as <- <-. rewrite Z.sub_diag.
    split; [done|]. split; [intros j Hj; lia|]. split; [done|lia].
  - destruct (eh_process_completions_loop fuel (dev y) _ _)
      as [[[ret s1] ev1]|] eqn:Hloop; [|done].
    destruct (process_completions_effect k (Z.to_nat (H - C)) fuel y C H W
                ret s1 ev1 Hinv) as (Hcb & Hin & Hout & Hnr);
      [by rewrite Hth|lia|done|].
    injection Hr as <- <-.
    destruct (ret =? 0); done.
Qed.

Lemma step_reap_layout k y C H W y' :
  ring_layout_inv k y C H W ->
  step OpReap y = Some y' ->
  ring_layout_inv k y' H H W.
Proof.
  intros Hlay Hstep. pose proof Hlay as [Hinv Hpend Hclear Hen].
  pose proof (step_reap_inv k y C H W y' Hinv Hstep) as Hinv'.
  pose proof Hinv as []. size_facts k.
  unfold step in Hstep.
  destruct (bool_decide_reflect (comp_thread (dev y) = THREAD_RUNNING)) as [Hth|];
    [|done].
  simpl in Hstep. destruct (0 <? nr_request (dev y)); [|done].
  destruct (eh_comp_thread_reap _ _) as [[s' ev]|] eqn:Hr; [|done].
  injection Hstep as <-.
  destruct (comp_thread_reap_effect k y C H W _ s' ev Hinv Hth Hr)
    as (_ & Hin & Hout & _).
  destruct (eh_comp_thread_reap_frame _ _ _ _ Hr) as (Hregs & Hsusp & _).
  assert (Hsz : fifo_size s' = fifo_size (dev y)).
  { pose proof (inv_size _ _ _ _ _ Hinv') as Hsz. simpl in Hsz. congruence. }
  constructor; simpl; [done| | |by rewrite Hregs, Hsusp].
  - intros j Hj. rewrite (slot_same_size _ (dev y)) by done.
    destruct (Hout (slot (dev y) j)) as [-> _]; [|by apply Hpend].
    intros j' Hj'. apply slot_ne'. lia.
  - intros j Hj. rewrite (slot_same_size _ (dev y)) by done.
    destruct (Z.lt_ge_cases j (C + 2 ^ k)) as [Hlt|Hge].
    + destruct (Hout (slot (dev y) j)) as [_ ->]; [|apply Hclear; lia].
      intros j' Hj'. apply slot_ne'. lia.
    + replace (slot (dev y) j) with (slot (dev y) (j - 2 ^ k)).
      { apply Hin. lia. }
      unfold slot. rewrite inv_size0. f_equal.
      replace j with (j - 2 ^ k + 1 * 2 ^ k) at 2 by lia.
      by rewrite Z.mod_add by lia.
Qed.

(** The loop of [eh_abort_incomplete_descriptors] changes tokens to
    null and nothing else. *)
Lemma eh_abort_loop_tokens fuel : forall s i e s' ev,
  eh_abort_loop fuel s i e = Some (s', ev) ->
  forall n, completions s' !!! n = completions s !!! n \/
            completions s' !!! n = mk_cmpl NULL.
Proof.
  induction fuel as [|fuel IH]; intros s i e s' ev Hloop n; simpl in Hloop.
  - destruct (i =? e); [|done]. injection Hloop as <- <-. by left.
  - destruct (i =? e); [injection Hloop as <- <-; by left|].
    destruct (eh_abort_loop fuel _ _ _) as [[s1 ev1]|] eqn:E; [|done].
    injection Hloop as <- <-.
    destruct (IH _ _ _ _ _ E n) as [Hn|Hn]; [|by right].
    rewrite Hn. simpl.
    destruct (decide (n = Z.to_nat i)) as [->|Hne].
    + destruct (decide (Z.to_nat i < length (completions s))%nat).
      * right. by rewrite list_lookup_total_insert_eq.
      * left. by rewrite list_insert_ge by lia.
    + left. by rewrite list_lookup_total_insert_ne.
Qed.

Lemma step_error_check_layout k y C H W y' :
  ring_layout_inv k y C H W ->
  step OpErrorCheck y = Some y' ->
  ring_layout_inv k y' C H W.
Proof.
  intros Hlay Hstep. pose proof Hlay as [Hinv Hpend Hclear Hen].
  pose proof (step_error_check_inv k y C H W y' Hinv Hstep) as Hinv'.
  unfold step in Hstep.
  destruct (bool_decide (comp_thread (dev y) = THREAD_ERROR_SEEN)); [|done].
  unfold eh_comp_thread_error in Hstep.
  destruct (negb _).
  - unfold eh_abort_incomplete_descriptors in Hstep.
    destruct (eh_abort_loop _ _ _ _) as [[s' ev]|] eqn:E; [|done].
    injection Hstep as <-.
    destruct (eh_abort_loop_frame _ _ _ _ _ _ E)
      as ((Hsz & _ & _ & _ & _ & Hsu & _ & _ & _ & Hregs & _) & Hf & _).
    constructor; simpl; [done| | |by rewrite Hregs, Hsu].
    + intros j Hj. rewrite (slot_same_size _ (dev y)), Hf by done. by apply Hpend.
    + intros j Hj. rewrite (slot_same_size _ (dev y)) by done.
      destruct (eh_abort_loop_tokens _ _ _ _ _ _ E (slot (dev y) j)) as [->| ->];
        [by apply Hclear|done].
  - injection Hstep as <-. by constructor.
Qed.

Lemma step_decompress_layout k y C H W fuel cpu now obs compr_data compr_size page y' :
  ring_layout_inv k y C H W ->
  step (OpDecompress fuel cpu now obs compr_data compr_size page) y = Some y' ->
  ring_layout_inv k y' C H W.
Proof.
  intros Hlay Hstep. pose proof Hlay as [Hinv Hpend Hclear Hen].
  pose proof (step_decompress_inv k y C H W _ _ _ _ _ _ _ y' Hinv Hstep) as Hinv'.
  unfold step in Hstep.
  destruct (eh_decompress_page _ _ _ _ _ _ _ _) as [[ret ev]|]; [|done].
  injection Hstep as <-. by constructor.
Qed.

Lemma step_suspend_layout k y C H W y' :
  ring_layout_inv k y C H W ->
  step OpSuspend y = Some y' ->
  ring_layout_inv k y' C H W.
Proof.
  intros Hlay Hstep. pose proof Hlay as [Hinv Hpend Hclear Hen].
  pose proof (step_suspend_inv k y C H W y' Hinv Hstep) as Hinv'.
  unfold step in Hstep.
  unfold eh_suspend in Hstep.
  destruct (0 <? nr_request (dev y)).
  { injection Hstep as <-. by constructor. }
  destruct (existsb _ _).
  { injection Hstep as <-. by constructor. }
  injection Hstep as <-. by constructor.
Qed.

Lemma step_resume_layout k y C H W y' :
  ring_layout_inv k y C H W ->
  step OpResume y = Some y' ->
  ring_layout_inv k y' 0 0 0.
Proof.
  intros Hlay Hstep. pose proof Hlay as [Hinv Hpend Hclear Hen].
  pose proof (step_resume_inv k y C H W y' Hinv Hstep) as Hinv'.
  pose proof Hinv as []. size_facts k.
  unfold step in Hstep.
  destruct (suspended (dev y)) eqn:Hs; [|done].
  specialize (inv_susp0 eq_refl). subst W.
  injection Hstep as <-.
  constructor; simpl; [done|intros j Hj; lia| |done].
  intros j Hj.
  replace (slot _ j) with (slot (dev y) (C + (j - C) mod 2 ^ k)).
  { apply Hclear. pose proof (Z.mod_pos_bound (j - C) (2 ^ k) ltac:(lia)). lia. }
  unfold slot. simpl. rewrite inv_size0. f_equal.
  rewrite Zplus_mod_idemp_r. f_equal. lia.
Qed.

Lemma step_ring_layout k o y y' C H W :
  ring_layout_inv k y C H W -> step o y = Some y' ->
  exists C' H' W', ring_layout_inv k y' C' H' W'.
Proof.
  intros Hlay Hstep. destruct o.
  - destruct (step_compress_layout _ _ _ _ _ _ _ _ Hlay Hstep) as [W' ?].
    by exists C, H, W'.
  - exists C, (H + 1), W. by eapply step_hw_complete_layout.
  - exists H, H, W. by eapply step_reap_layout.
  - exists C, H, W. by eapply step_error_check_layout.
  - exists C, H, W. by eapply step_decompress_layout.
  - exists C, H, W. by eapply step_suspend_layout.
  - exists 0, 0, 0. by eapply step_resume_layout.
Qed.

Lemma run_ring_layout k ops : forall y y' C H W,
  ring_layout_inv k y C H W -> run ops y = Some y' ->
  exists C' H' W', ring_layout_inv k y' C' H' W'.
Proof.
  induction ops as [|o ops IH]; intros y y' C H W Hlay Hrun; simpl in Hrun.
  - injection Hrun as <-. eauto.
  - destruct (step o y) as [y1|] eqn:Hstep; [|done].
    destruct (step_ring_layout _ _ _ _ _ _ _ Hlay Hstep) as (C1 & H1 & W1 & Hlay1).
    by eapply IH.
Qed.

Lemma initial_ring_layout k n cbufs dbufs :
  1 <= k <= 15 ->
  ring_layout_inv k (initial_system (2 ^ k) n cbufs dbufs) 0 0 0.
Proof.
  intros Hk. size_facts k.
  assert (Hnull : forall j (x : eh_completion) (d : eh_compress_desc),
            replicate (Z.to_nat (2 ^ k)) x !!!
              slot (dev (initial_system (2 ^ k) n cbufs dbufs)) j = x /\
            replicate (Z.to_nat (2 ^ k)) d !!!
              slot (dev (initial_system (2 ^ k) n cbufs dbufs)) j = d).
  { intros j x d. unfold slot. simpl.
    pose proof (Z.mod_pos_bound j (2 ^ k) ltac:(lia)).
    split; apply lookup_total_replicate_2; lia. }
  constructor;
    [|intros j Hj; lia
     |intros j Hj; exact (proj1 (Hnull j _ (mk_desc 0 EH_CDESC_IDLE 0 0)))|done].
  constructor; simpl; try done.
  - rewrite Z.shiftl_mul_pow2 by lia. change (2 ^ 1) with 2. lia.
  - by rewrite length_replicate.
  - by rewrite length_replicate.
  - lia.
  - intros j Hj.
    exact (f_equal status (proj2 (Hnull j (mk_cmpl NULL) (mk_desc 0 EH_CDESC_IDLE 0 0)))).
  - lia.
Qed.

Lemma reachable_ring_layout k n cbufs dbufs ops y :
  1 <= k <= 15 ->
  run ops (initial_system (2 ^ k) n cbufs dbufs) = Some y ->
  exists C H W, ring_layout_inv k y C H W.
Proof.
  intros Hk Hrun. eapply run_ring_layout; [|done]. by apply initial_ring_layout.
Qed.

Lemma ring_slot_slot k y C H W d :
  ring_inv k y C H W ->
  ring_slot (dev y) (complete_index (dev y) + d) = slot (dev y) (C + d) /\
  ring_slot (dev y) (write_index (dev y) + d) = slot (dev y) (W + d).
Proof.
  intros []. size_facts k. unfold ring_slot, slot.
  rewrite inv_imask0, inv_size0, inv_c0, inv_w0, !land_mask_mod by lia.
  by rewrite <- !(mod_mod_pow2 (_ + d) k (k + 1)), !Zplus_mod_idemp_l by lia.
Qed.

(** X4. In every state the driver and the engine reach, the slots of the
    ring after the complete index are laid out in three runs: the
    requests reported complete, then the requests the engine still has
    to do, whose descriptors are pending, then free slots with an idle
    descriptor and a null token.  The engine is enabled exactly while
    the driver is not suspended. *)
Theorem ring_slots_layout k n cbufs dbufs ops y :
  1 <= k <= 15 ->
  run ops (initial_system (2 ^ k) n cbufs dbufs) = Some y ->
  let s := dev y in
  (forall d, reported s <= d < pending s ->
     status (fifo s !!! ring_slot s (complete_index s + d)) = EH_CDESC_PENDING) /\
  (forall d, pending s <= d < fifo_size s ->
     status (fifo s !!! ring_slot s (complete_index s + d)) = EH_CDESC_IDLE /\
     completions s !!! ring_slot s (complete_index s + d) = mk_cmpl NULL) /\
  cdesc_compress_enable (regs s) = negb (suspended s).
Proof.
  intros Hk Hrun s. subst s.
  destruct (reachable_ring_layout _ _ _ _ _ _ Hk Hrun) as (C & H & W & [Hinv Hp Hc He]).
  destruct (ring_inv_pending _ _ _ _ _ Hinv) as [-> ->].
  pose proof Hinv as [].
  split; [|split; [|done]].
  - intros d Hd. rewrite (proj1 (ring_slot_slot _ _ _ _ _ d Hinv)).
    apply Hp. lia.
  - intros d Hd. rewrite (proj1 (ring_slot_slot _ _ _ _ _ d Hinv)).
    split; [apply inv_idle0|apply Hc]; lia.
Qed.

(** * A batch of requests through the ring *)

Lemma run_app ops1 : forall ops2 y y1,
  run ops1 y = Some y1 -> run (ops1 ++ ops2) y = run ops2 y1.
Proof.
  induction ops1 as [|o ops1 IH]; intros ops2 y y1 Hrun; simpl in *.
  - by injection Hrun as ->.
  - destruct (step o y); [by apply IH|done].
Qed.

Lemma run_cons o ops y y1 :
  step o y = Some y1 -> run (o :: ops) y = run ops y1.
Proof. intros Hstep. change (run (o :: ops) y) with
  (match step o y with Some y' => run ops y' | None => None end).
  by rewrite Hstep. Qed.

Lemma run_submit_many k reqs : forall y C H W,
  ring_inv k y C H W ->
  suspended (dev y) = false ->
  W + Z.of_nat (length reqs) <= C + 2 ^ k ->
  exists y',
    run (map submit_op reqs) y = Some y' /\
    ring_inv k y' C H (W + Z.of_nat (length reqs)) /\
    callbacks (trace y') = callbacks (trace y) /\
    (forall i r, reqs !! i = Some r ->
       completions (dev y') !!! slot (dev y) (W + Z.of_nat i) = mk_cmpl r.2) /\
    (forall i, (forall j, W <= j < W + Z.of_nat (length reqs) -> i <> slot (dev y) j) ->
       completions (dev y') !!! i = completions (dev y) !!! i) /\
    cdesc_compress_enable (regs (dev y')) = cdesc_compress_enable (regs (dev y)) /\
    fifo_halted (regs (dev y')) = fifo_halted (regs (dev y)) /\
    suspended (dev y') = false /\
    comp_thread (dev y') = comp_thread (dev y) /\
    compr_buffers (dev y') = compr_buffers (dev y).
Proof.
  induction reqs as [|[page priv] reqs IH]; intros y C H W Hinv Hs Hroom.
  - exists y. simpl. rewrite Z.add_0_r. split; [done|]. split; [done|].
    split; [done|]. split; [intros i r Hi; done|done].
  - simpl length in *. pose proof Hinv as []. size_facts k.
    destruct (compress_accept_inv k y C H W page priv Hinv Hs ltac:(lia))
      as (s1 & Htry & Hinv1 & Hc1 & _ & Hregs1 & _ & _ & Hs1 & Hth1 & Hcb1 & _).
    set (y1 := mk_system s1 _ _) in Hinv1.
    assert (Hstep : step (OpCompress page priv) y = Some y1).
    { unfold step. by rewrite Htry. }
    destruct (IH y1 C H (W + 1) Hinv1 Hs1 ltac:(lia))
      as (y' & Hrun & Hinv' & Hcbs & Htok & Hout & Hen & Hhalt & Hs' & Hth' & Hcb').
    exists y'.
    change (map submit_op ((page, priv) :: reqs))
      with (OpCompress page priv :: map submit_op reqs).
    rewrite (run_cons _ _ _ _ Hstep). split; [done|].
    split; [by replace (W + Z.of_nat (S (length reqs)))
              with (W + 1 + Z.of_nat (length reqs)) by lia|].
    assert (Hsl : forall j, slot (dev y1) j = slot (dev y) j).
    { intros j. apply slot_same_size.
      pose proof (inv_size _ _ _ _ _ Hinv1). congruence. }
    split; [rewrite Hcbs; subst y1; simpl; by rewrite callbacks_app, app_nil_r|].
    split; [|split].
    + intros i r Hi. destruct i as [|i]; simpl in Hi.
      * injection Hi as <-. simpl. rewrite Z.add_0_r.
        rewrite Hout by (intros j Hj; rewrite Hsl; apply slot_ne; lia).
        subst y1. simpl. rewrite Hc1.
        by rewrite list_lookup_total_insert_eq
          by (rewrite inv_len_cmpl0, <- inv_size0; apply slot_lt; lia).
      * rewrite <- Hsl.
        replace (W + Z.of_nat (S i)) with (W + 1 + Z.of_nat i) by lia.
        by apply Htok.
    + intros i Hi. rewrite Hout by (intros j Hj; rewrite Hsl; apply Hi; lia).
      subst y1. simpl. rewrite Hc1.
      by rewrite list_lookup_total_insert_ne by (apply not_eq_sym, Hi; lia).
    + subst y1. simpl in *. by rewrite Hen, Hhalt, Hth', Hcb', Hregs1.
Qed.

Lemma run_complete_many k res : forall y C H W,
  ring_inv k y C H W ->
  cdesc_compress_enable (regs (dev y)) = true ->
  fifo_halted (regs (dev y)) = false ->
  Forall (fun r => res_status r <> EH_CDESC_ERROR_HALTED) res ->
  H + Z.of_nat (length res) <= W ->
  exists y',
    run (map complete_op res) y = Some y' /\
    ring_inv k y' C (H + Z.of_nat (length res)) W /\
    trace y' = trace y /\
    (forall i r, res !! i = Some r ->
       let d := fifo (dev y') !!! slot (dev y) (H + Z.of_nat i) in
       status d = res_status r /\ compr_len d = res_len r /\
       buf_sel d = res_bufsel r) /\
    (forall i, (forall j, H <= j < H + Z.of_nat (length res) -> i <> slot (dev y) j) ->
       fifo (dev y') !!! i = fifo (dev y) !!! i) /\
    completions (dev y') = completions (dev y) /\
    comp_thread (dev y') = comp_thread (dev y) /\
    compr_buffers (dev y') = compr_buffers (dev y) /\
    nr_request (dev y') = nr_request (dev y) /\
    suspended (dev y') = suspended (dev y) /\
    fifo_halted (regs (dev y')) = false.
Proof.
  induction res as [|r res IH]; intros y C H W Hinv Hen Hhalt Hok Hroom.
  - exists y. simpl. rewrite Z.add_0_r. split; [done|]. split; [done|].
    split; [done|]. split; [intros i r Hi; done|done].
  - simpl length in *. pose proof Hinv as []. size_facts k.
    apply Forall_cons in Hok as [Hr Hok].
    set (i0 := Z.to_nat (Z.land (cdesc_complete_idx (regs (dev y)))
                           (fifo_index_mask (dev y)))).
    assert (Hslot : i0 = slot (dev y) H).
    { unfold i0, slot.
      by rewrite inv_imask0, land_mask_mod, inv_hw0, mod_mod_pow2, inv_size0 by lia. }
    destruct (hw_complete (dev y) (res_status r) (res_len r) (res_bufsel r) (res_err r))
      as [s1|] eqn:Ehw; cycle 1.
    { unfold hw_complete in Ehw. rewrite Hen, Hhalt, inv_wridx0, inv_hw0, inv_w0 in Ehw.
      destruct (Z.eqb_spec (H mod 2 ^ (k + 1)) (W mod 2 ^ (k + 1))) as [He|]; [|done].
      exfalso. revert He. apply mod_ne_close. lia. }
    set (y1 := mk_system s1 (trace y) (submitted y)).
    assert (Hstep : step (complete_op r) y = Some y1).
    { unfold step, complete_op. by rewrite Ehw. }
    pose proof (step_hw_complete_inv k y C H W _ _ _ _ y1 Hinv Hstep) as Hinv1.
    unfold hw_complete in Ehw.
    destruct (_ || _) in Ehw; [done|]. injection Ehw as Hs1. fold i0 in Hs1.
    rewrite Hslot in Hs1.
    destruct (IH y1 C (H + 1) W Hinv1)
      as (y' & Hrun & Hinv' & Htr & Hres & Hout & Hc' & Hth' & Hcb' & Hnr' & Hsu' & Hh');
      [by subst y1 s1|subst y1 s1; simpl; by apply bool_decide_eq_false|done|lia|].
    exists y'. simpl map. rewrite (run_cons _ _ _ _ Hstep). split; [done|].
    split; [by replace (H + Z.of_nat (S (length res)))
              with (H + 1 + Z.of_nat (length res)) by lia|].
    assert (Hsl : forall j, slot (dev y1) j = slot (dev y) j).
    { intros j. apply slot_same_size.
      pose proof (inv_size _ _ _ _ _ Hinv1). congruence. }
    split; [done|]. split; [|split].
    + intros i r' Hi. destruct i as [|i]; simpl in Hi.
      * injection Hi as <-. simpl. rewrite Z.add_0_r.
        rewrite Hout by (intros j Hj; rewrite Hsl; apply slot_ne; lia).
        subst y1 s1. simpl.
        by rewrite list_lookup_total_insert_eq
          by (rewrite inv_len_fifo0, <- inv_size0; apply slot_lt; lia).
      * rewrite <- Hsl.
        replace (H + Z.of_nat (S i)) with (H + 1 + Z.of_nat i) by lia.
        by apply Hres.
    + intros i Hi. rewrite Hout by (intros j Hj; rewrite Hsl; apply Hi; lia).
      subst y1 s1. simpl.
      by rewrite list_lookup_total_insert_ne by (apply not_eq_sym, Hi; lia).
    + rewrite Hc', Hth', Hcb', Hnr', Hsu', Hh'. by subst y1 s1.
Qed.

Lemma expected_callbacks_seq (f : Z -> event) s reqs : forall res c i,
  length res = length reqs ->
  (forall n req r, reqs !! n = Some req -> res !! n = Some r ->
     f (c + Z.of_nat n) = expected_callback s (i + Z.of_nat n) req.2 r) ->
  map f (seqZ c (Z.of_nat (length reqs))) = expected_callbacks s i reqs res.
Proof.
  induction reqs as [|[page priv] reqs IH]; intros res c i Hlen Hf.
  - done.
  - destruct res as [|r res]; [done|]. simpl length. simpl expected_callbacks.
    rewrite seqZ_cons by lia. simpl map. f_equal.
    + specialize (Hf 0%nat (page, priv) r eq_refl eq_refl).
      by rewrite !Z.add_0_r in Hf.
    + replace (Z.pred (Z.of_nat (S (length reqs)))) with (Z.of_nat (length reqs))
        by lia.
      apply IH; [simpl in Hlen; lia|].
      intros n req r' Hn Hr.
      replace (Z.succ c + Z.of_nat n) with (c + Z.of_nat (S n)) by lia.
      replace (i + 1 + Z.of_nat n) with (i + Z.of_nat (S n)) by lia.
      by apply Hf.
Qed.

(** X5. A batch through an empty ring: when the ring is empty, the engine
    is not halted and the thread runs, a batch of at most [fifo_size]
    requests is accepted as a whole; once the engine has completed each
    of them without halting, one pass of the completion thread makes
    exactly one callback per request, in the order of submission, each
    with the token of its request and with the status and the length the
    engine wrote for it, and the ring is empty again. *)
Theorem batch_round_trip k n cbufs dbufs ops y reqs res :
  1 <= k <= 15 ->
  run ops (initial_system (2 ^ k) n cbufs dbufs) = Some y ->
  comp_thread (dev y) = THREAD_RUNNING ->
  suspended (dev y) = false ->
  fifo_halted (regs (dev y)) = false ->
  pending (dev y) = 0 ->
  reqs <> [] ->
  Z.of_nat (length reqs) <= fifo_size (dev y) ->
  length res = length reqs ->
  Forall (fun r => res_status r <> EH_CDESC_ERROR_HALTED) res ->
  exists y',
    run (map submit_op reqs ++ map complete_op res ++ [OpReap]) y = Some y' /\
    callbacks (trace y') =
      callbacks (trace y) ++ expected_callbacks (dev y) 0 reqs res /\
    pending (dev y') = 0 /\
    nr_request (dev y') = 0 /\
    comp_thread (dev y') = THREAD_RUNNING.
Proof.
  intros Hk Hrun Hth Hsu Hhalt Hpend Hne Hlen Hlen' Hok.
  destruct (reachable_ring_layout _ _ _ _ _ _ Hk Hrun)
    as (C & H & W & [Hinv _ _ Hen]).
  destruct (ring_inv_pending _ _ _ _ _ Hinv) as [HWC _].
  pose proof Hinv as []. size_facts k.
  assert (W = C) as -> by lia. assert (H = C) as -> by lia.
  rewrite Hsu in Hen. simpl in Hen.
  set (m := Z.of_nat (length reqs)) in *.
  assert (Hm : 0 < m) by (destruct reqs; [done|simpl in m; lia]).
  destruct (run_submit_many k reqs y C C C Hinv Hsu ltac:(lia))
    as (y1 & Hrun1 & Hinv1 & Hcb1 & Htok1 & _ & Hen1 & Hhalt1 & Hsu1 & Hth1 & Hbuf1).
  fold m in Hinv1.
  destruct (run_complete_many k res y1 C C (C + m) Hinv1)
    as (y2 & Hrun2 & Hinv2 & Htr2 & Hres2 & _ & Hc2 & Hth2 & Hbuf2 & Hnr2 & Hsu2 & Hhalt2);
    [congruence|congruence|done|lia|].
  rewrite Hlen' in Hinv2. fold m in Hinv2.
  assert (Hth2' : comp_thread (dev y2) = THREAD_RUNNING) by congruence.
  destruct (comp_thread_reap_inv k y2 C (C + m) (C + m) Hinv2 Hth2')
    as (s3 & ev3 & Hr & Hinv3 & _ & _ & Hth3).
  destruct (comp_thread_reap_effect k y2 C (C + m) (C + m) _ s3 ev3 Hinv2 Hth2' Hr)
    as (Hcb3 & _ & _ & Hnr3).
  destruct (eh_comp_thread_reap_frame _ _ _ _ Hr) as (Hregs3 & _).
  set (y3 := mk_system s3 (trace y2 ++ ev3) (submitted y2)) in *.
  exists y3.
  assert (Hsz : forall j, slot (dev y2) j = slot (dev y) j /\
                          slot (dev y1) j = slot (dev y) j).
  { intros j. split; apply slot_same_size.
    - pose proof (inv_size _ _ _ _ _ Hinv2). congruence.
    - pose proof (inv_size _ _ _ _ _ Hinv1). congruence. }
  split; [|split; [|split; [|split]]].
  - rewrite (run_app _ _ _ _ Hrun1), (run_app _ _ _ _ Hrun2).
    simpl. unfold step. rewrite Hth2'. simpl.
    pose proof (inv_nr _ _ _ _ _ Hinv2) as Hnr.
    destruct (Z.ltb_spec 0 (nr_request (dev y2))); [|lia].
    by rewrite Hr.
  - subst y3. simpl. rewrite callbacks_app, Htr2, Hcb1, Hcb3. f_equal.
    replace (C + m - C) with m by lia.
    apply expected_callbacks_seq; [done|].
    intros i req r Hi Hri. simpl.
    destruct (Hres2 i r Hri) as (Hst & Hl & Hb).
    rewrite (proj2 (Hsz _)) in Hst, Hl, Hb.
    unfold completion_of_slot, expected_callback. rewrite Z.add_0_l.
    rewrite (proj2 (ring_slot_slot _ _ _ _ _ (Z.of_nat i) Hinv)).
    rewrite (proj1 (Hsz _)), Hst, Hl, Hb, Hc2, Hbuf2, Hbuf1.
    by rewrite (Htok1 i req Hi).
  - destruct (ring_inv_pending _ _ _ _ _ Hinv3) as [-> _]. lia.
  - pose proof (inv_nr _ _ _ _ _ Hinv3) as Hnr. simpl in Hnr. subst y3. simpl. lia.
  - destruct Hth3 as [Hth3|[_ Hh]]; [done|]. congruence.
Qed.

(** * Suspend and resume *)

Lemma run_decompr_busy ops : forall y y',
  run ops y = Some y' ->
  decompr_busy (dev y') = decompr_busy (dev y) /\
  decompr_cmd_count (dev y') = decompr_cmd_count (dev y).
Proof.
  induction ops as [|o ops IH]; intros y y'; simpl.
  - by intros [= <-].
  - destruct (step o y) as [y1|] eqn:E; [|done].
    intros Hr. destruct (IH y1 y' Hr) as [-> ->]. by eapply step_decompr_busy.
Qed.

Lemma reachable_not_busy fifo_size n cbufs dbufs ops y :
  0 <= n ->
  run ops (initial_system fifo_size n cbufs dbufs) = Some y ->
  existsb (fun i => (decompr_busy (dev y) !!! Z.to_nat i : bool))
    (seqZ 0 (decompr_cmd_count (dev y))) = false.
Proof.
  intros Hn Hrun. destruct (run_decompr_busy _ _ _ Hrun) as [Hb Hc].
  simpl in Hb, Hc. rewrite Hb, Hc.
  apply not_true_is_false. rewrite existsb_exists.
  intros (i & Hin & Hi).
  apply list_elem_of_In, elem_of_seqZ in Hin.
  rewrite lookup_total_replicate_2 in Hi by lia. done.
Qed.

Lemma callbacks_locks (f : Z -> eh_lock) (g : eh_lock -> event) l :
  (forall x, callbacks [g x] = []) ->
  callbacks (map (fun i => g (f i)) l) = [].
Proof.
  intros Hg. induction l as [|a l IH]; [done|].
  simpl. pose proof (Hg (f a)) as Ha.
  destruct (g (f a)); simpl in *; done.
Qed.

Lemma callbacks_suspend s : callbacks (eh_suspend s).2 = [].
Proof.
  unfold eh_suspend.
  pose proof (callbacks_locks decompr_lock EvLock (seqZ 0 (decompr_cmd_count s))
                ltac:(done)) as Hl.
  pose proof (callbacks_locks decompr_lock EvUnlock
                (reverse (seqZ 0 (decompr_cmd_count s))) ltac:(done)) as Hu.
  destruct (0 <? nr_request s); [|destruct (existsb _ _)]; simpl;
    rewrite !callbacks_app, Hl; simpl; rewrite ?callbacks_app, Hu; done.
Qed.

(** X6. Suspend and resume around an empty ring.  With no request in flight
    [eh_suspend] succeeds; while the device is suspended the engine
    completes nothing and both [eh_compress_page] and
    [eh_decompress_page] return [-EBUSY] at once; [eh_resume] then
    brings back a device that accepts requests, with the indices of the
    driver and of the engine at zero, the interrupts unmasked and every
    slot of the ring free.  No callback is made on the way.  This holds
    in whatever state the completion thread is. *)
Theorem suspend_resume_round_trip k n cbufs dbufs ops y :
  1 <= k <= 15 ->
  0 <= n ->
  run ops (initial_system (2 ^ k) n cbufs dbufs) = Some y ->
  pending (dev y) = 0 ->
  exists y1 y2,
    step OpSuspend y = Some y1 /\
    suspended (dev y1) = true /\
    clk_enabled (dev y1) = false /\
    (forall st len bufsel err, step (OpHwComplete st len bufsel err) y1 = None) /\
    (forall page priv others, exists ev,
       eh_compress_page others (dev y1) page priv = Some (- EBUSY, dev y1, ev)) /\
    (forall fuel cpu now obs compr_data compr_size page, exists ev,
       eh_decompress_page fuel (dev y1) cpu now obs compr_data compr_size page =
       Some (- EBUSY, ev)) /\
    step OpResume y1 = Some y2 /\
    suspended (dev y2) = false /\
    clk_enabled (dev y2) = true /\
    write_index (dev y2) = 0 /\
    complete_index (dev y2) = 0 /\
    regs (dev y2) = mk_regs 0 true 0 (err_cond (regs (dev y))) 0 0 0 false /\
    (forall i, (i < Z.to_nat (fifo_size (dev y2)))%nat ->
       status (fifo (dev y2) !!! i) = EH_CDESC_IDLE /\
       completions (dev y2) !!! i = mk_cmpl NULL) /\
    callbacks (trace y2) = callbacks (trace y).
Proof.
  intros Hk Hn Hrun Hpend.
  destruct (reachable_ring_layout _ _ _ _ _ _ Hk Hrun) as (C & H & W & Hlay).
  pose proof Hlay as [Hinv _ _ _].
  destruct (ring_inv_pending _ _ _ _ _ Hinv) as [HWC _].
  pose proof Hinv as []. size_facts k.
  pose proof (reachable_not_busy _ _ _ _ _ _ Hn Hrun) as Hbusy.
  set (r1 := set_cdesc_compress_enable false
               (set_intrp_masks ALL_ONES ALL_ONES ALL_ONES (regs (dev y)))).
  set (s1 := set_suspended true (set_clk_enabled false (set_regs r1 (dev y)))).
  assert (Hsus : eh_suspend (dev y) = (0, s1, (eh_suspend (dev y)).2)).
  { unfold eh_suspend. rewrite Hbusy.
    destruct (Z.ltb_spec 0 (nr_request (dev y))); [lia|done]. }
  set (y1 := mk_system s1 (trace y ++ (eh_suspend (dev y)).2) (submitted y)).
  assert (Hstep1 : step OpSuspend y = Some y1).
  { unfold step. by rewrite Hsus. }
  pose proof (step_suspend_layout _ _ _ _ _ _ Hlay Hstep1) as Hlay1.
  destruct (eh_resume (dev y1)) as [[ret2 s2] ev2] eqn:Hres.
  set (y2 := mk_system s2 (trace y1 ++ ev2) (submitted y1)).
  assert (Hstep2 : step OpResume y1 = Some y2).
  { unfold step. change (suspended (dev y1)) with true. cbv beta iota zeta.
    by rewrite Hres. }
  pose proof (step_resume_layout _ _ _ _ _ _ Hlay1 Hstep2) as [Hinv2 _ Hclear2 _].
  exists y1, y2. unfold eh_resume in Hres. injection Hres as _ <- <-.
  split; [done|]. split; [done|]. split; [done|]. split.
  { intros st len bufsel err. unfold step, hw_complete. done. }
  split.
  { intros page priv others. eexists.
    rewrite eh_compress_page_unfold, eh_compress_page_try_suspended; done. }
  split.
  { intros. eexists. unfold eh_decompress_page. done. }
  split; [done|]. split; [done|]. split; [done|]. split; [done|]. split; [done|].
  split; [done|]. split.
  - intros i Hi. simpl in Hi. rewrite inv_size0 in Hi.
    assert (Hsl : i = slot (dev y2) (Z.of_nat i)).
    { unfold slot. simpl. rewrite inv_size0, Z.mod_small by lia. lia. }
    rewrite Hsl. split.
    + apply (inv_idle _ _ _ _ _ Hinv2). lia.
    + apply Hclear2. lia.
  - subst y2 y1. simpl. rewrite !callbacks_app, callbacks_suspend. simpl.
    by rewrite !app_nil_r.
Qed.

(** * Lock discipline *)

Lemma locks_after_app tr1 : forall held held1 tr2,
  locks_after held tr1 = Some held1 ->
  locks_after held (tr1 ++ tr2) = locks_after held1 tr2.
Proof.
  induction tr1 as [|e tr1 IH]; intros held held1 tr2 H1; simpl in *.
  - by injection H1 as ->.
  - destruct e; try (by apply IH).
    + destruct (forallb _ _); [by apply IH|done].
    + destruct held as [|h held']; [done|].
      destruct (decide (h = l)); [by apply IH|done].
    + destruct held; [by apply IH|done].
Qed.

Lemma locks_after_quiet tr : forall held,
  forallb quiet tr = true -> locks_after held tr = Some held.
Proof.
  induction tr as [|e tr IH]; intros held Hq; [done|].
  simpl in Hq. apply andb_true_iff in Hq as [He Hq].
  destruct e; simpl in *; try done; by apply IH.
Qed.

Lemma locks_after_lockless tr :
  forallb lockless tr = true -> locks_after [] tr = Some [].
Proof.
  induction tr as [|e tr IH]; intros Hq; [done|].
  simpl in Hq. apply andb_true_iff in Hq as [He Hq].
  destruct e; simpl in *; try done; by apply IH.
Qed.

Lemma forallb_app_true {A} (f : A -> bool) l1 l2 :
  forallb f l1 = true -> forallb f l2 = true -> forallb f (l1 ++ l2) = true.
Proof. intros H1 H2. rewrite forallb_app, H1, H2. done. Qed.

Lemma eh_setup_dcmd_quiet s index compr_data compr_size dst_page :
  forallb quiet (eh_setup_dcmd s index compr_data compr_size dst_page) = true.
Proof. unfold eh_setup_dcmd. by destruct (_ || _). Qed.

Lemma eh_process_completions_loop_lockless fuel : forall s i e ret s' ev,
  eh_process_completions_loop fuel s i e = Some (ret, s', ev) ->
  forallb lockless ev = true.
Proof.
  induction fuel as [|fuel IH]; intros s i e ret s' ev Hloop; simpl in Hloop.
  - destruct (i =? e); [|done]. by injection Hloop as <- <- <-.
  - destruct (i =? e); [by injection Hloop as <- <- <-|].
    destruct (eh_process_completed_descriptor s _ _) as [[r s1] ev1] eqn:E.
    assert (H1 : forallb lockless ev1 = true).
    { unfold eh_process_completed_descriptor in E.
      destruct (status _); injection E as <- <- <-; done. }
    simpl in Hloop. destruct (negb (r =? 0)).
    + by injection Hloop as <- <- <-.
    + destruct (eh_process_completions_loop fuel _ _ _) as [[[r' s''] ev']|] eqn:E2;
        [|done].
      injection Hloop as <- <- <-. apply forallb_app_true; [done|].
      by eapply IH.
Qed.

Lemma eh_abort_loop_lockless fuel : forall s i e s' ev,
  eh_abort_loop fuel s i e = Some (s', ev) -> forallb lockless ev = true.
Proof.
  induction fuel as [|fuel IH]; intros s i e s' ev Hloop; simpl in Hloop.
  - destruct (i =? e); [|done]. by injection Hloop as <- <-.
  - destruct (i =? e); [by injection Hloop as <- <-|].
    destruct (eh_abort_loop fuel _ _ _) as [[s1 ev1]|] eqn:E; [|done].
    injection Hloop as <- <-. simpl. by eapply IH.
Qed.

Lemma locks_after_grab n : forall a held,
  forallb (fun h => lock_rank h <? a) held = true ->
  locks_after held (map (fun i => EvLock (decompr_lock i)) (seqZ a (Z.of_nat n))) =
  Some (map decompr_lock (reverse (seqZ a (Z.of_nat n))) ++ held).
Proof.
  induction n as [|n IH]; intros a held Hr.
  - done.
  - rewrite seqZ_cons by lia.
    replace (Z.pred (Z.of_nat (S n))) with (Z.of_nat n) by lia.
    simpl. rewrite Hr. rewrite IH.
    + by rewrite reverse_cons, map_app, <- app_assoc.
    + simpl. apply andb_true_iff. split; [apply Z.ltb_lt; lia|].
      rewrite forallb_forall in Hr |- *. intros h Hh.
      specialize (Hr h Hh). apply Z.ltb_lt in Hr. apply Z.ltb_lt.
      unfold Z.succ. lia.
Qed.

Lemma locks_after_drop l : forall held,
  locks_after (map decompr_lock l ++ held)
    (map (fun i => EvUnlock (decompr_lock i)) l) = Some held.
Proof.
  induction l as [|i l IH]; intros held; [done|].
  simpl. destruct (decide (decompr_lock i = decompr_lock i)); [apply IH|done].
Qed.

Lemma eh_suspend_locks s : locks_after [] (eh_suspend s).2 = Some [].
Proof.
  set (n := Z.to_nat (decompr_cmd_count s)).
  assert (Hseq : seqZ 0 (decompr_cmd_count s) = seqZ 0 (Z.of_nat n)).
  { destruct (Z.le_gt_cases 0 (decompr_cmd_count s)).
    - subst n. by rewrite Z2Nat.id.
    - subst n. replace (Z.to_nat (decompr_cmd_count s)) with 0%nat by lia.
      by rewrite !seqZ_nil by lia. }
  assert (Hgrab : locks_after []
            (EvLock fifo_prod_lock ::
             map (fun i => EvLock (decompr_lock i)) (seqZ 0 (decompr_cmd_count s))) =
            Some (map decompr_lock (reverse (seqZ 0 (decompr_cmd_count s))) ++
                  [fifo_prod_lock])).
  { simpl. rewrite Hseq. by apply locks_after_grab. }
  assert (Hdrop : forall mid, forallb quiet mid = true ->
            locks_after (map decompr_lock (reverse (seqZ 0 (decompr_cmd_count s))) ++
                         [fifo_prod_lock])
              (mid ++ map (fun i => EvUnlock (decompr_lock i))
                        (reverse (seqZ 0 (decompr_cmd_count s))) ++
               [EvUnlock fifo_prod_lock]) = Some []).
  { intros mid Hmid.
    rewrite (locks_after_app _ _ _ _ (locks_after_quiet mid _ Hmid)).
    by rewrite (locks_after_app _ _ _ _ (locks_after_drop _ _)). }
  assert (Hall : forall mid, forallb quiet mid = true ->
            locks_after []
              ((EvLock fifo_prod_lock ::
                map (fun i => EvLock (decompr_lock i)) (seqZ 0 (decompr_cmd_count s))) ++
               mid ++ map (fun i => EvUnlock (decompr_lock i))
                        (reverse (seqZ 0 (decompr_cmd_count s))) ++
               [EvUnlock fifo_prod_lock]) = Some []).
  { intros mid Hmid. rewrite (locks_after_app _ _ _ _ Hgrab). by apply Hdrop. }
  unfold eh_suspend.
  destruct (0 <? nr_request s); [|destruct (existsb _ _)].
  - exact (Hall [EvWarn] eq_refl).
  - exact (Hall [EvWarn] eq_refl).
  - exact (Hall [] eq_refl).
Qed.

Lemma eh_decompress_page_locks fuel s cpu now obs compr_data compr_size page ret ev :
  eh_decompress_page fuel s cpu now obs compr_data compr_size page = Some (ret, ev) ->
  locks_after [] ev = Some [].
Proof.
  unfold eh_decompress_page. set (l := decompr_lock _).
  assert (Hl : forall mid tl, forallb quiet mid = true -> forallb quiet tl = true ->
            locks_after [] ([EvLock l] ++ mid ++ tl ++ [EvUnlock l]) = Some []).
  { intros mid tl Hmid Htl. simpl.
    rewrite (locks_after_app _ _ _ _ (locks_after_quiet mid _ Hmid)).
    rewrite (locks_after_app _ _ _ _ (locks_after_quiet tl _ Htl)).
    simpl. by destruct (decide (l = l)). }
  pose proof (eh_setup_dcmd_quiet s (cpu mod decompr_cmd_count s) compr_data
                compr_size page) as Hq.
  destruct (suspended s).
  { intros [= <- <-]. by apply (Hl [] [EvWarn]). }
  destruct (decompr_busy s !!! _ : bool).
  { intros [= <- <-]. by apply (Hl [] []). }
  destruct (eh_poll _ _ _ _) as [[|st]|]; [| |done].
  - intros [= <- <-]. by apply (Hl _ [EvDumpRegs]).
  - destruct (decide _); intros [= <- <-].
    + by apply (Hl _ [EvLatency EH_DECOMPRESS_POLL]).
    + by apply (Hl _ [EvLatency EH_DECOMPRESS_POLL; EvDumpRegs]).
Qed.

Lemma eh_compress_page_try_locks s page priv :
  locks_after [] (eh_compress_page_try s page priv).2 = Some [].
Proof.
  unfold eh_compress_page_try.
  destruct (suspended s); [done|]. by destruct (_ <? _).
Qed.

Lemma eh_compress_page_locks others : forall s page priv ret s' ev,
  eh_compress_page others s page priv = Some (ret, s', ev) ->
  locks_after [] ev = Some [].
Proof.
  induction others as [|f others IH]; intros s page priv ret s' ev;
    rewrite eh_compress_page_unfold;
    pose proof (eh_compress_page_try_locks s page priv) as Ht;
    destruct (eh_compress_page_try s page priv) as [[r s1|] ev1]; simpl in Ht.
  - by intros [= <- <- <-].
  - done.
  - by intros [= <- <- <-].
  - destruct (eh_compress_page others (f s) page priv) as [[[r' s''] ev']|] eqn:E;
      [|done].
    intros [= <- <- <-]. rewrite (locks_after_app _ _ _ _ Ht). by eapply IH.
Qed.

Lemma eh_comp_thread_reap_lockless fuel s s' ev :
  eh_comp_thread_reap fuel s = Some (s', ev) -> forallb lockless ev = true.
Proof.
  unfold eh_comp_thread_reap, eh_update_complete_index, eh_process_completions.
  destruct (_ =? _); [by intros [= <- <-]|].
  destruct (eh_process_completions_loop _ _ _ _) as [[[r s1] ev1]|] eqn:E; [|done].
  intros [= <- <-]. by eapply eh_process_completions_loop_lockless.
Qed.

Lemma eh_comp_thread_error_lockless fuel s s' ev :
  eh_comp_thread_error fuel s = Some (s', ev) -> forallb lockless ev = true.
Proof.
  unfold eh_comp_thread_error, eh_abort_incomplete_descriptors.
  destruct (negb _); [|by intros [= <- <-]].
  destruct (eh_abort_loop _ _ _ _) as [[s1 ev1]|] eqn:E; [|done].
  intros [= <- <-]. simpl. by eapply eh_abort_loop_lockless.
Qed.

Lemma step_locks o y y' :
  locks_after [] (trace y) = Some [] ->
  step o y = Some y' ->
  locks_after [] (trace y') = Some [].
Proof.
  intros Hl Hstep. unfold step in Hstep. destruct o as [page tok| | | | | |].
  - pose proof (eh_compress_page_try_locks (dev y) page tok) as Ht.
    destruct (eh_compress_page_try (dev y) page tok) as [[r s1|] ev1];
      injection Hstep as <-; simpl; by rewrite (locks_after_app _ _ _ _ Hl).
  - destruct (hw_complete _ _ _ _ _); [|done]. by injection Hstep as <-.
  - destruct (_ && _); [|done].
    destruct (eh_comp_thread_reap _ _) as [[s' ev]|] eqn:E; [|done].
    injection Hstep as <-. simpl. rewrite (locks_after_app _ _ _ _ Hl).
    apply locks_after_lockless. by eapply eh_comp_thread_reap_lockless.
  - destruct (bool_decide _); [|done].
    destruct (eh_comp_thread_error _ _) as [[s' ev]|] eqn:E; [|done].
    injection Hstep as <-. simpl. rewrite (locks_after_app _ _ _ _ Hl).
    apply locks_after_lockless. by eapply eh_comp_thread_error_lockless.
  - destruct (eh_decompress_page _ _ _ _ _ _ _ _) as [[ret ev]|] eqn:E; [|done].
    injection Hstep as <-. simpl. rewrite (locks_after_app _ _ _ _ Hl).
    by eapply eh_decompress_page_locks.
  - pose proof (eh_suspend_locks (dev y)) as Hs.
    destruct (eh_suspend (dev y)) as [[ret s'] ev]. injection Hstep as <-.
    simpl. by rewrite (locks_after_app _ _ _ _ Hl).
  - destruct (suspended (dev y)); [|done].
    injection Hstep as <-. simpl. by rewrite (locks_after_app _ _ _ _ Hl).
Qed.

(** X7. Lock discipline.  Whatever the driver and the engine do, the locks
    are taken in one order, [fifo_prod_lock] before the lock of any
    command set and the locks of the command sets by increasing index,
    no lock is taken while it is held, locks are given back last taken
    first, every completion callback is made with no lock held, and no
    entry point returns with a lock held.  The same holds for a whole
    call of [eh_compress_page], however often it has to wait and
    retry. *)
Theorem lock_discipline fifo_size n cbufs dbufs ops y :
  run ops (initial_system fifo_size n cbufs dbufs) = Some y ->
  locks_after [] (trace y) = Some [] /\
  forall others page priv ret s' ev,
    eh_compress_page others (dev y) page priv = Some (ret, s', ev) ->
    locks_after [] (trace y ++ ev) = Some [].
Proof.
  intros Hrun.
  assert (Hgen : forall ops y0, locks_after [] (trace y0) = Some [] ->
                   run ops y0 = Some y -> locks_after [] (trace y) = Some []).
  { clear. induction ops as [|o ops IH]; intros y0 Hl; simpl.
    - by intros [= <-].
    - destruct (step o y0) as [y1|] eqn:E; [|done].
      apply IH. by eapply step_locks. }
  assert (Hl : locks_after [] (trace y) = Some [])
    by exact (Hgen ops (initial_system fifo_size n cbufs dbufs) eq_refl Hrun).
  split; [done|].
  intros others page priv ret s' ev Hc.
  rewrite (locks_after_app _ _ _ _ Hl). by eapply eh_compress_page_locks.
Qed.

(** * Bring-up and tear-down *)

Lemma held_after_app ev1 : forall held held1 ev2,
  held_after held ev1 = Some held1 ->
  held_after held (ev1 ++ ev2) = held_after held1 ev2.
Proof.
  induction ev1 as [|e ev1 IH]; intros held held1 ev2 H1; simpl in *.
  - by injection H1 as ->.
  - destruct e; try (by apply IH).
    destruct (decide (r ∈ held)); [by apply IH|done].
Qed.

Lemma remove_first_perm r l : r ∈ l -> l ≡ₚ r :: remove_first r l.
Proof.
  induction l as [|x l IH]; intros Hin.
  - by apply elem_of_nil in Hin.
  - simpl. destruct (decide (x = r)) as [->|Hne]; [done|].
    apply elem_of_cons in Hin as [->|Hin]; [done|].
    rewrite (IH Hin) at 1. apply Permutation_swap.
Qed.

Lemma remove_first_perm_proper r l1 l2 :
  l1 ≡ₚ l2 -> r ∈ l1 -> remove_first r l1 ≡ₚ remove_first r l2.
Proof.
  intros Hp Hin. apply (Permutation_cons_inv (a := r)).
  rewrite <- !remove_first_perm; [done| |done]. by rewrite <- Hp.
Qed.

(** Only the multiset of the resources held matters. *)
Lemma held_after_perm ev : forall h1 h2 h1',
  h1 ≡ₚ h2 ->
  held_after h1 ev = Some h1' ->
  exists h2', held_after h2 ev = Some h2' /\ h2' ≡ₚ h1'.
Proof.
  induction ev as [|e ev IH]; intros h1 h2 h1' Hp Hh; simpl in *.
  - injection Hh as <-. exists h2. split; [done|by symmetry].
  - destruct e; try (by eapply IH).
    + eapply IH; [|done]. by constructor.
    + destruct (decide (r ∈ h1)) as [Hin|]; [|done].
      destruct (decide (r ∈ h2)) as [|Hn]; [|by rewrite <- Hp in Hn].
      eapply IH; [|done]. by apply remove_first_perm_proper.
Qed.

Lemma held_after_acquire rs : forall h,
  held_after h (map KAcquire rs) = Some (reverse rs ++ h).
Proof.
  induction rs as [|r rs IH]; intros h; [done|].
  simpl. rewrite IH, reverse_cons, <- app_assoc. done.
Qed.

(** Releasing, in any order, resources that are held. *)
Lemma held_after_release rs : forall h h0,
  h ≡ₚ rs ++ h0 ->
  exists h', held_after h (map KRelease rs) = Some h' /\ h' ≡ₚ h0.
Proof.
  induction rs as [|r rs IH]; intros h h0 Hp; simpl in *.
  - eauto.
  - assert (Hin : r ∈ h) by (rewrite Hp; left).
    destruct (decide (r ∈ h)); [|done].
    apply IH. apply (Permutation_cons_inv (a := r)).
    by rewrite <- remove_first_perm.
Qed.

Lemma held_after_other e ev h :
  match e with KAcquire _ | KRelease _ => False | _ => True end ->
  held_after h (e :: ev) = held_after h ev.
Proof. by destruct e. Qed.

Lemma pages_of_ext b1 b2 idx :
  (forall i, i ∈ idx -> b1 !!! Z.to_nat i = b2 !!! Z.to_nat i) ->
  pages_of b1 idx = pages_of b2 idx.
Proof.
  induction idx as [|i idx IH]; intros He; [done|].
  unfold pages_of in *. simpl. rewrite (He i) by left.
  f_equal. apply IH. intros j Hj. apply He. by right.
Qed.

(** The loop that frees the pages of an array. *)
Lemma free_buffers_spec n : forall a buffers,
  0 <= a ->
  (Z.to_nat a + n <= length buffers)%nat ->
  exists b',
    free_buffers (seqZ a (Z.of_nat n)) buffers =
      (b', map KRelease (pages_of buffers (seqZ a (Z.of_nat n)))) /\
    length b' = length buffers /\
    pages_of b' (seqZ a (Z.of_nat n)) = [] /\
    (forall j, 0 <= j < a -> b' !!! Z.to_nat j = buffers !!! Z.to_nat j).
Proof.
  induction n as [|n IH]; intros a buffers Ha Hlen.
  - exists buffers. done.
  - rewrite seqZ_cons by lia.
    replace (Z.pred (Z.of_nat (S n))) with (Z.of_nat n) by lia.
    simpl free_buffers. unfold pages_of at 1. simpl flat_map.
    fold (pages_of buffers (seqZ (Z.succ a) (Z.of_nat n))).
    destruct (Z.eqb_spec (buffers !!! Z.to_nat a) NULL) as [Hnull|Hp].
    + destruct (IH (Z.succ a) buffers ltac:(lia) ltac:(lia))
        as (b' & Hf & Hlen' & Hclr & Hkeep).
      exists b'. rewrite Hf. split; [done|]. split; [done|]. split.
      * unfold pages_of in *. simpl. rewrite Hkeep by lia.
        rewrite Hnull. simpl. done.
      * intros j Hj. apply Hkeep. lia.
    + destruct (IH (Z.succ a) (<[Z.to_nat a := NULL]> buffers) ltac:(lia))
        as (b' & Hf & Hlen' & Hclr & Hkeep); [rewrite length_insert; lia|].
      exists b'. rewrite Hf.
      assert (Hext : pages_of (<[Z.to_nat a := NULL]> buffers)
                       (seqZ (Z.succ a) (Z.of_nat n)) =
                     pages_of buffers (seqZ (Z.succ a) (Z.of_nat n))).
      { apply pages_of_ext. intros i Hi. apply elem_of_seqZ in Hi.
        apply list_lookup_total_insert_ne. lia. }
      rewrite Hext. split; [done|]. split; [by rewrite Hlen', length_insert|].
      split.
      * unfold pages_of in *. simpl. rewrite Hkeep by lia.
        rewrite list_lookup_total_insert_eq by lia. simpl. done.
      * intros j Hj. rewrite Hkeep by lia.
        apply list_lookup_total_insert_ne. lia.
Qed.

(** The loop that fills an array with pages: it stops at the first
    page it cannot get, having recorded every page it got. *)
Lemma alloc_buffers_spec page n : forall a buffers,
  0 <= a ->
  (Z.to_nat a + n <= length buffers)%nat ->
  (forall j, a <= j < a + Z.of_nat n -> buffers !!! Z.to_nat j = NULL) ->
  exists ok b' m,
    alloc_buffers page (seqZ a (Z.of_nat n)) buffers =
      (ok, b', map (fun i => KAcquire (ResPage (page i))) (seqZ a (Z.of_nat m))) /\
    (m <= n)%nat /\
    (forall i, a <= i < a + Z.of_nat m -> page i <> NULL) /\
    (if ok then m = n else page (a + Z.of_nat m) = NULL /\ (m < n)%nat) /\
    length b' = length buffers /\
    pages_of b' (seqZ a (Z.of_nat n)) =
      map (fun i => ResPage (page i)) (seqZ a (Z.of_nat m)) /\
    (forall i, a <= i < a + Z.of_nat m -> b' !!! Z.to_nat i = page i) /\
    (forall j, 0 <= j < a -> b' !!! Z.to_nat j = buffers !!! Z.to_nat j).
Proof.
  induction n as [|n IH]; intros a buffers Ha Hlen Hnull.
  - exists true, buffers, 0%nat. simpl. repeat split; try done; lia.
  - rewrite seqZ_cons by lia.
    replace (Z.pred (Z.of_nat (S n))) with (Z.of_nat n) by lia.
    simpl alloc_buffers.
    destruct (Z.eqb_spec (page a) NULL) as [Hfail|Hp].
    + exists false, buffers, 0%nat. simpl. rewrite Z.add_0_r.
      split; [done|]. split; [lia|]. split; [intros; lia|].
      split; [split; [done|lia]|].
      split; [done|]. split; [|split; [intros; lia|done]].
      assert (Hall : forall l,
                (forall j, j ∈ l -> buffers !!! Z.to_nat j = NULL) ->
                pages_of buffers l = []).
      { induction l as [|j l IHl]; intros Hl; [done|].
        unfold pages_of in *. simpl. rewrite (Hl j) by left. simpl.
        apply IHl. intros j' Hj'. apply Hl. by right. }
      apply (Hall (a :: seqZ (Z.succ a) (Z.of_nat n))).
      intros j Hj. apply Hnull. apply elem_of_cons in Hj as [->|Hj]; [lia|].
      apply elem_of_seqZ in Hj. lia.
    + destruct (IH (Z.succ a) (<[Z.to_nat a := page a]> buffers) ltac:(lia))
        as (ok & b' & m & Hf & Hm & Hpg & Hok & Hlen' & Hpages & Hgot & Hkeep).
      { rewrite length_insert. lia. }
      { intros j Hj. rewrite list_lookup_total_insert_ne by lia. apply Hnull. lia. }
      exists ok, b', (S m). rewrite Hf.
      rewrite (seqZ_cons a (Z.of_nat (S m))) by lia.
      replace (Z.pred (Z.of_nat (S m))) with (Z.of_nat m) by lia.
      split; [done|]. split; [lia|]. split.
      { intros i Hi. destruct (Z.eq_dec i a) as [->|]; [done|]. apply Hpg. lia. }
      split.
      { destruct ok; [lia|]. destruct Hok as [Hz Hlt]. split; [|lia].
        replace (a + Z.of_nat (S m)) with (Z.succ a + Z.of_nat m) by lia. done. }
      split; [by rewrite Hlen', length_insert|].
      assert (Ha' : b' !!! Z.to_nat a = page a).
      { rewrite Hkeep by lia. apply list_lookup_total_insert_eq. lia. }
      split; [|split].
      * unfold pages_of in *. simpl. rewrite Ha'.
        destruct (Z.eqb_spec (page a) NULL); [done|]. simpl. by rewrite Hpages.
      * intros i Hi. destruct (Z.eq_dec i a) as [->|]; [done|]. apply Hgot. lia.
      * intros j Hj. rewrite Hkeep by lia.
        apply list_lookup_total_insert_ne. lia.
Qed.

Lemma seqZ_to_nat a n : seqZ a n = seqZ a (Z.of_nat (Z.to_nat n)).
Proof.
  destruct (Z.le_gt_cases 0 n).
  - by rewrite Z2Nat.id.
  - replace (Z.to_nat n) with 0%nat by lia. by rewrite !seqZ_nil by lia.
Qed.

(** [eh_deinit_compression] gives back exactly what the compression
    side of the structure records, and leaves it recording nothing. *)
Lemma eh_deinit_compression_spec d :
  (m_compr_buffers d <> NULL ->
   (Z.to_nat (m_fifo_size d) <= length (m_compr_pages d))%nat) ->
  let r := eh_deinit_compression d in
  r.2 = map KRelease (holds_compression d) /\
  r.1 = set_m_fifo_alloc NULL
          (set_m_completions NULL
             (if m_compr_buffers d =? NULL then d else set_m_compr_buffers NULL [] d)) /\
  holds_compression r.1 = [].
Proof.
  intros Hlen. unfold eh_deinit_compression, holds_compression.
  destruct d as [q rg mb dc fs cmpl fa cb pages du db irq th st].
  unfold set_m_fifo_alloc, set_m_completions, set_m_compr_buffers.
  simpl in *.
  destruct (Z.eqb_spec cb NULL) as [Hcb|Hcb].
  - simpl. destruct (Z.eqb_spec cmpl NULL) as [Hc|Hc]; simpl;
      destruct (Z.eqb_spec fa NULL) as [Hf|Hf]; simpl; subst;
      rewrite ?Z.eqb_refl; done.
  - rewrite (seqZ_to_nat 0 fs).
    destruct (free_buffers_spec (Z.to_nat fs) 0 pages ltac:(lia))
      as (b' & Hfree & _); [specialize (Hlen Hcb); lia|].
    rewrite Hfree. simpl.
    destruct (Z.eqb_spec cmpl NULL) as [Hc|Hc]; simpl;
      destruct (Z.eqb_spec fa NULL) as [Hf|Hf]; simpl; subst;
      rewrite ?Z.eqb_refl, ?map_app, ?app_nil_r, <- ?app_assoc; done.
Qed.

Lemma eh_deinit_decompression_spec d :
  (Z.to_nat (m_decompr_cmd_count d) <= length (m_decompr_buffers d))%nat ->
  let r := eh_deinit_decompression d in
  r.2 = map KRelease (holds_decompression d) /\
  holds_decompression r.1 = [] /\
  holds_compression r.1 = holds_compression d /\
  length (m_decompr_buffers r.1) = length (m_decompr_buffers d) /\
  m_decompr_cmd_used r.1 = NULL /\
  m_decompr_cmd_count r.1 = m_decompr_cmd_count d /\
  m_compr_buffers r.1 = m_compr_buffers d /\
  m_compr_pages r.1 = m_compr_pages d /\
  m_fifo_size r.1 = m_fifo_size d /\
  m_regs r.1 = m_regs d /\ m_error_irq r.1 = m_error_irq d /\
  m_comp_thread r.1 = m_comp_thread d /\ m_stats r.1 = m_stats d /\
  m_quirks r.1 = m_quirks d /\ m_completions r.1 = m_completions d /\
  m_fifo_alloc r.1 = m_fifo_alloc d.
Proof.
  intros Hlen. unfold eh_deinit_decompression, holds_decompression, holds_compression.
  destruct d as [q rg mb dc fs cmpl fa cb pages du db irq th st].
  unfold set_m_decompr_cmd_used, set_m_decompr_buffers. simpl in *.
  destruct (free_buffers_spec (Z.to_nat dc) 0 db ltac:(lia) ltac:(lia))
    as (b' & Hfree & Hlen' & Hclr & _).
  rewrite <- (seqZ_to_nat 0 dc) in Hfree, Hclr.
  rewrite Hfree. simpl.
  destruct (Z.eqb_spec du NULL) as [Hu|Hu]; simpl;
    rewrite Hclr, ?map_app, ?app_nil_r; subst; rewrite ?Z.eqb_refl; done.
Qed.

#[local] Arguments holds_compression : simpl never.
#[local] Arguments holds_decompression : simpl never.
#[local] Arguments eh_deinit_compression : simpl never.
#[local] Arguments eh_deinit_decompression : simpl never.
#[local] Arguments held_after : simpl never.

(** Acquisitions followed by the release of what the structure records,
    when that is what was acquired. *)
Lemma held_after_undo acq rel tl h :
  rel ≡ₚ acq ->
  Forall (fun e => match e with KAcquire _ | KRelease _ => False | _ => True end) tl ->
  exists h', held_after h (map KAcquire acq ++ map KRelease rel ++ tl) = Some h' /\
             h' ≡ₚ h.
Proof.
  intros Hp Htl.
  rewrite (held_after_app _ _ _ _ (held_after_acquire acq h)).
  destruct (held_after_release rel (reverse acq ++ h) h) as (h' & Hr & Hh').
  { by rewrite reverse_Permutation, Hp. }
  rewrite (held_after_app _ _ _ _ Hr).
  exists h'. split; [|done]. clear Hr. induction Htl as [|e tl He _ IH]; [done|].
  by rewrite held_after_other.
Qed.

Lemma holds_compression_eq d :
  holds_compression d =
  (if m_compr_buffers d =? NULL then []
   else pages_of (m_compr_pages d) (seqZ 0 (m_fifo_size d)) ++
        [ResMem (m_compr_buffers d)]) ++
  (if m_completions d =? NULL then [] else [ResMem (m_completions d)]) ++
  (if m_fifo_alloc d =? NULL then [] else [ResMem (m_fifo_alloc d)]).
Proof. done. Qed.

Lemma eh_init_compression_spec e d fifo_size :
  m_completions d = NULL -> m_fifo_alloc d = NULL -> m_compr_buffers d = NULL ->
  let r := eh_init_compression e d fifo_size in
  let all_ok :=
    env_completions e <> NULL /\ env_fifo_alloc e <> NULL /\
    env_compr_buffers e <> NULL /\
    forall i, 0 <= i < fifo_size -> env_compr_page e i <> NULL in
  (forall h, exists h', held_after h r.2 = Some h' /\
                        h' ≡ₚ holds_compression r.1.2 ++ h) /\
  ((all_ok /\
    r.1.1 = 0 /\
    m_completions r.1.2 = env_completions e /\
    m_fifo_alloc r.1.2 = env_fifo_alloc e /\
    m_compr_buffers r.1.2 = env_compr_buffers e /\
    length (m_compr_pages r.1.2) = Z.to_nat fifo_size /\
    (forall i, 0 <= i < fifo_size ->
       m_compr_pages r.1.2 !!! Z.to_nat i = env_compr_page e i)) \/
   (~ all_ok /\
    r.1.1 = - ENOMEM /\ holds_compression r.1.2 = [] /\
    m_completions r.1.2 = NULL /\ m_fifo_alloc r.1.2 = NULL /\
    m_compr_buffers r.1.2 = NULL)) /\
  m_fifo_size r.1.2 = fifo_size /\
  m_quirks r.1.2 = m_quirks d /\ m_regs r.1.2 = m_regs d /\
  m_max_buffer_count r.1.2 = m_max_buffer_count d /\
  m_decompr_cmd_count r.1.2 = m_decompr_cmd_count d /\
  m_decompr_cmd_used r.1.2 = m_decompr_cmd_used d /\
  m_decompr_buffers r.1.2 = m_decompr_buffers d /\
  m_error_irq r.1.2 = m_error_irq d /\
  m_comp_thread r.1.2 = m_comp_thread d /\ m_stats r.1.2 = m_stats d.
Proof.
  destruct d as [q rg mb dc fs cmpl fa cb pages du db irq th st].
  destruct e as [io bm cmds ecmpl efa ecb epage edu edpage gctrl rirq kth est].
  simpl. intros -> -> ->.
  unfold eh_init_compression, set_m_fifo_size, set_m_completions, set_m_fifo_alloc.
  simpl.
  destruct (Z.eqb_spec ecmpl NULL) as [Hc|Hc].
  { simpl. rewrite holds_compression_eq. simpl. rewrite Hc. simpl.
    split; [intros h; by exists h|].
    split; [right; split; [intros (? & _); done|done]|done]. }
  destruct (Z.eqb_spec efa NULL) as [Hf|Hf].
  { match goal with |- context [eh_deinit_compression ?x] =>
      pose proof (eh_deinit_compression_spec x ltac:(done)) as (Hev & Hd & Hh);
      rewrite (holds_compression_eq x) in Hev;
      destruct (eh_deinit_compression x) as [d' ev'] end.
    simpl in Hev, Hd. rewrite Hf in Hev.
    destruct (Z.eqb_spec ecmpl NULL); [done|]. simpl in Hev, Hh |- *.
    split.
    { intros h. rewrite Hh, Hev. simpl app.
      apply (held_after_undo [ResMem ecmpl] [ResMem ecmpl] [KPrErr]); [done|].
      by repeat constructor. }
    subst d'. split; [right; split; [intros (? & ? & _); done|done]|done]. }
  destruct (Z.eqb_spec ecb NULL) as [Hb|Hb].
  { unfold set_m_compr_buffers. simpl.
    match goal with |- context [eh_deinit_compression ?x] =>
      pose proof (eh_deinit_compression_spec x ltac:(done)) as (Hev & Hd & Hh);
      rewrite (holds_compression_eq x) in Hev;
      destruct (eh_deinit_compression x) as [d' ev'] end.
    simpl in Hev, Hd.
    destruct (Z.eqb_spec ecmpl NULL); [done|].
    destruct (Z.eqb_spec efa NULL); [done|]. simpl in Hev, Hh |- *.
    split.
    { intros h. rewrite Hh, Hev. simpl app.
      apply (held_after_undo [ResMem ecmpl; ResMem efa] [ResMem ecmpl; ResMem efa]
               [KPrErr]); [done|].
      by repeat constructor. }
    subst d'. split; [right; split; [intros (? & ? & ? & _); done|done]|done]. }
  unfold set_m_compr_buffers. simpl.
  rewrite (seqZ_to_nat 0 fifo_size).
  destruct (alloc_buffers_spec epage (Z.to_nat fifo_size) 0
              (replicate (Z.to_nat fifo_size) NULL) ltac:(lia))
    as (ok & b' & m & Ha & Hm & Hpg & Hok & Hlen & Hpages & Hgot & _).
  { rewrite length_replicate. lia. }
  { intros j Hj. apply lookup_total_replicate_2. lia. }
  rewrite Ha. simpl. rewrite length_replicate in Hlen.
  set (acq := [ResMem ecmpl; ResMem efa; ResMem ecb] ++
              map (fun i => ResPage (epage i)) (seqZ 0 (Z.of_nat m))).
  assert (Hacq : KAcquire (ResMem ecmpl) :: KAcquire (ResMem efa) ::
                 KAcquire (ResMem ecb) ::
                 map (fun i => KAcquire (ResPage (epage i))) (seqZ 0 (Z.of_nat m)) =
                 map KAcquire acq).
  { subst acq. rewrite map_app, map_map. done. }
  assert (Hholds : forall d0,
            m_compr_buffers d0 = ecb -> m_completions d0 = ecmpl ->
            m_fifo_alloc d0 = efa -> m_compr_pages d0 = b' ->
            m_fifo_size d0 = fifo_size ->
            holds_compression d0 ≡ₚ acq).
  { intros d0 H1 H2 H3 H4 H5. rewrite holds_compression_eq, H1, H2, H3, H4, H5.
    destruct (Z.eqb_spec ecb NULL); [done|].
    destruct (Z.eqb_spec ecmpl NULL); [done|].
    destruct (Z.eqb_spec efa NULL); [done|].
    rewrite (seqZ_to_nat 0 fifo_size), Hpages. subst acq.
    rewrite (Permutation_app_comm _ [ResMem ecb]). simpl.
    rewrite (Permutation_app_comm _ [ResMem ecmpl; ResMem efa]). simpl.
    rewrite perm_swap. constructor. apply perm_swap. }
  destruct ok.
  - subst m. simpl.
    split.
    { intros h. rewrite Hacq, held_after_acquire. eexists. split; [done|].
      rewrite reverse_Permutation. apply Permutation_app_tail.
      symmetry. by apply Hholds. }
    split; [left|done].
    repeat split; try done.
    + intros i Hi. apply Hpg. lia.
    + intros i Hi. apply Hgot. lia.
  - destruct Hok as [Hz Hlt].
    match goal with |- context [eh_deinit_compression ?x] =>
      pose proof (eh_deinit_compression_spec x) as (Hev & Hd & Hh);
      [simpl; intros _; lia|];
      pose proof (Hholds x eq_refl eq_refl eq_refl eq_refl eq_refl) as Hx;
      destruct (eh_deinit_compression x) as [d' ev'];
      set (dmid := x) in *
    end.
    simpl in Hev, Hd, Hh |- *.
    split.
    { intros h. rewrite Hh, Hev.
      match goal with |- context [held_after h ?evs] =>
        replace evs with (map KAcquire acq ++
                          map KRelease (holds_compression dmid) ++ [KPrErr])
          by (rewrite <- Hacq; done)
      end.
      apply (held_after_undo acq (holds_compression dmid) [KPrErr]); [done|].
      by repeat constructor. }
    subst d'. destruct (Z.eqb_spec ecb NULL); [done|].
    split; [right; split; [|done]|done].
    intros (_ & _ & _ & Hall). apply (Hall (Z.of_nat m)); [lia|done].
Qed.

Lemma holds_decompression_eq d :
  holds_decompression d =
  pages_of (m_decompr_buffers d) (seqZ 0 (m_decompr_cmd_count d)) ++
  (if m_decompr_cmd_used d =? NULL then [] else [ResMem (m_decompr_cmd_used d)]).
Proof. done. Qed.

Lemma pages_of_null buffers l :
  (forall j, j ∈ l -> buffers !!! Z.to_nat j = NULL) -> pages_of buffers l = [].
Proof.
  induction l as [|j l IHl]; intros Hl; [done|].
  unfold pages_of in *. simpl. rewrite (Hl j) by left. simpl.
  apply IHl. intros j' Hj'. apply Hl. by right.
Qed.

Lemma eh_init_decompression_spec e d :
  (Z.to_nat (m_decompr_cmd_count d) <= length (m_decompr_buffers d))%nat ->
  (forall j, 0 <= j < m_decompr_cmd_count d ->
     m_decompr_buffers d !!! Z.to_nat j = NULL) ->
  let r := eh_init_decompression e d in
  let all_ok :=
    env_decompr_cmd_used e <> NULL /\
    forall i, 0 <= i < m_decompr_cmd_count d -> env_decompr_page e i <> NULL in
  (forall h, exists h', held_after h r.2 = Some h' /\
                        h' ≡ₚ holds_decompression r.1.2 ++ h) /\
  ((all_ok /\
    r.1.1 = 0 /\ m_decompr_cmd_used r.1.2 = env_decompr_cmd_used e /\
    (forall i, 0 <= i < m_decompr_cmd_count d ->
       m_decompr_buffers r.1.2 !!! Z.to_nat i = env_decompr_page e i)) \/
   (~ all_ok /\ r.1.1 = - ENOMEM /\ holds_decompression r.1.2 = [])) /\
  length (m_decompr_buffers r.1.2) = length (m_decompr_buffers d) /\
  holds_compression r.1.2 = holds_compression d /\
  m_decompr_cmd_count r.1.2 = m_decompr_cmd_count d /\
  m_compr_buffers r.1.2 = m_compr_buffers d /\
  m_compr_pages r.1.2 = m_compr_pages d /\
  m_fifo_size r.1.2 = m_fifo_size d /\
  m_quirks r.1.2 = m_quirks d /\ m_regs r.1.2 = m_regs d /\
  m_error_irq r.1.2 = m_error_irq d /\
  m_comp_thread r.1.2 = m_comp_thread d /\ m_stats r.1.2 = m_stats d.
Proof.
  destruct d as [q rg mb dc fs cmpl fa cb pages du db irq th st].
  destruct e as [io bm cmds ecmpl efa ecb epage edu edpage gctrl rirq kth est].
  simpl. intros Hlen Hnull.
  unfold eh_init_decompression, set_m_decompr_cmd_used, set_m_decompr_buffers.
  simpl.
  destruct (Z.eqb_spec edu NULL) as [Hu|Hu].
  { simpl. rewrite holds_decompression_eq. simpl. rewrite Hu. simpl.
    rewrite pages_of_null
      by (intros j Hj; apply elem_of_seqZ in Hj; apply Hnull; lia).
    split; [intros h; by exists h|].
    split; [right; split; [intros (? & _); done|done]|done]. }
  rewrite (seqZ_to_nat 0 dc).
  destruct (alloc_buffers_spec edpage (Z.to_nat dc) 0 db ltac:(lia) ltac:(lia))
    as (ok & b' & m & Ha & Hm & Hpg & Hok & Hlen' & Hpages & Hgot & _).
  { intros j Hj. apply Hnull. lia. }
  rewrite Ha. simpl.
  set (acq := [ResMem edu] ++
              map (fun i => ResPage (edpage i)) (seqZ 0 (Z.of_nat m))).
  assert (Hacq : KAcquire (ResMem edu) ::
                 map (fun i => KAcquire (ResPage (edpage i))) (seqZ 0 (Z.of_nat m)) =
                 map KAcquire acq).
  { subst acq. rewrite map_app, map_map. done. }
  assert (Hholds : forall d0,
            m_decompr_cmd_used d0 = edu -> m_decompr_buffers d0 = b' ->
            m_decompr_cmd_count d0 = dc ->
            holds_decompression d0 ≡ₚ acq).
  { intros d0 H1 H2 H3. rewrite holds_decompression_eq, H1, H2, H3.
    destruct (Z.eqb_spec edu NULL); [done|].
    rewrite (seqZ_to_nat 0 dc), Hpages. subst acq.
    by rewrite (Permutation_app_comm _ [ResMem edu]). }
  destruct ok.
  - subst m. simpl.
    split.
    { intros h. rewrite Hacq, held_after_acquire. eexists. split; [done|].
      rewrite reverse_Permutation. apply Permutation_app_tail.
      symmetry. by apply Hholds. }
    split; [left|done].
    repeat split; try done.
    + intros i Hi. apply Hpg. lia.
    + intros i Hi. apply Hgot. lia.
  - destruct Hok as [Hz Hlt].
    match goal with |- context [eh_deinit_decompression ?x] =>
      pose proof (eh_deinit_decompression_spec x) as
        (Hev & Hh & Hhc & Hl & Hdu & Hdc & Hcb & Hcp & Hfs & Hrg & Hirq & Hth & Hst
         & Hq & _);
      [simpl; lia|];
      pose proof (Hholds x eq_refl eq_refl eq_refl) as Hx;
      destruct (eh_deinit_decompression x) as [d' ev'];
      set (dmid := x) in *
    end.
    simpl in Hev, Hh, Hhc, Hl, Hdu, Hdc, Hcb, Hcp, Hfs, Hrg, Hirq, Hth, Hst, Hq |- *.
    split.
    { intros h. rewrite Hh, Hev.
      match goal with |- context [held_after h ?evs] =>
        replace evs with (map KAcquire acq ++
                          map KRelease (holds_decompression dmid) ++ [])
          by (rewrite <- Hacq, app_nil_r; done)
      end.
      apply (held_after_undo acq (holds_decompression dmid) []); [done|].
      constructor. }
    split.
    { right. split; [|done].
      intros (_ & Hall). apply (Hall (Z.of_nat m)); [lia|done]. }
    split; [by rewrite Hl|]. rewrite Hhc.
    repeat split; done.
Qed.

(** * Reset of the engine *)

Lemma eh_reset_wait_spec gctrl left : forall count,
  let r := eh_reset_wait gctrl left count in
  (count <= r.1 <= count + left)%nat /\
  (forall n, (count <= n < r.1)%nat -> gctrl n <> 0) /\
  ((r.1 < count + left)%nat -> gctrl r.1 = 0) /\
  gctrl_reads r.2 = (if (r.1 <? count + left)%nat then S (r.1 - count) else left) /\
  sleeps r.2 = (r.1 - count)%nat /\
  Forall no_resource r.2.
Proof.
  induction left as [|left IH]; intros count; simpl.
  - split; [lia|]. split; [intros n Hn; lia|]. split; [lia|].
    split; [|split; [lia|constructor]].
    destruct (Nat.ltb_spec count (count + 0)); lia.
  - destruct (Z.eqb_spec (gctrl count) 0) as [Hz|Hnz]; simpl.
    + split; [lia|]. split; [intros n Hn; lia|]. split; [done|].
      split; [|split; [lia|by repeat constructor]].
      destruct (Nat.ltb_spec count (count + S left)); lia.
    + specialize (IH (S count)).
      destruct (eh_reset_wait gctrl left (S count)) as [c ev]. simpl in *.
      destruct IH as (Hr & Hnz' & Hzero & Hreads & Hsl & Hres).
      split; [lia|]. split; [|split; [|split; [|split]]].
      * intros n Hn. destruct (decide (n = count)) as [->|]; [done|].
        apply Hnz'. lia.
      * intros Hlt. apply Hzero. lia.
      * rewrite Hreads.
        destruct (Nat.ltb_spec c (S (count + left)));
          destruct (Nat.ltb_spec c (count + S left)); lia.
      * lia.
      * by repeat constructor.
Qed.

Lemma eh_reset_ret quirks gctrl :
  let r := eh_reset quirks gctrl in
  (r.1 = 0 \/ r.1 = 1) /\ Forall no_resource r.2.
Proof.
  unfold eh_reset.
  destruct (negb (Z.land quirks EH_QUIRK_IGNORE_GCTRL_RESET =? 0)).
  { split; [by left|constructor]. }
  pose proof (eh_reset_wait_spec gctrl EH_MAX_RESET_WAIT 0)
    as (_ & _ & _ & _ & _ & Hres).
  destruct (eh_reset_wait gctrl EH_MAX_RESET_WAIT 0) as [count ev].
  cbn [fst snd] in *.
  split; [destruct (count =? EH_MAX_RESET_WAIT)%nat; auto|by constructor].
Qed.

(** X8. [eh_reset] waits for [EH_REG_GCTRL] to read zero, for at most
    [EH_MAX_RESET_WAIT] reads: it returns 1 exactly when each of the
    first 100 reads gave something else than zero, and 0 otherwise,
    having slept once for every read that did not give zero.  With the
    quirk set it returns 0 without touching the register. *)
Theorem eh_reset_bounded quirks gctrl :
  let r := eh_reset quirks gctrl in
  (Z.land quirks EH_QUIRK_IGNORE_GCTRL_RESET <> 0 -> r = (0, [])) /\
  (Z.land quirks EH_QUIRK_IGNORE_GCTRL_RESET = 0 ->
   (r.1 = 1 <-> forall n, (n < EH_MAX_RESET_WAIT)%nat -> gctrl n <> 0) /\
   (r.1 = 0 <->
    exists n, (n < EH_MAX_RESET_WAIT)%nat /\ gctrl n = 0 /\
              (forall m, (m < n)%nat -> gctrl m <> 0) /\
              gctrl_reads r.2 = S n /\ sleeps r.2 = n) /\
   (gctrl_reads r.2 <= EH_MAX_RESET_WAIT)%nat /\
   (sleeps r.2 <= EH_MAX_RESET_WAIT)%nat) /\
  (r.1 = 0 \/ r.1 = 1) /\
  Forall no_resource r.2.
Proof.
  unfold eh_reset.
  destruct (Z.eqb_spec (Z.land quirks EH_QUIRK_IGNORE_GCTRL_RESET) 0) as [Hq|Hq];
    cbn [negb].
  2: { split; [done|]. split; [done|]. split; [by left|constructor]. }
  pose proof (eh_reset_wait_spec gctrl EH_MAX_RESET_WAIT 0)
    as (Hr & Hnz & Hzero & Hreads & Hsl & Hres).
  destruct (eh_reset_wait gctrl EH_MAX_RESET_WAIT 0) as [count ev].
  cbn [fst snd] in *. rewrite Nat.sub_0_r in Hreads, Hsl.
  rewrite Nat.add_0_l in Hr, Hzero, Hreads.
  change (gctrl_reads (KWriteGctrl :: ev)) with (gctrl_reads ev).
  change (sleeps (KWriteGctrl :: ev)) with (sleeps ev).
  split; [done|].
  assert (Hev : Forall no_resource (KWriteGctrl :: ev)) by (by constructor).
  destruct (Nat.eqb_spec count EH_MAX_RESET_WAIT) as [Hc|Hc].
  - split; [|split; [by right|done]].
    intros _. rewrite Hc in Hreads, Hnz, Hsl. rewrite Nat.ltb_irrefl in Hreads.
    split; [|split; [|lia]].
    + split; [|done]. intros _ n Hn. apply Hnz. lia.
    + split; [done|]. intros (n & Hn & Hz & _). exfalso. by apply (Hnz n); [lia|].
  - split; [|split; [by left|done]].
    intros _.
    assert (Hlt : (count < EH_MAX_RESET_WAIT)%nat) by lia.
    destruct (Nat.ltb_spec count EH_MAX_RESET_WAIT); [|lia].
    split; [|split; [|lia]].
    + split; [done|]. intros Hall. exfalso. apply (Hall count); [done|].
      by apply Hzero.
    + split; [|done]. intros _. exists count.
      split; [done|]. split; [by apply Hzero|]. split; [|done].
      intros m Hm. apply Hnz. lia.
Qed.

(** * Bring-up of the hardware side *)

#[local] Arguments eh_init_compression : simpl never.
#[local] Arguments eh_init_decompression : simpl never.
#[local] Arguments eh_reset : simpl never.

Lemma held_after_no_resource ev h :
  Forall no_resource ev -> held_after h ev = Some h.
Proof.
  induction 1 as [|e ev He _ IH]; [done|]. by rewrite held_after_other.
Qed.

Lemma held_after_release_tl rs tl h h0 :
  h ≡ₚ rs ++ h0 ->
  Forall no_resource tl ->
  exists h', held_after h (map KRelease rs ++ tl) = Some h' /\ h' ≡ₚ h0.
Proof.
  intros Hp Htl. destruct (held_after_release rs h h0 Hp) as (h' & Hr & Hh').
  exists h'. split; [|done].
  rewrite (held_after_app _ _ _ _ Hr). by apply held_after_no_resource.
Qed.

Lemma held_after_cons_acquire r ev h :
  held_after h (KAcquire r :: ev) = held_after (r :: h) ev.
Proof. done. Qed.

Lemma eh_deinit_compression_frame d :
  let d' := (eh_deinit_compression d).1 in
  m_error_irq d' = m_error_irq d /\ m_comp_thread d' = m_comp_thread d /\
  m_stats d' = m_stats d /\ m_regs d' = m_regs d /\ m_quirks d' = m_quirks d /\
  m_decompr_cmd_count d' = m_decompr_cmd_count d /\
  m_decompr_cmd_used d' = m_decompr_cmd_used d /\
  m_decompr_buffers d' = m_decompr_buffers d /\
  holds_decompression d' = holds_decompression d.
Proof.
  unfold eh_deinit_compression, holds_decompression.
  destruct d as [q rg mb dc fs cmpl fa cb pages du db irq th st]. simpl.
  destruct (cb =? NULL); [|destruct (free_buffers _ _)]; simpl;
    destruct (cmpl =? NULL); simpl; destruct (fa =? NULL); done.
Qed.

Lemma eh_hw_init_spec e d fifo_size regs quirks :
  mem_clean d (env_decompr_cmds e) ->
  let r := eh_hw_init e d fifo_size regs quirks in
  let features_ok := env_buf_max e <> 0 /\ env_decompr_cmds e <> 0 in
  let reset_ok := (eh_reset quirks (env_gctrl e)).1 = 0 in
  (forall h, exists h',
     held_after h r.2 = Some h' /\
     h' ≡ₚ (if r.1.1 =? 0
            then holds_decompression r.1.2 ++ holds_compression r.1.2 ++
                 [ResIomap (m_regs r.1.2)]
            else []) ++ h) /\
  ((env_ioremap e regs = NULL /\ r.1.1 = - ENOMEM) \/
   (env_ioremap e regs <> NULL /\ ~ features_ok /\ r.1.1 = - EINVAL) \/
   (env_ioremap e regs <> NULL /\ features_ok /\
    ~ compression_allocs_ok e fifo_size /\ r.1.1 = - EINVAL) \/
   (env_ioremap e regs <> NULL /\ features_ok /\
    compression_allocs_ok e fifo_size /\ ~ decompression_allocs_ok e /\
    r.1.1 = - EINVAL) \/
   (env_ioremap e regs <> NULL /\ features_ok /\
    compression_allocs_ok e fifo_size /\ decompression_allocs_ok e /\
    ~ reset_ok /\ r.1.1 = - ETIMEDOUT) \/
   (env_ioremap e regs <> NULL /\ features_ok /\
    compression_allocs_ok e fifo_size /\ decompression_allocs_ok e /\
    reset_ok /\ r.1.1 = 0 /\
    m_regs r.1.2 = env_ioremap e regs /\
    m_fifo_size r.1.2 = fifo_size /\
    m_compr_buffers r.1.2 <> NULL /\
    length (m_compr_pages r.1.2) = Z.to_nat fifo_size /\
    (forall i, 0 <= i < fifo_size ->
       m_compr_pages r.1.2 !!! Z.to_nat i = env_compr_page e i) /\
    m_decompr_cmd_count r.1.2 = env_decompr_cmds e /\
    (Z.to_nat (env_decompr_cmds e) <= length (m_decompr_buffers r.1.2))%nat /\
    (forall i, 0 <= i < env_decompr_cmds e ->
       m_decompr_buffers r.1.2 !!! Z.to_nat i = env_decompr_page e i))) /\
  m_error_irq r.1.2 = m_error_irq d /\
  m_comp_thread r.1.2 = m_comp_thread d /\
  m_stats r.1.2 = m_stats d.
Proof.
  intros (Hc0 & Hf0 & Hb0 & Hlen0 & Hnull0). unfold eh_hw_init. cbv zeta.
  set (d0 := set_m_regs (env_ioremap e regs) (set_m_quirks quirks d)).
  change (m_regs d0) with (env_ioremap e regs).
  destruct (Z.eqb_spec (env_ioremap e regs) NULL) as [Hio|Hio].
  { cbn [fst snd]. change (- ENOMEM =? 0) with false. cbn iota.
    split; [intros h; by exists h|]. split; [by left|done]. }
  set (d1 := set_m_features (env_buf_max e) (env_decompr_cmds e) d0).
  change (m_max_buffer_count d1) with (env_buf_max e).
  change (m_decompr_cmd_count d1) with (env_decompr_cmds e).
  assert (Hio_undo : forall h tl, Forall no_resource tl ->
            exists h', held_after (ResIomap (env_ioremap e regs) :: h)
                         (KRelease (ResIomap (env_ioremap e regs)) :: tl) = Some h' /\
                       h' ≡ₚ h).
  { intros h tl Htl.
    apply (held_after_release_tl [ResIomap (env_ioremap e regs)] tl); done. }
  destruct (Z.eqb_spec (env_buf_max e) 0) as [Hbm|Hbm];
    [|destruct (Z.eqb_spec (env_decompr_cmds e) 0) as [Hdc|Hdc]]; cbn [orb].
  1,2: cbn [fst snd]; change (- EINVAL =? 0) with false; cbn iota;
       (split; [intros h; cbn [app];
                rewrite held_after_cons_acquire; apply Hio_undo; by repeat constructor|]);
       (split; [right; left; split; [done|split; [|done]]; intros [? ?]; done|done]).
  (* compression *)
  pose proof (eh_init_compression_spec e d1 fifo_size Hc0 Hf0 Hb0)
    as (Hheld1 & Hcase1 & Hfs1 & Hq1 & Hrg1 & _ & Hdc1 & Hdu1 & Hdb1 & Hirq1 & Hth1 & Hst1).
  destruct (eh_init_compression e d1 fifo_size) as [[r1 d2] ev1].
  cbn [fst snd] in *.
  destruct Hcase1 as [(Hok1 & -> & Hcmpl2 & Hfa2 & Hcb2 & Hlen2 & Hpg2)
                     |(Hno1 & -> & Hh2 & _)].
  2: { change (negb (- ENOMEM =? 0)) with true. cbn [fst snd].
       change (- EINVAL =? 0) with false. cbn iota.
       split.
       { intros h. cbn [app].
         rewrite held_after_cons_acquire.
         destruct (Hheld1 (ResIomap (env_ioremap e regs) :: h)) as (h1 & Hr1 & Hp1).
         rewrite (held_after_app _ _ _ _ Hr1). rewrite Hh2 in Hp1.
         destruct (held_after_release_tl [ResIomap (env_ioremap e regs)] [KPrErr]
                     h1 h) as (h2 & Hr2 & Hp2); [done|by repeat constructor|].
         by exists h2. }
       split; [|by rewrite Hirq1, Hth1, Hst1].
       right. right. left.
       split; [done|]. split; [done|]. split; [exact Hno1|done]. }
  change (negb (0 =? 0)) with false. cbn iota.
  (* decompression *)
  pose proof (eh_init_decompression_spec e d2) as Hspec2.
  rewrite Hdc1, Hdb1 in Hspec2. specialize (Hspec2 Hlen0 Hnull0).
  destruct Hspec2 as (Hheld2 & Hcase2 & Hlen3 & Hhc3 & Hdc3 & Hcb3 & Hcp3 & Hfs3
                      & Hq3 & Hrg3 & Hirq3 & Hth3 & Hst3).
  destruct (eh_init_decompression e d2) as [[r2 d3] ev2].
  cbn [fst snd] in *.
  assert (Hwf3 : m_compr_buffers d3 <> NULL ->
                 (Z.to_nat (m_fifo_size d3) <= length (m_compr_pages d3))%nat).
  { intros _. rewrite Hfs3, Hcp3, Hfs1, Hlen2. done. }
  destruct Hcase2 as [(Hok2 & -> & Hdu3 & Hpg3)|(Hno2 & -> & Hh3)].
  2: { change (negb (- ENOMEM =? 0)) with true. cbn iota.
       pose proof (eh_deinit_compression_spec d3 Hwf3) as (Hev4 & _ & _).
       destruct (eh_deinit_compression d3) as [d4 ev4] eqn:E4. cbn [fst snd] in *.
       change (- EINVAL =? 0) with false. cbn iota.
       split.
       { intros h. cbn [app].
         rewrite held_after_cons_acquire.
         destruct (Hheld1 (ResIomap (env_ioremap e regs) :: h)) as (h1 & Hr1 & Hp1).
         rewrite (held_after_app _ _ _ _ Hr1).
         destruct (Hheld2 h1) as (h2 & Hr2 & Hp2).
         rewrite (held_after_app _ _ _ _ Hr2). rewrite Hh3 in Hp2.
         rewrite Hev4, Hhc3.
         destruct (held_after_release (holds_compression d2) h2
                     (ResIomap (env_ioremap e regs) :: h)) as (h3 & Hr3 & Hp3).
         { by rewrite Hp2, Hp1. }
         rewrite (held_after_app _ _ _ _ Hr3).
         destruct (held_after_release_tl [ResIomap (env_ioremap e regs)] [KPrErr]
                     h3 h) as (h4 & Hr4 & Hp4); [done|by repeat constructor|].
         by exists h4. }
       pose proof (eh_deinit_compression_frame d3) as Hfr4.
       rewrite E4 in Hfr4. cbn [fst] in Hfr4.
       destruct Hfr4 as (Hirq4 & Hth4 & Hst4 & _).
       split; [|by rewrite Hirq4, Hth4, Hst4, Hirq3, Hth3, Hst3, Hirq1, Hth1, Hst1].
       right. right. right. left.
       split; [done|]. split; [done|]. split; [exact Hok1|]. split; [exact Hno2|done]. }
  change (negb (0 =? 0)) with false. cbn iota.
  (* reset *)
  rewrite Hq3, Hq1. change (m_quirks d1) with quirks.
  pose proof (eh_reset_ret quirks (env_gctrl e)) as (Hret & Hres).
  destruct (eh_reset quirks (env_gctrl e)) as [r3 ev3]. cbn [fst snd] in *.
  assert (Hwf3' : (Z.to_nat (m_decompr_cmd_count d3) <= length (m_decompr_buffers d3))%nat).
  { rewrite Hdc3, Hlen3. exact Hlen0. }
  destruct Hret as [->| ->].
  - change (negb (0 =? 0)) with false. cbn iota. cbn [fst snd].
    change (0 =? 0) with true. cbn iota.
    split.
    { intros h. cbn [app]. rewrite held_after_cons_acquire.
      destruct (Hheld1 (ResIomap (env_ioremap e regs) :: h)) as (h1 & Hr1 & Hp1).
      rewrite (held_after_app _ _ _ _ Hr1).
      destruct (Hheld2 h1) as (h2 & Hr2 & Hp2).
      rewrite (held_after_app _ _ _ _ Hr2).
      rewrite (held_after_app _ _ _ _ (held_after_no_resource ev3 h2 Hres)).
      exists h2. split; [by apply held_after_no_resource; repeat constructor|].
      rewrite Hp2, Hp1, Hhc3, Hrg3, Hrg1, <- !app_assoc.
      do 2 apply Permutation_app_head. done. }
    split; [|by rewrite Hirq3, Hth3, Hst3, Hirq1, Hth1, Hst1].
    do 5 right. rewrite Hrg3, Hrg1, Hfs3, Hfs1, Hcb3, Hcb2, Hcp3, Hdc3.
    split; [done|]. split; [done|]. split; [exact Hok1|]. split; [exact Hok2|].
    split; [done|]. split; [done|]. split; [done|]. split; [done|].
    split; [by destruct Hok1 as (_ & _ & ? & _)|].
    split; [done|]. split; [done|]. split; [done|].
    split; [by rewrite Hlen3|exact Hpg3].
  - change (negb (1 =? 0)) with true. cbn iota.
    pose proof (eh_deinit_decompression_spec d3 Hwf3')
      as (Hev4 & Hh4 & Hhc4 & _ & _ & _ & Hcb4 & Hcp4 & Hfs4 & _ & Hirq4 & Hth4 & Hst4 & _).
    destruct (eh_deinit_decompression d3) as [d4 ev4]. cbn [fst snd] in *.
    pose proof (eh_deinit_compression_spec d4) as (Hev5 & _ & _).
    { rewrite Hfs4, Hcp4, Hcb4. exact Hwf3. }
    pose proof (eh_deinit_compression_frame d4) as (Hirq5 & Hth5 & Hst5 & _).
    destruct (eh_deinit_compression d4) as [d5 ev5]. cbn [fst snd] in *.
    change (- ETIMEDOUT =? 0) with false. cbn iota.
    split.
    { intros h. cbn [app]. rewrite held_after_cons_acquire.
      destruct (Hheld1 (ResIomap (env_ioremap e regs) :: h)) as (h1 & Hr1 & Hp1).
      rewrite (held_after_app _ _ _ _ Hr1).
      destruct (Hheld2 h1) as (h2 & Hr2 & Hp2).
      rewrite (held_after_app _ _ _ _ Hr2).
      rewrite (held_after_app _ _ _ _ (held_after_no_resource ev3 h2 Hres)).
      rewrite Hev4, Hev5, Hhc4, Hhc3.
      destruct (held_after_release (holds_decompression d3) h2 h1)
        as (h3 & Hr3 & Hp3); [done|].
      rewrite (held_after_app _ _ _ _ Hr3).
      destruct (held_after_release (holds_compression d2) h3
                  (ResIomap (env_ioremap e regs) :: h)) as (h4 & Hr4 & Hp4).
      { by rewrite Hp3, Hp1. }
      rewrite (held_after_app _ _ _ _ Hr4).
      destruct (held_after_release_tl [ResIomap (env_ioremap e regs)] [KPrErr]
                  h4 h) as (h5 & Hr5 & Hp5); [done|by repeat constructor|].
      by exists h5. }
    split; [|by rewrite Hirq5, Hth5, Hst5, Hirq4, Hth4, Hst4, Hirq3, Hth3, Hst3,
                        Hirq1, Hth1, Hst1].
    do 4 right. left.
    split; [done|]. split; [done|]. split; [exact Hok1|]. split; [exact Hok2|].
    split; done.
Qed.

(** * Bring-up and tear-down as a whole *)

#[local] Arguments eh_hw_init : simpl never.

Lemma IS_ERR_nonzero p : IS_ERR p = true -> p <> 0.
Proof.
  unfold IS_ERR. intros H. apply andb_true_iff in H as [_ H].
  apply Z.ltb_lt in H. lia.
Qed.

Lemma eh_sw_init_spec e d eh_dev error_irq l :
  let r := eh_sw_init e d eh_dev error_irq l in
  let sw_ok := env_request_irq e = 0 /\ IS_ERR (env_kthread e) = false /\
               env_stats e <> NULL in
  ((sw_ok /\ r.1.1.1 = 0 /\ r.1.2 = l ++ [eh_dev] /\
    r.2 = map KAcquire [ResIrq (m_error_irq r.1.1.2);
                        ResThread (m_comp_thread r.1.1.2);
                        ResPercpu (m_stats r.1.1.2)]) \/
   (~ sw_ok /\ r.1.1.1 <> 0 /\ r.1.2 = l /\
    forall h, exists h', held_after h r.2 = Some h' /\ h' ≡ₚ h)) /\
  holds_compression r.1.1.2 = holds_compression d /\
  holds_decompression r.1.1.2 = holds_decompression d /\
  m_regs r.1.1.2 = m_regs d /\
  m_fifo_size r.1.1.2 = m_fifo_size d /\
  m_compr_buffers r.1.1.2 = m_compr_buffers d /\
  m_compr_pages r.1.1.2 = m_compr_pages d /\
  m_decompr_cmd_count r.1.1.2 = m_decompr_cmd_count d /\
  m_decompr_buffers r.1.1.2 = m_decompr_buffers d.
Proof.
  unfold eh_sw_init. cbv zeta.
  destruct (Z.eqb_spec (env_request_irq e) 0) as [Hirq|Hirq]; cbn [negb].
  2: { cbn [fst snd]. split; [|done]. right.
       split; [intros (? & _); done|]. split; [done|]. split; [done|].
       intros h. by exists h. }
  change (m_comp_thread (set_m_comp_thread (env_kthread e)
                           (set_m_error_irq error_irq d)))
    with (env_kthread e).
  change (m_error_irq (set_m_error_irq error_irq d)) with error_irq.
  destruct (IS_ERR (env_kthread e)) eqn:Hth.
  { cbn [fst snd]. split; [|done]. right.
    split; [intros (_ & ? & _); done|].
    split; [by apply IS_ERR_nonzero|]. split; [done|].
    intros h. apply (held_after_undo [ResIrq error_irq] [ResIrq error_irq] []);
      [done|constructor]. }
  change (m_stats (set_m_stats (env_stats e)
                     (set_m_comp_thread (env_kthread e)
                        (set_m_error_irq error_irq d))))
    with (env_stats e).
  destruct (Z.eqb_spec (env_stats e) NULL) as [Hst|Hst].
  { cbn [fst snd]. split; [|done]. right.
    split; [intros (_ & _ & ?); done|].
    split; [unfold ENOMEM; lia|]. split; [done|].
    intros h.
    apply (held_after_undo [ResIrq error_irq; ResThread (env_kthread e)]
             [ResThread (env_kthread e); ResIrq error_irq] []);
      [apply perm_swap|constructor]. }
  cbn [fst snd]. split; [|done]. left. done.
Qed.

Lemma eh_hw_deinit_spec d :
  (Z.to_nat (m_decompr_cmd_count d) <= length (m_decompr_buffers d))%nat ->
  (m_compr_buffers d <> NULL ->
   (Z.to_nat (m_fifo_size d) <= length (m_compr_pages d))%nat) ->
  (eh_hw_deinit d).2 =
  map KRelease (holds_decompression d ++ holds_compression d ++ [ResIomap (m_regs d)]).
Proof.
  intros Hwd Hwc. unfold eh_hw_deinit.
  pose proof (eh_deinit_decompression_spec d Hwd)
    as (Hev1 & _ & Hhc1 & _ & _ & _ & Hcb1 & Hcp1 & Hfs1 & Hrg1 & _).
  destruct (eh_deinit_decompression d) as [d1 ev1]. cbn [fst snd] in *.
  pose proof (eh_deinit_compression_spec d1) as (Hev2 & _ & _).
  { by rewrite Hcb1, Hfs1, Hcp1. }
  pose proof (eh_deinit_compression_frame d1) as (_ & _ & _ & Hrg2 & _).
  destruct (eh_deinit_compression d1) as [d2 ev2]. cbn [fst snd] in *.
  by rewrite Hev1, Hev2, Hhc1, Hrg2, Hrg1, !map_app.
Qed.

Lemma eh_deinit_spec d :
  (Z.to_nat (m_decompr_cmd_count d) <= length (m_decompr_buffers d))%nat ->
  (m_compr_buffers d <> NULL ->
   (Z.to_nat (m_fifo_size d) <= length (m_compr_pages d))%nat) ->
  (eh_deinit d).2 =
  map KRelease (holds_compression d ++ holds_decompression d ++
                [ResIrq (m_error_irq d); ResThread (m_comp_thread d);
                 ResPercpu (m_stats d); ResIomap (m_regs d)]).
Proof.
  intros Hwd Hwc. unfold eh_deinit.
  pose proof (eh_deinit_compression_spec d Hwc) as (Hev1 & _ & _).
  pose proof (eh_deinit_compression_frame d)
    as (Hirq1 & Hth1 & Hst1 & Hrg1 & _ & Hdc1 & _ & Hdb1 & Hhd1).
  destruct (eh_deinit_compression d) as [d1 ev1]. cbn [fst snd] in *.
  pose proof (eh_deinit_decompression_spec d1) as
    (Hev2 & _ & _ & _ & _ & _ & _ & _ & _ & Hrg2 & Hirq2 & Hth2 & Hst2 & _).
  { by rewrite Hdc1, Hdb1. }
  destruct (eh_deinit_decompression d1) as [d2 ev2]. cbn [fst snd] in *.
  rewrite Hev1, Hev2, Hhd1, Hrg2, Hirq2, Hth2, Hst2, Hrg1, Hirq1, Hth1, Hst1.
  by rewrite !map_app.
Qed.

Lemma held_after_nil_perm h ev :
  (exists h', held_after [] ev = Some h' /\ h' ≡ₚ h) ->
  h = [] -> held_after [] ev = Some [].
Proof.
  intros (h' & Hr & Hp) ->. apply Permutation_nil_r in Hp. by subst.
Qed.

(** X9. [eh_init_compression] either gets everything it asks for and
    returns 0, the structure recording exactly what was acquired, or it
    returns [-ENOMEM] having given back every page and every block it
    had got, with the pointers of the structure null again.  What a
    successful call acquired, [eh_deinit_compression] gives back, all of
    it and nothing twice; a second call of [eh_deinit_compression]
    frees nothing. *)
Theorem eh_init_compression_balanced e d fifo_size ret d' ev :
  m_completions d = NULL -> m_fifo_alloc d = NULL -> m_compr_buffers d = NULL ->
  eh_init_compression e d fifo_size = (ret, d', ev) ->
  ((compression_allocs_ok e fifo_size /\ ret = 0 /\
    (exists h, held_after [] ev = Some h /\ h ≡ₚ holds_compression d') /\
    m_completions d' = env_completions e /\
    m_fifo_alloc d' = env_fifo_alloc e /\
    m_compr_buffers d' = env_compr_buffers e /\
    length (m_compr_pages d') = Z.to_nat fifo_size /\
    (forall i, 0 <= i < fifo_size ->
       m_compr_pages d' !!! Z.to_nat i = env_compr_page e i) /\
    held_after [] (ev ++ (eh_deinit_compression d').2) = Some []) \/
   (~ compression_allocs_ok e fifo_size /\ ret = - ENOMEM /\
    held_after [] ev = Some [] /\
    m_completions d' = NULL /\ m_fifo_alloc d' = NULL /\
    m_compr_buffers d' = NULL)) /\
  (eh_deinit_compression (eh_deinit_compression d').1).2 = [].
Proof.
  intros Hc Hf Hb E.
  pose proof (eh_init_compression_spec e d fifo_size Hc Hf Hb)
    as (Hheld & Hcase & Hfs & _).
  rewrite E in Hheld, Hcase, Hfs. cbn [fst snd] in *.
  assert (Hwf : m_compr_buffers d' <> NULL ->
                (Z.to_nat (m_fifo_size d') <= length (m_compr_pages d'))%nat).
  { destruct Hcase as [(_ & _ & _ & _ & _ & Hl & _)|(_ & _ & _ & _ & _ & Hn)];
      [intros _; rewrite Hfs, Hl; done|done]. }
  pose proof (eh_deinit_compression_spec d' Hwf) as (Hev & Hd & Hh).
  split.
  - destruct Hcase as [(Hok & -> & H1 & H2 & H3 & H4 & H5)|(Hno & -> & Hh0 & H1 & H2 & H3)].
    + left. split; [exact Hok|]. split; [done|].
      destruct (Hheld []) as (h & Hr & Hp). rewrite app_nil_r in Hp.
      split; [by exists h|]. do 5 (split; [done|]).
      rewrite (held_after_app _ _ _ _ Hr), Hev.
      destruct (held_after_release (holds_compression d') h [])
        as (h' & Hr' & Hp'); [by rewrite app_nil_r|].
      rewrite Hr'. apply Permutation_nil_r in Hp'. by subst.
    + right. split; [exact Hno|]. split; [done|]. split; [|done].
      apply (held_after_nil_perm (holds_compression d' ++ [])); [apply Hheld|].
      by rewrite Hh0.
  - pose proof (eh_deinit_compression_spec (eh_deinit_compression d').1) as (Hev2 & _).
    { rewrite Hd. destruct (m_compr_buffers d' =? NULL) eqn:Hn; [|done].
      apply Z.eqb_eq in Hn. simpl. done. }
    by rewrite Hev2, Hh.
Qed.

(** X10. The outcomes of [eh_hw_init] on a fresh device structure.  It
    returns [-ENOMEM] when the registers cannot be mapped, [-EINVAL]
    when the engine reports no buffers or no decompression command
    sets and also when an allocation of [eh_init_compression] or
    [eh_init_decompression] fails, [-ETIMEDOUT] when the reset does not
    complete, and 0 otherwise.  On every failure all that was acquired
    has been given back, once; on success the structure records exactly
    what is held. *)
Theorem eh_hw_init_outcomes e d fifo_size regs quirks ret d' ev :
  mem_clean d (env_decompr_cmds e) ->
  eh_hw_init e d fifo_size regs quirks = (ret, d', ev) ->
  let features_ok := env_buf_max e <> 0 /\ env_decompr_cmds e <> 0 in
  let reset_ok := (eh_reset quirks (env_gctrl e)).1 = 0 in
  ((env_ioremap e regs = NULL /\ ret = - ENOMEM) \/
   (env_ioremap e regs <> NULL /\ ~ features_ok /\ ret = - EINVAL) \/
   (env_ioremap e regs <> NULL /\ features_ok /\
    ~ compression_allocs_ok e fifo_size /\ ret = - EINVAL) \/
   (env_ioremap e regs <> NULL /\ features_ok /\
    compression_allocs_ok e fifo_size /\ ~ decompression_allocs_ok e /\
    ret = - EINVAL) \/
   (env_ioremap e regs <> NULL /\ features_ok /\
    compression_allocs_ok e fifo_size /\ decompression_allocs_ok e /\
    ~ reset_ok /\ ret = - ETIMEDOUT) \/
   (env_ioremap e regs <> NULL /\ features_ok /\
    compression_allocs_ok e fifo_size /\ decompression_allocs_ok e /\
    reset_ok /\ ret = 0)) /\
  (ret <> 0 -> held_after [] ev = Some []) /\
  (ret = 0 ->
   exists h, held_after [] ev = Some h /\
             h ≡ₚ holds_decompression d' ++ holds_compression d' ++
                  [ResIomap (m_regs d')]).
Proof.
  intros Hclean E features_ok reset_ok.
  pose proof (eh_hw_init_spec e d fifo_size regs quirks Hclean) as (Hheld & Hcase & _).
  rewrite E in Hheld, Hcase. cbn [fst snd] in *.
  split; [|split].
  - destruct Hcase as [H|[H|[H|[H|[H|(H1 & H2 & H3 & H4 & H5 & H6 & _)]]]]].
    + left. exact H.
    + right. left. exact H.
    + do 2 right. left. exact H.
    + do 3 right. left. exact H.
    + do 4 right. left. exact H.
    + do 5 right. exact (conj H1 (conj H2 (conj H3 (conj H4 (conj H5 H6))))).
  - intros Hret. destruct (Z.eqb_spec ret 0); [done|].
    apply (held_after_nil_perm ([] ++ [])); [apply Hheld|done].
  - intros ->. destruct (Hheld []) as (h & Hr & Hp).
    exists h. split; [done|]. by rewrite app_nil_r in Hp.
Qed.

#[local] Arguments eh_sw_init : simpl never.
#[local] Arguments eh_hw_deinit : simpl never.
#[local] Arguments eh_deinit : simpl never.

Lemma eh_init_full_spec e d eh_dev fifo_size regs error_irq quirks l :
  mem_clean d (env_decompr_cmds e) ->
  let r := eh_init_full e d eh_dev fifo_size regs error_irq quirks l in
  (r.1.1.1 = 0 /\ r.1.2 = l ++ [eh_dev] /\
   eh_fifo_size_invalid fifo_size = false /\
   (exists h, held_after [] r.2 = Some h /\ h ≡ₚ holds_all r.1.1.2) /\
   (Z.to_nat (m_decompr_cmd_count r.1.1.2) <= length (m_decompr_buffers r.1.1.2))%nat /\
   (m_compr_buffers r.1.1.2 <> NULL ->
    (Z.to_nat (m_fifo_size r.1.1.2) <= length (m_compr_pages r.1.1.2))%nat) /\
   m_decompr_cmd_count r.1.1.2 = env_decompr_cmds e /\
   env_decompr_cmds e <> 0) \/
  (r.1.1.1 <> 0 /\ r.1.2 = l /\ held_after [] r.2 = Some []).
Proof.
  intros Hclean. unfold eh_init_full.
  destruct (eh_fifo_size_invalid fifo_size) eqn:Hfs.
  { right. cbn [fst snd]. split; [unfold EINVAL; lia|done]. }
  pose proof (eh_hw_init_spec e d fifo_size regs quirks Hclean)
    as (Hheld1 & Hcase1 & _).
  destruct (eh_hw_init e d fifo_size regs quirks) as [[r1 d1] ev1].
  cbn [fst snd] in *.
  destruct (Z.eqb_spec r1 0) as [->|Hr1]; cbn [negb].
  2: { right. cbn [fst snd]. split; [done|]. split; [done|].
       apply (held_after_nil_perm ([] ++ [])); [apply Hheld1|done]. }
  destruct Hcase1 as [(_ & ?)|[(_ & _ & ?)|[(_ & _ & _ & ?)|[(_ & _ & _ & _ & ?)
                     |[(_ & _ & _ & _ & _ & ?)|Hok]]]]]; try done.
  destruct Hok as (_ & [_ Hcmds] & _ & _ & _ & _ & Hrg & Hfsz & Hcb & Hlen & _ & Hdc & Hdl & _).
  pose proof (eh_sw_init_spec e d1 eh_dev error_irq l)
    as (Hcase2 & Hhc2 & Hhd2 & Hrg2 & Hfs2 & Hcb2 & Hcp2 & Hdc2 & Hdb2).
  destruct (eh_sw_init e d1 eh_dev error_irq l) as [[[r2 d2] l2] ev2].
  cbn [fst snd] in *.
  destruct (Hheld1 []) as (h1 & Hrun1 & Hp1). rewrite app_nil_r in Hp1.
  destruct Hcase2 as [(Hok2 & -> & -> & Hev2)|(Hno2 & Hr2 & -> & Hheld2)].
  - left. change (negb (0 =? 0)) with false. cbn iota. cbn [fst snd].
    split; [done|]. split; [done|]. split; [done|].
    split.
    { rewrite (held_after_app _ _ _ _ Hrun1), Hev2, held_after_acquire.
      eexists. split; [done|]. unfold holds_all.
      rewrite Hp1, Hhc2, Hhd2, Hrg2. done. }
    rewrite Hdc2, Hdb2, Hcb2, Hfs2, Hcp2, Hdc, Hfsz, Hlen. done.
  - right. destruct (Z.eqb_spec r2 0) as [|_]; [done|]. cbn [negb].
    pose proof (eh_hw_deinit_spec d2) as Hev3.
    rewrite Hdc2, Hdb2, Hcb2, Hfs2, Hcp2, Hdc, Hfsz, Hlen in Hev3.
    specialize (Hev3 Hdl ltac:(done)).
    destruct (eh_hw_deinit d2) as [d3 ev3]. cbn [fst snd] in *.
    split; [done|]. split; [done|].
    rewrite (held_after_app _ _ _ _ Hrun1).
    destruct (Hheld2 h1) as (h2 & Hrun2 & Hp2).
    rewrite (held_after_app _ _ _ _ Hrun2), Hev3.
    destruct (held_after_release
                (holds_decompression d2 ++ holds_compression d2 ++ [ResIomap (m_regs d2)])
                h2 []) as (h3 & Hrun3 & Hp3).
    { by rewrite app_nil_r, Hp2, Hp1, Hhc2, Hhd2, Hrg2. }
    rewrite Hrun3. apply Permutation_nil_r in Hp3. by subst.
Qed.

(** X11. Bring-up and tear-down as a whole.  When [eh_init] fails, whatever
    the reason, everything it had acquired has been given back, once,
    and the list of devices is as before.  When it succeeds the device
    is at the tail of the list and holds its register mapping, its
    memory, its pages, its interrupt, its thread and its statistics;
    [eh_deinit] gives all of that back, nothing twice. *)
Theorem eh_init_deinit_balanced e d eh_dev fifo_size regs error_irq quirks l
    ret d' l' ev :
  mem_clean d (env_decompr_cmds e) ->
  eh_init_full e d eh_dev fifo_size regs error_irq quirks l = (ret, d', l', ev) ->
  (ret <> 0 -> l' = l /\ held_after [] ev = Some []) /\
  (ret = 0 ->
   l' = l ++ [eh_dev] /\
   (exists h, held_after [] ev = Some h /\ h ≡ₚ holds_all d') /\
   held_after [] (ev ++ (eh_deinit d').2) = Some [] /\
   eh_init fifo_size (m_decompr_cmd_count d') (m_compr_pages d')
     (m_decompr_buffers d') =
   inr (eh_init_state fifo_size (m_decompr_cmd_count d') (m_compr_pages d')
          (m_decompr_buffers d'))).
Proof.
  intros Hclean E.
  pose proof (eh_init_full_spec e d eh_dev fifo_size regs error_irq quirks l Hclean)
    as Hspec.
  rewrite E in Hspec. cbn [fst snd] in Hspec.
  destruct Hspec as [(-> & -> & Hfs & (h & Hrun & Hp) & Hwd & Hwc & Hdc & Hnz)
                    |(Hret & -> & Hrun)].
  - split; [done|]. intros _. split; [done|]. split; [by exists h|]. split.
    + rewrite (held_after_app _ _ _ _ Hrun), (eh_deinit_spec d' Hwd Hwc).
      destruct (held_after_release
                  (holds_compression d' ++ holds_decompression d' ++
                   [ResIrq (m_error_irq d'); ResThread (m_comp_thread d');
                    ResPercpu (m_stats d'); ResIomap (m_regs d')]) h [])
        as (h2 & Hrun2 & Hp2).
      { rewrite app_nil_r, Hp. unfold holds_all. solve_Permutation. }
      rewrite Hrun2. apply Permutation_nil_r in Hp2. by subst.
    + unfold eh_init. rewrite Hfs, Hdc.
      destruct (Z.eqb_spec (env_decompr_cmds e) 0); done.
  - split; [done|]. intros ->. done.
Qed.

(** * The list of unclaimed devices *)

Lemma eh_create_scan_head l :
  (forall d, d ∈ l -> d <> NULL) ->
  eh_create_scan l = match l with [] => (NULL, []) | d :: rest => (d, rest) end.
Proof.
  destruct l as [|d rest]; [done|]. intros Hnz. simpl.
  destruct (Z.eqb_spec d NULL) as [Hd|]; [|done].
  exfalso. apply (Hnz d); [left|done].
Qed.

Lemma eh_create_spec comp decomp l cb :
  (forall d, d ∈ l -> d <> NULL) ->
  eh_create comp decomp l cb =
  match l with
  | [] => (- ENODEV, [], cb)
  | d :: rest => (d, rest, upd d (comp, decomp) cb)
  end.
Proof.
  intros Hnz. unfold eh_create. rewrite eh_create_scan_head by done.
  destruct l as [|d rest]; [done|].
  destruct (Z.eqb_spec d NULL) as [Hd|]; [|done].
  exfalso. apply (Hnz d); [left|done].
Qed.

Lemma pool_step_inv o p p' : pool_inv p -> pool_step o p = Some p' -> pool_inv p'.
Proof.
  intros [Hnd Hval Hcb] Hstep. destruct o as [d|comp decomp|d]; simpl in Hstep.
  - destruct (bool_decide_reflect (d <> NULL)) as [Hd|]; [|done].
    destruct (IS_ERR d) eqn:Herr; [done|].
    destruct (bool_decide_reflect (d ∉ eh_dev_list p ++ claimed p)) as [Hfresh|];
      [|done].
    injection Hstep as <-. constructor; simpl.
    + rewrite <- app_assoc. simpl.
      apply NoDup_app in Hnd as (Hl & Hdisj & Hc).
      apply NoDup_app. split; [done|]. split.
      * intros x Hx Hin. apply elem_of_cons in Hin as [->|Hin].
        -- apply Hfresh. apply elem_of_app. by left.
        -- by apply (Hdisj x).
      * constructor; [|done]. intros Hin. apply Hfresh. apply elem_of_app. by right.
    + intros x Hx. rewrite <- app_assoc in Hx. simpl in Hx.
      apply elem_of_app in Hx as [Hx|Hx].
      * apply Hval. apply elem_of_app. by left.
      * apply elem_of_cons in Hx as [->|Hx]; [done|].
        apply Hval. apply elem_of_app. by right.
    + intros x Hx. unfold upd. destruct (Z.eqb_spec x d); [done|].
      apply elem_of_app in Hx as [Hx|Hx]; [by apply Hcb|].
      apply list_elem_of_singleton in Hx. done.
  - rewrite eh_create_spec in Hstep.
    2: { intros d Hd. apply Hval. apply elem_of_app. by left. }
    destruct (eh_dev_list p) as [|d rest] eqn:El.
    + injection Hstep as <-. simpl. constructor; simpl; [done|done|].
      intros d Hd. by apply elem_of_nil in Hd.
    + destruct (Hval d) as [Hd Herr]; [left|]. rewrite Herr in Hstep.
      injection Hstep as <-. constructor; simpl.
      * simpl in Hnd. apply NoDup_cons in Hnd as [Hnotin Hnd].
        apply NoDup_app in Hnd as (Hl & Hdisj & Hc).
        apply NoDup_app. split; [done|]. split.
        -- intros x Hx Hin. apply elem_of_cons in Hin as [->|Hin].
           ++ apply Hnotin. apply elem_of_app. by left.
           ++ by apply (Hdisj x).
        -- constructor; [|done]. intros Hin. apply Hnotin. apply elem_of_app. by right.
      * intros x Hx. apply Hval. simpl.
        apply elem_of_app in Hx as [Hx|Hx].
        -- right. apply elem_of_app. by left.
        -- apply elem_of_cons in Hx as [->|Hx]; [left|].
           right. apply elem_of_app. by right.
      * intros x Hx. unfold upd. destruct (Z.eqb_spec x d) as [->|].
        -- exfalso. simpl in Hnd. apply NoDup_cons in Hnd as [Hnotin _].
           apply Hnotin. apply elem_of_app. by left.
        -- apply Hcb. by right.
  - destruct (bool_decide_reflect (d ∈ claimed p)) as [Hin|]; [|done].
    injection Hstep as <-. constructor; simpl.
    + rewrite <- app_assoc. simpl.
      apply NoDup_app in Hnd as (Hl & Hdisj & Hc).
      apply NoDup_app. split; [done|]. split.
      * intros x Hx Hin'. apply elem_of_cons in Hin' as [->|Hin'].
        -- by apply (Hdisj d).
        -- apply list_elem_of_filter in Hin' as [_ Hin']. by apply (Hdisj x).
      * constructor.
        -- intros Hin'. apply list_elem_of_filter in Hin' as [Hne _]. done.
        -- by apply NoDup_filter.
    + intros x Hx. apply Hval. rewrite <- app_assoc in Hx. simpl in Hx.
      apply elem_of_app in Hx as [Hx|Hx]; [apply elem_of_app; by left|].
      apply elem_of_app. right.
      apply elem_of_cons in Hx as [->|Hx]; [done|].
      by apply list_elem_of_filter in Hx as [_ Hx].
    + intros x Hx. unfold upd. destruct (Z.eqb_spec x d); [done|].
      apply elem_of_app in Hx as [Hx|Hx]; [by apply Hcb|].
      apply list_elem_of_singleton in Hx. done.
Qed.

Lemma pool_run_inv ops : forall p p',
  pool_inv p -> pool_run ops p = Some p' -> pool_inv p'.
Proof.
  induction ops as [|o ops IH]; intros p p' Hinv Hrun; simpl in Hrun.
  - by injection Hrun as <-.
  - destruct (pool_step o p) as [p1|] eqn:E; [|done].
    eapply IH; [|done]. by eapply pool_step_inv.
Qed.

(** X12. Devices are handed out one at a time.  Whatever clients do with
    [eh_create] and [eh_destroy], no device is at the same time on the
    list and claimed, or claimed twice, and a device on the list has no
    callbacks.  [eh_create] fails with [-ENODEV] exactly when the list
    is empty; otherwise it takes the device at the head of the list,
    which nobody holds, and gives it the two callbacks. *)
Theorem eh_create_exclusive ops p comp decomp :
  pool_run ops empty_pool = Some p ->
  NoDup (eh_dev_list p ++ claimed p) /\
  (forall d, d ∈ eh_dev_list p -> callback_of p d = (NULL, NULL)) /\
  ((eh_dev_list p = [] /\
    eh_create comp decomp (eh_dev_list p) (callback_of p) =
      (- ENODEV, [], callback_of p)) \/
   (exists d rest cb,
      eh_dev_list p = d :: rest /\
      eh_create comp decomp (eh_dev_list p) (callback_of p) = (d, rest, cb) /\
      IS_ERR d = false /\ d <> NULL /\
      (d ∉ claimed p) /\ (d ∉ rest) /\
      cb d = (comp, decomp) /\
      forall x, x <> d -> cb x = callback_of p x)).
Proof.
  intros Hrun.
  assert (Hinv : pool_inv p).
  { eapply pool_run_inv; [|done]. constructor; simpl; [constructor|..];
      intros d Hd; by apply elem_of_nil in Hd. }
  destruct Hinv as [Hnd Hval Hcb].
  split; [done|]. split; [done|].
  rewrite eh_create_spec.
  2: { intros d Hd. apply Hval. apply elem_of_app. by left. }
  destruct (eh_dev_list p) as [|d rest] eqn:El; [by left|].
  right. exists d, rest, (upd d (comp, decomp) (callback_of p)).
  destruct (Hval d) as [Hd Herr]; [left|].
  simpl in Hnd. apply NoDup_cons in Hnd as [Hnotin Hnd].
  split; [done|]. split; [done|]. split; [done|]. split; [done|].
  split; [intros Hin; apply Hnotin; apply elem_of_app; by right|].
  split; [intros Hin; apply Hnotin; apply elem_of_app; by left|].
  unfold upd. rewrite Z.eqb_refl. split; [done|].
  intros x Hx. by destruct (Z.eqb_spec x d).
Qed.

Lemma remove_first_app r l extra :
  r ∈ l -> remove_first r (l ++ extra) = remove_first r l ++ extra.
Proof.
  induction l as [|x l IH]; intros Hin.
  - by apply elem_of_nil in Hin.
  - simpl. destruct (decide (x = r)); [done|].
    apply elem_of_cons in Hin as [->|Hin]; [done|]. by rewrite IH.
Qed.

(** What is held besides does not matter. *)
Lemma held_after_frame ev : forall h h' extra,
  held_after h ev = Some h' ->
  held_after (h ++ extra) ev = Some (h' ++ extra).
Proof.
  induction ev as [|e ev IH]; intros h h' extra Hh.
  - injection Hh as <-. done.
  - destruct e; try (rewrite held_after_other in Hh |- * by done; by apply IH).
    + rewrite held_after_cons_acquire in Hh |- *. by apply (IH (r :: h)).
    + unfold held_after in Hh |- *. fold held_after in Hh |- *.
      destruct (decide (r ∈ h)) as [Hin|]; [|done].
      destruct (decide (r ∈ h ++ extra)) as [|Hn].
      * rewrite remove_first_app by done. by apply IH.
      * exfalso. apply Hn. apply elem_of_app. by left.
Qed.

(** X13. [eh_remove] gives back everything the device holds and the device
    structure itself, but does not take the structure off the list of
    unclaimed devices: after a successful [eh_init] on an empty list
    and [eh_remove], the list still holds the address of the released
    structure, and [eh_create] hands it out. *)
Theorem eh_remove_leaves_device_listed e d eh_dev fifo_size regs error_irq quirks
    d' l' ev comp decomp cb :
  mem_clean d (env_decompr_cmds e) ->
  eh_dev <> NULL ->
  eh_init_full e d eh_dev fifo_size regs error_irq quirks [] = (0, d', l', ev) ->
  let r := eh_remove d' eh_dev l' in
  held_after [ResMem eh_dev] (ev ++ r.2) = Some [] /\
  r.1 = [eh_dev] /\
  (eh_create comp decomp r.1 cb).1.1 = eh_dev.
Proof.
  intros Hclean Hnz E.
  pose proof (eh_init_full_spec e d eh_dev fifo_size regs error_irq quirks [] Hclean)
    as Hspec.
  rewrite E in Hspec. cbn [fst snd] in Hspec.
  destruct Hspec as [(_ & -> & Hfs & (h & Hrun & Hp) & Hwd & Hwc & Hdc & Hnzc)
                    |(Hret & _)]; [|done].
  unfold eh_remove. rewrite (surjective_pairing (eh_deinit d')). cbn [fst snd].
  rewrite (eh_deinit_spec d' Hwd Hwc).
  split; [|split; [done|]].
  - pose proof (held_after_frame ev [] h [ResMem eh_dev] Hrun) as Hrun1.
    simpl in Hrun1. rewrite (held_after_app _ _ _ _ Hrun1).
    rewrite <- (map_app KRelease _ [ResMem eh_dev]).
    destruct (held_after_release
                ((holds_compression d' ++ holds_decompression d' ++
                  [ResIrq (m_error_irq d'); ResThread (m_comp_thread d');
                   ResPercpu (m_stats d'); ResIomap (m_regs d')]) ++
                 [ResMem eh_dev]) (h ++ [ResMem eh_dev]) [])
      as (h2 & Hrun2 & Hp2).
    { rewrite app_nil_r, Hp. unfold holds_all. solve_Permutation. }
    rewrite Hrun2. apply Permutation_nil_r in Hp2. by subst.
  - rewrite eh_create_spec; [done|].
    intros x Hx. apply list_elem_of_singleton in Hx. by subst.
Qed.

(** * The polling loop comes to an end *)

Lemma eh_poll_total timeout obs k : forall fuel n,
  (k < fuel)%nat ->
  time_after (obs (n + k)%nat).1 timeout = true ->
  exists r j,
    eh_poll fuel timeout obs n = Some r /\
    (j <= k)%nat /\
    (forall i, (i < j)%nat ->
       time_after (obs (n + i)%nat).1 timeout = false /\
       (obs (n + i)%nat).2 = EH_DCMD_PENDING) /\
    match r with
    | PollTimeout => time_after (obs (n + j)%nat).1 timeout = true
    | PollStatus st =>
        time_after (obs (n + j)%nat).1 timeout = false /\
        (obs (n + j)%nat).2 = st /\ st <> EH_DCMD_PENDING
    end.
Proof.
  induction k as [|k IH]; intros fuel n Hfuel Hk;
    (destruct fuel as [|fuel]; [lia|]); simpl;
    destruct (obs n) as [jiffies st] eqn:En.
  - rewrite Nat.add_0_r, En in Hk. simpl in Hk. rewrite Hk.
    exists PollTimeout, 0%nat. rewrite Nat.add_0_r, En.
    split; [done|]. split; [lia|]. split; [intros; lia|done].
  - destruct (time_after jiffies timeout) eqn:Ht.
    { exists PollTimeout, 0%nat. rewrite Nat.add_0_r, En.
      split; [done|]. split; [lia|]. split; [intros; lia|done]. }
    destruct (decide (st = EH_DCMD_PENDING)) as [->|Hst].
    + destruct (IH fuel (S n) ltac:(lia)) as (r & j & Hp & Hj & Hbefore & Hr).
      { by replace (S n + k)%nat with (n + S k)%nat by lia. }
      exists r, (S j). split; [done|]. split; [lia|]. split.
      * intros i Hi. destruct i as [|i].
        -- by rewrite Nat.add_0_r, En.
        -- replace (n + S i)%nat with (S n + i)%nat by lia. apply Hbefore. lia.
      * by replace (n + S j)%nat with (S n + j)%nat by lia.
    + exists (PollStatus st), 0%nat. rewrite Nat.add_0_r, En.
      split; [done|]. split; [lia|]. split; [intros; lia|done].
Qed.

(** X14. A call of [eh_decompress_page] comes back as soon as the clock
    passes the deadline, whatever the engine does: if the [k]-th read of
    [jiffies] is after the deadline, the call returns after at most
    [k + 1] turns of the loop, with 0, [-EBUSY], [-ETIME] or [-EIO].
    It returns 0 only if the status read in time was
    [EH_DCMD_DECOMPRESSED], after nothing but pending; and when it
    returns [-EBUSY] the engine has not been handed anything. *)
Theorem eh_decompress_page_returns fuel s cpu now obs compr_data compr_size page k :
  (k < fuel)%nat ->
  time_after (obs k).1 (now + EH_POLL_DELAY_JIFFIES) = true ->
  exists ret ev,
    eh_decompress_page fuel s cpu now obs compr_data compr_size page = Some (ret, ev) /\
    (ret = 0 \/ ret = - EBUSY \/ ret = - ETIME \/ ret = - EIO) /\
    (ret = 0 ->
     suspended s = false /\
     exists j, (j < k)%nat /\
       (obs j).2 = EH_DCMD_DECOMPRESSED /\
       time_after (obs j).1 (now + EH_POLL_DELAY_JIFFIES) = false /\
       forall i, (i < j)%nat -> (obs i).2 = EH_DCMD_PENDING) /\
    (ret = - EBUSY -> forallb (fun e => negb (programs_engine e)) ev = true) /\
    (forall fuel', (k < fuel')%nat ->
       eh_decompress_page fuel' s cpu now obs compr_data compr_size page =
       Some (ret, ev)).
Proof.
  intros Hfuel Hk. unfold eh_decompress_page.
  destruct (suspended s) eqn:Hs.
  { eexists _, _. split; [done|]. split; [auto|]. split; [done|]. done. }
  destruct (decompr_busy s !!! Z.to_nat (cpu mod decompr_cmd_count s) : bool).
  { eexists _, _. split; [done|]. split; [auto|]. split; [done|]. done. }
  assert (Hpoll : exists r j,
            (forall f, (k < f)%nat ->
               eh_poll f (now + EH_POLL_DELAY_JIFFIES) obs 0 = Some r) /\
            (j <= k)%nat /\
            (forall i, (i < j)%nat ->
               time_after (obs i).1 (now + EH_POLL_DELAY_JIFFIES) = false /\
               (obs i).2 = EH_DCMD_PENDING) /\
            match r with
            | PollTimeout =>
                time_after (obs j).1 (now + EH_POLL_DELAY_JIFFIES) = true
            | PollStatus st =>
                time_after (obs j).1 (now + EH_POLL_DELAY_JIFFIES) = false /\
                (obs j).2 = st /\ st <> EH_DCMD_PENDING
            end).
  { destruct (eh_poll_total (now + EH_POLL_DELAY_JIFFIES) obs k fuel 0%nat Hfuel Hk)
      as (r & j & Hp & Hj & Hbefore & Hr).
    exists r, j. split; [|done].
    intros f Hf.
    destruct (eh_poll_total (now + EH_POLL_DELAY_JIFFIES) obs k f 0%nat Hf Hk)
      as (r' & j' & Hp' & Hj' & Hbefore' & Hr').
    rewrite Hp'. f_equal. simpl in *.
    assert (Hjj : j = j').
    { destruct (Nat.lt_trichotomy j j') as [Hlt|[->|Hlt]]; [|done|]; exfalso.
      - destruct (Hbefore' j Hlt) as [Ht Hst].
        destruct r as [|st]; [congruence|]. destruct Hr as (_ & Hst' & Hne). congruence.
      - destruct (Hbefore j' Hlt) as [Ht Hst].
        destruct r' as [|st]; [congruence|]. destruct Hr' as (_ & Hst' & Hne).
        congruence. }
    subst j'. destruct r as [|st], r' as [|st']; try done.
    - destruct Hr' as (? & _). congruence.
    - destruct Hr as (? & _). congruence.
    - destruct Hr as (_ & <- & _), Hr' as (_ & <- & _). done. }
  destruct Hpoll as (r & j & Hp & Hj & Hbefore & Hr).
  rewrite (Hp fuel Hfuel). destruct r as [|st].
  - eexists _, _. split; [done|]. split; [auto|]. split; [done|]. split; [done|].
    intros f Hf. by rewrite (Hp f Hf).
  - destruct Hr as (Ht & Hst & Hne).
    destruct (decide (st = EH_DCMD_DECOMPRESSED)) as [->|Hnd].
    + eexists _, _. split; [done|]. split; [auto|]. split; [|split; [done|]].
      * intros _. split; [done|]. exists j. split.
        { destruct (decide (j = k)) as [->|]; [congruence|lia]. }
        split; [done|]. split; [done|]. intros i Hi. by apply Hbefore.
      * intros f Hf. rewrite (Hp f Hf).
        by destruct (decide (EH_DCMD_DECOMPRESSED = EH_DCMD_DECOMPRESSED)).
    + eexists _, _. split; [done|]. split; [auto|]. split; [done|]. split; [done|].
      intros f Hf. rewrite (Hp f Hf).
      by destruct (decide (st = EH_DCMD_DECOMPRESSED)).
Qed.

(** * The source block of a decompression command *)

Lemma ffs_fls_pow2_nat n :
  __ffs (2 ^ Z.of_nat n) = Z.of_nat n /\ __fls (2 ^ Z.of_nat n) = Z.of_nat n.
Proof.
  induction n as [|n [IH1 IH2]]; [done|].
  rewrite Nat2Z.inj_succ, Z.pow_succ_r by lia.
  pose proof (Z.pow_pos_nonneg 2 (Z.of_nat n) ltac:(lia) ltac:(lia)) as Hpos.
  destruct (2 ^ Z.of_nat n) as [|p|p] eqn:E; [lia| |lia].
  change (2 * Z.pos p) with (Z.pos (xO p)). simpl in *. lia.
Qed.

Lemma ffs_pow2 k : 0 <= k -> __ffs (2 ^ k) = k.
Proof.
  intros Hk. rewrite <- (Z2Nat.id k) by done. apply ffs_fls_pow2_nat.
Qed.

Lemma fls_pow2 k : 0 <= k -> __fls (2 ^ k) = k.
Proof.
  intros Hk. rewrite <- (Z2Nat.id k) by done. apply ffs_fls_pow2_nat.
Qed.

(** X15. What [eh_setup_dcmd] programs meets the requirement stated in its
    comment, for a compressed size of up to a page: the source block
    handed to the engine has one of the seven sizes from 64 to 4096
    bytes and is large enough for the data; a source used in place is
    aligned to the size of its block, which is its natural alignment
    unless that exceeds a page; a copy goes through the bounce buffer
    of the command set as a block of a page. *)
Theorem eh_setup_dcmd_block s index compr_data compr_size dst_page :
  0 < compr_data ->
  0 <= compr_size <= PAGE_SIZE ->
  let bounce := decompr_buffers s !!! Z.to_nat index in
  exists copy code src,
    eh_setup_dcmd s index compr_data compr_size dst_page =
      copy ++
      [ EvDcmdCsize index compr_size;
        EvDcmdBuf0 index code src;
        EvDcmdBuf index 1 0; EvDcmdBuf index 2 0; EvDcmdBuf index 3 0;
        EvDcmdDest index (page_to_phys dst_page) EH_DCMD_PENDING ] /\
    1 <= code <= 7 /\
    compr_size <= 2 ^ (code + 5) <= PAGE_SIZE /\
    ((copy = [] /\ src = virt_to_phys compr_data /\
      (2 ^ (code + 5) | compr_data) /\
      (code < 7 -> ~ (2 ^ (code + 6) | compr_data))) \/
     (copy = [EvMemcpy bounce compr_data compr_size] /\
      src = virt_to_phys bounce /\ code = 7)).
Proof.
  intros Hpos Hsize bounce.
  destruct (natural_alignment_largest compr_data Hpos) as (Hal & Hdiv & Hmax).
  pose proof (ffs_pos_nonneg) as Hnn.
  assert (Hf : 0 <= __ffs compr_data).
  { destruct compr_data; simpl; try lia. apply ffs_pos_nonneg. }
  unfold eh_setup_dcmd. rewrite Hal.
  set (f := __ffs compr_data) in *.
  unfold PAGE_SIZE in *.
  destruct (Z.ltb_spec (2 ^ f) 64) as [Hlt|Hge]; cbn [orb].
  { exists [EvMemcpy bounce compr_data compr_size], 7, (virt_to_phys bounce).
    split; [done|]. split; [lia|]. split; [simpl; lia|]. right. done. }
  destruct (Z.ltb_spec (2 ^ f) compr_size) as [Hlt|Hfit].
  { exists [EvMemcpy bounce compr_data compr_size], 7, (virt_to_phys bounce).
    split; [done|]. split; [lia|]. split; [simpl; lia|]. right. done. }
  assert (Hf6 : 6 <= f).
  { destruct (Z_le_gt_dec 6 f); [done|exfalso].
    assert (2 ^ f <= 2 ^ 5) by (apply Z.pow_le_mono_r; lia).
    change (2 ^ 5) with 32 in *. lia. }
  destruct (Z.ltb_spec 4096 (2 ^ f)) as [Hbig|Hsmall].
  - exists [], 7, (virt_to_phys compr_data).
    split; [done|]. split; [lia|]. split; [simpl; lia|]. left.
    split; [done|]. split; [done|]. split; [|lia].
    change (7 + 5) with 12.
    assert (Hf12 : 12 <= f).
    { destruct (Z_le_gt_dec 12 f); [done|exfalso].
      assert (2 ^ f <= 2 ^ 11) by (apply Z.pow_le_mono_r; lia).
      change (2 ^ 11) with 2048 in *. lia. }
    apply Z.divide_trans with (2 ^ f); [|done].
    exists (2 ^ (f - 12)). rewrite <- Z.pow_add_r by lia. f_equal. lia.
  - rewrite ffs_pow2 by done.
    assert (Hf12 : f <= 12).
    { destruct (Z_le_gt_dec f 12); [done|exfalso].
      assert (2 ^ 13 <= 2 ^ f) by (apply Z.pow_le_mono_r; lia).
      change (2 ^ 13) with 8192 in *. lia. }
    exists [], (f - 5), (virt_to_phys compr_data).
    replace (f - 5 + 5) with f by lia. replace (f - 5 + 6) with (f + 1) by lia.
    split; [done|]. split; [lia|]. split; [lia|]. left.
    split; [done|]. split; [done|]. split; [done|].
    intros _ Hnext. specialize (Hmax (f + 1) ltac:(lia) Hnext).
    rewrite Z.pow_add_r in Hmax by lia.
    pose proof (Z.pow_pos_nonneg 2 f ltac:(lia) ltac:(lia)). lia.
Qed.

(** * The check of the FIFO size *)

(** X16. [eh_init] lets through exactly the sizes that are a power of two
    and not above [EH_MAX_FIFO_SIZE] ([fifo_size] is an unsigned short,
    so it is not negative). *)
Theorem eh_fifo_size_valid_iff fifo_size :
  0 <= fifo_size ->
  eh_fifo_size_invalid fifo_size = false <->
  (exists k, 0 <= k /\ fifo_size = 2 ^ k) /\ fifo_size <= EH_MAX_FIFO_SIZE.
Proof.
  intros Hnn. unfold eh_fifo_size_invalid. split.
  - intros H. apply orb_false_iff in H as [H Hmax].
    apply orb_false_iff in H as [Hz He].
    apply Z.eqb_neq in Hz. apply negb_false_iff, Z.eqb_eq in He.
    apply Z.ltb_ge in Hmax. split; [|done].
    destruct fifo_size as [|p|p]; [done| |lia].
    exists (ffs_pos p). split; [apply ffs_pos_nonneg|].
    by apply ffs_fls_pow2.
  - intros [(k & Hk & ->) Hmax].
    rewrite ffs_pow2, fls_pow2, Z.eqb_refl by done. simpl.
    pose proof (Z.pow_pos_nonneg 2 k ltac:(lia) Hk).
    destruct (Z.eqb_spec (2 ^ k) 0); [lia|].
    destruct (Z.ltb_spec EH_MAX_FIFO_SIZE (2 ^ k)); [lia|done].
Qed.

(** * After the completion thread has left *)

Lemma run_exited_thread ops : forall y y',
  comp_thread (dev y) = THREAD_EXITED ->
  run ops y = Some y' ->
  comp_thread (dev y') = THREAD_EXITED /\
  callbacks (trace y') = callbacks (trace y).
Proof.
  induction ops as [|o ops IH]; intros y y' Hth Hrun; simpl in Hrun.
  - by injection Hrun as <-.
  - destruct (step o y) as [y1|] eqn:E; [|done].
    destruct (exited_thread_stays o y y1 Hth E) as [Hth1 Hcb1].
    destruct (IH y1 y' Hth1 Hrun) as [Hth' Hcb']. split; [done|congruence].
Qed.

(** X17. Nothing takes over from a completion thread that has left after a
    halt of the engine: [eh_compress_page] goes on accepting requests
    as long as the ring has room, and whatever happens afterwards no
    callback is made for them, nor for any other request. *)
Theorem exited_thread_strands_requests k n cbufs dbufs ops y page tok :
  1 <= k <= 15 ->
  run ops (initial_system (2 ^ k) n cbufs dbufs) = Some y ->
  comp_thread (dev y) = THREAD_EXITED ->
  suspended (dev y) = false ->
  pending (dev y) < fifo_size (dev y) ->
  exists y1,
    step (OpCompress page tok) y = Some y1 /\
    (eh_compress_page_try (dev y) page tok).1 = TryDone 0 (dev y1) /\
    submitted y1 = submitted y ++ [tok] /\
    forall ops' y',
      run ops' y1 = Some y' ->
      comp_thread (dev y') = THREAD_EXITED /\
      callbacks (trace y') = callbacks (trace y) /\
      step OpReap y' = None /\ step OpErrorCheck y' = None.
Proof.
  intros Hk Hrun Hth Hs Hroom.
  destruct (reachable_ring_ok _ _ _ _ _ _ Hk Hrun) as (C & H & W & Hinv).
  destruct (ring_inv_pending _ _ _ _ _ Hinv) as [Hp _].
  pose proof Hinv as [].
  destruct (compress_accept_inv k y C H W page tok Hinv Hs ltac:(lia))
    as (s1 & Htry & _ & _ & _ & _ & _ & _ & _ & Hth1 & _).
  exists (mk_system s1 (trace y ++ [EvLock fifo_prod_lock; EvUnlock fifo_prod_lock])
            (submitted y ++ [tok])).
  split; [unfold step; by rewrite Htry|].
  split; [by rewrite Htry|]. split; [done|].
  intros ops' y' Hrun'.
  assert (Hth0 : comp_thread s1 = THREAD_EXITED) by congruence.
  destruct (run_exited_thread ops'
              (mk_system s1
                 (trace y ++ [EvLock fifo_prod_lock; EvUnlock fifo_prod_lock])
                 (submitted y ++ [tok])) y' Hth0 Hrun') as [Hth' Hcb'].
  split; [done|]. split.
  { rewrite Hcb'. simpl. by rewrite callbacks_app, app_nil_r. }
  unfold step. by rewrite Hth'.
Qed.

Lemma zeroed_device_clean n cmds :
  (Z.to_nat cmds <= n)%nat -> mem_clean (zeroed_device n) cmds.
Proof.
  intros Hn. unfold mem_clean, zeroed_device. simpl.
  rewrite length_replicate. repeat split; try done.
  intros j Hj. apply lookup_total_replicate_2. lia.
Qed.


(** * A halt handled without interference *)

Lemma process_completions_ret k n : forall fuel y C H W ret s' ev,
  ring_inv k y C H W ->
  comp_thread (dev y) <> THREAD_EXITED ->
  H - C = Z.of_nat n ->
  eh_process_completions_loop fuel (dev y)
    (C mod 2 ^ (k + 1)) (H mod 2 ^ (k + 1)) = Some (ret, s', ev) ->
  ret <> 0 <->
  C < H /\ status (fifo (dev y) !!! slot (dev y) (H - 1)) = EH_CDESC_ERROR_HALTED.
Proof.
  induction n as [|n IH]; intros fuel y C H W ret s' ev Hinv Hth Hn Hloop.
  - assert (H = C) as -> by lia.
    rewrite eh_process_completions_loop_done in Hloop.
    injection Hloop as <- <- <-. split; [done|lia].
  - pose proof Hinv as []. size_facts k.
    assert (Hne : C mod 2 ^ (k + 1) <> H mod 2 ^ (k + 1))
      by (apply mod_ne_close; lia).
    destruct fuel as [|fuel].
    { simpl in Hloop. destruct (Z.eqb_spec (C mod 2 ^ (k + 1)) (H mod 2 ^ (k + 1)));
        done. }
    rewrite eh_process_completions_loop_step in Hloop by done.
    cbv zeta in Hloop.
    destruct (eh_process_completed_descriptor (dev y) _ _) as [[r s1] ev1] eqn:E.
    destruct (reap_slot_inv k y C H W r s1 ev1 Hinv ltac:(lia) Hth E)
      as (Hinv2 & _ & _ & [Hth2 _] & Hmask & _ & Hret).
    destruct (reap_slot_state k y C H W r s1 ev1 Hinv ltac:(lia) E) as [Hs2 _].
    pose proof (eh_process_completed_descriptor_ret (dev y)
                  (u16 (Z.land (C mod 2 ^ (k + 1)) (fifo_index_mask (dev y))))
                  (completions (dev y) !!!
                     Z.to_nat (Z.land (C mod 2 ^ (k + 1)) (fifo_index_mask (dev y)))))
      as Hr.
    rewrite E in Hr. cbn [fst] in Hr.
    assert (Hslot16 : Z.to_nat (u16 (Z.land (C mod 2 ^ (k + 1))
                                       (fifo_index_mask (dev y)))) = slot (dev y) C).
    { rewrite inv_imask0, land_mask_mod, mod_mod_pow2 by lia.
      pose proof (Z.mod_pos_bound C (2 ^ k) ltac:(lia)).
      rewrite u16_small by lia. unfold slot. by rewrite inv_size0. }
    rewrite Hslot16 in Hr.
    simpl fst in Hloop. simpl snd in Hloop. cbv zeta in Hinv2, Hth2, Hmask, Hret.
    rewrite Hs2 in Hloop, Hinv2, Hth2, Hret.
    set (s2 := set_complete_index ((C + 1) mod 2 ^ (k + 1)) _) in *.
    destruct (Z.eqb_spec r 0) as [->|Hrn]; simpl negb in Hloop; cbv iota in Hloop.
    + change (fifo_color_mask s2) with (fifo_color_mask (dev y)) in Hloop.
      rewrite inv_cmask0, land_u32_mask, Zplus_mod_idemp_l in Hloop by lia.
      destruct (eh_process_completions_loop fuel s2 _ _)
        as [[[r' s''] ev']|] eqn:E2; [|done].
      injection Hloop as <- <- <-.
      pose proof (IH fuel (mk_system s2 (trace y ++ ev1) (submitted y)) (C + 1) H W
                    r' s'' ev' Hinv2 ltac:(simpl dev; by rewrite Hth2) ltac:(lia) E2)
        as Hiff.
      simpl dev in Hiff. rewrite Hiff.
      assert (Hsl : forall j, slot s2 j = slot (dev y) j) by done.
      rewrite Hsl.
      destruct (decide (status (fifo (dev y) !!! slot (dev y) C) = EH_CDESC_ERROR_HALTED))
        as [|Hnh]; [done|].
      split.
      * intros [Hlt Hst]. split; [lia|]. revert Hst. subst s2. simpl.
        unfold fifo_idle_at.
        by rewrite list_lookup_total_insert_ne by (apply slot_ne; lia).
      * intros [_ Hst]. destruct (Z.eq_dec (C + 1) H) as [<-|].
        { exfalso. apply Hnh. by replace (C + 1 - 1) with C in Hst by lia. }
        split; [lia|]. subst s2. simpl. unfold fifo_idle_at.
        by rewrite list_lookup_total_insert_ne by (apply slot_ne; lia).
    + destruct (Hret Hrn) as [HH _]. subst H.
      injection Hloop as <- <- <-.
      replace (C + 1 - 1) with C by lia.
      destruct (decide (status (fifo (dev y) !!! slot (dev y) C) = EH_CDESC_ERROR_HALTED));
        [|done].
      split; [intros _; split; [lia|done]|done].
Qed.

(** X18. A halt of the engine handled in one piece.  When the completion
    thread wakes up to find that the last descriptor the engine
    reported is halted, and then reads a non-zero [EH_REG_ERR_COND],
    one turn of its loop, with nothing else running in between, makes
    one callback for every request in flight: first those the engine
    reported, each with its own status, then the others with
    [EH_CDESC_ERROR_HALTED], no data and size 0.  Every token submitted
    so far has then been passed to the callback exactly once, in the
    order of submission, and the thread has left its loop. *)
Theorem halt_recovery_uninterrupted k n cbufs dbufs ops y :
  1 <= k <= 15 ->
  run ops (initial_system (2 ^ k) n cbufs dbufs) = Some y ->
  comp_thread (dev y) = THREAD_RUNNING ->
  0 < reported (dev y) ->
  status (fifo (dev y) !!!
            ring_slot (dev y) (complete_index (dev y) + (reported (dev y) - 1))) =
    EH_CDESC_ERROR_HALTED ->
  err_cond (regs (dev y)) <> 0 ->
  exists s' ev1 ev2,
    eh_comp_thread_iteration (fifo_fuel (dev y)) (dev y) =
      Some (s', ev1 ++ EvDumpRegs :: ev2) /\
    comp_thread s' = THREAD_EXITED /\
    callbacks ev1 =
      map (fun j => completion_of_slot (dev y)
                      (ring_slot (dev y) (complete_index (dev y) + j)))
        (seqZ 0 (reported (dev y))) /\
    length ev2 = Z.to_nat (pending (dev y) - reported (dev y)) /\
    Forall (fun e => exists p, e = EvCallback EH_CDESC_ERROR_HALTED NULL 0 p) ev2 /\
    submitted y = delivered (trace y ++ ev1 ++ EvDumpRegs :: ev2).
Proof.
  intros Hk Hrun Hth Hrep Hhalt Herr.
  destruct (reachable_ring_ok _ _ _ _ _ _ Hk Hrun) as (C & H & W & Hinv).
  destruct (ring_inv_pending _ _ _ _ _ Hinv) as [Hp Hr].
  rewrite Hp, Hr in *.
  rewrite (proj1 (ring_slot_slot _ _ _ _ _ (H - C - 1) Hinv)) in Hhalt.
  replace (C + (H - C - 1)) with (H - 1) in Hhalt by lia.
  pose proof Hinv as []. size_facts k.
  destruct (comp_thread_reap_inv k y C H W Hinv Hth)
    as (s1 & ev1 & Hreap & Hinv1 & Hdel1 & _ & _).
  destruct (comp_thread_reap_effect k y C H W _ s1 ev1 Hinv Hth Hreap)
    as (Hcb1 & _ & _ & _).
  destruct (eh_comp_thread_reap_frame _ _ _ _ Hreap) as (Hregs1 & _).
  assert (Hth1 : comp_thread s1 = THREAD_ERROR_SEEN).
  { pose proof Hreap as Hreap'.
    unfold eh_comp_thread_reap, eh_update_complete_index, eh_process_completions
      in Hreap'.
    rewrite inv_hw0, inv_c0 in Hreap'.
    destruct (Z.eqb_spec (H mod 2 ^ (k + 1)) (C mod 2 ^ (k + 1))) as [He|_].
    { exfalso. symmetry in He. revert He. apply mod_ne_close. lia. }
    destruct (eh_process_completions_loop _ _ _ _) as [[[ret s0] ev0]|] eqn:Hloop;
      [|done].
    pose proof (process_completions_ret k (Z.to_nat (H - C)) _ y C H W ret s0 ev0
                  Hinv ltac:(by rewrite Hth) ltac:(lia) Hloop) as Hiff.
    destruct (Z.eqb_spec ret 0) as [->|Hne].
    - exfalso. by apply (proj2 Hiff); [split; [lia|]|].
    - by injection Hreap' as <- _. }
  set (y1 := mk_system s1 (trace y ++ ev1) (submitted y)) in *.
  destruct (eh_abort_incomplete_descriptors_spec k y1 H H W Hinv1)
    as (cs & ev2 & Hab & _ & Hev2).
  assert (Hfuel : fifo_fuel (dev y1) = fifo_fuel (dev y)).
  { unfold fifo_fuel. rewrite (inv_cmask _ _ _ _ _ Hinv1), inv_cmask0. done. }
  rewrite Hfuel in Hab. simpl dev in Hab.
  destruct Hev2 as [[Hlt Hev2]|(Hfull & _)]; [|lia].
  exists (set_comp_thread THREAD_EXITED (set_completions cs s1)), ev1, ev2.
  split.
  { unfold eh_comp_thread_iteration. rewrite Hreap, Hth1.
    unfold eh_comp_thread_error. rewrite Hregs1.
    destruct (Z.eqb_spec (err_cond (regs (dev y))) 0) as [|_]; [done|].
    simpl negb. cbv iota. by rewrite Hab. }
  split; [done|]. split.
  { rewrite Hcb1.
    replace (seqZ C (H - C)) with (map (Z.add C) (seqZ 0 (H - C)))
      by (change (map (Z.add C)) with (fmap (M:=list) (Z.add C));
          rewrite fmap_add_seqZ; f_equal; lia).
    rewrite map_map.
    apply map_ext. intros j.
    by rewrite (proj1 (ring_slot_slot _ _ _ _ _ j Hinv)). }
  split.
  { rewrite Hev2, length_map. unfold ring_tokens. rewrite length_map, length_seqZ.
    f_equal. lia. }
  split.
  { rewrite Hev2. apply Forall_forall. intros e He.
    apply list_elem_of_In, in_map_iff in He as (p & <- & _). by exists p. }
  pose proof (inv_tokens _ _ _ _ _ Hinv1) as Htok. simpl in Htok.
  rewrite Htok by (by rewrite Hth1).
  rewrite !delivered_app. simpl. rewrite Hev2, delivered_halted_callbacks.
  by rewrite <- app_assoc.
Qed.

(** * Suspend while a decompression is under way *)

Lemma events_of_elem t e sch : e ∈ events_of t sch -> (t, e) ∈ sch.
Proof.
  unfold events_of. intros He.
  apply list_elem_of_fmap in He as ([t' e'] & -> & Hin).
  apply list_elem_of_filter in Hin as [Ht Hin]. simpl in Ht. by subst t'.
Qed.

(** A lock that thread [t1] holds is not got by another thread before
    [t1] gave it back. *)
Lemma spin_after_waits t1 t2 l sch : forall held,
  t1 <> t2 ->
  (t1, l) ∈ held ->
  is_Some (spin_after held sch) ->
  (t2, EvLock l) ∈ sch ->
  exists sch1 sch2,
    sch = sch1 ++ (t2, EvLock l) :: sch2 /\
    (t1, EvUnlock l) ∈ sch1.
Proof.
  induction sch as [|[t e] sch IH]; intros held Hne Hheld Hok Hin.
  - by apply elem_of_nil in Hin.
  - assert (Hgo : forall held',
              (t1, l) ∈ held' -> is_Some (spin_after held' sch) ->
              (t2, EvLock l) ∈ sch ->
              exists sch1 sch2,
                (t, e) :: sch = sch1 ++ (t2, EvLock l) :: sch2 /\
                (t1, EvUnlock l) ∈ sch1).
    { intros held' Hh' Hok' Hin'.
      destruct (IH held' Hne Hh' Hok' Hin') as (sch1 & sch2 & -> & Hu).
      exists ((t, e) :: sch1), sch2. split; [done|]. by apply list_elem_of_further. }
    simpl in Hok. destruct e.
    + destruct (decide (l0 ∈ map snd held)) as [|Hfree]; [by destruct Hok|].
      assert (l0 <> l).
      { intros ->. apply Hfree. apply list_elem_of_In, in_map_iff.
        exists (t1, l). split; [done|]. by apply list_elem_of_In. }
      apply elem_of_cons in Hin as [[= _ ?]|Hin]; [done|].
      apply (Hgo ((t, l0) :: held)); [by apply list_elem_of_further|done|done].
    + destruct (decide ((t, l0) ∈ held)) as [Hmine|]; [|by destruct Hok].
      apply elem_of_cons in Hin as [[=]|Hin].
      destruct (decide ((t, l0) = (t1, l))) as [[= -> ->]|Hother].
      * apply list_elem_of_split in Hin as (sch1 & sch2 & ->).
        exists ((t1, EvUnlock l) :: sch1), sch2. split; [done|].
        apply list_elem_of_here.
      * apply (Hgo (filter (fun h => h <> (t, l0)) held)); [|done|done].
        apply list_elem_of_filter. split; [congruence|done].
    + apply elem_of_cons in Hin as [[=]|Hin]. by apply (Hgo held).
    + apply elem_of_cons in Hin as [[=]|Hin]. by apply (Hgo held).
    + apply elem_of_cons in Hin as [[=]|Hin]. by apply (Hgo held).
    + apply elem_of_cons in Hin as [[=]|Hin]. by apply (Hgo held).
    + apply elem_of_cons in Hin as [[=]|Hin]. by apply (Hgo held).
    + apply elem_of_cons in Hin as [[=]|Hin]. by apply (Hgo held).
    + apply elem_of_cons in Hin as [[=]|Hin]. by apply (Hgo held).
    + apply elem_of_cons in Hin as [[=]|Hin]. by apply (Hgo held).
    + apply elem_of_cons in Hin as [[=]|Hin]. by apply (Hgo held).
    + apply elem_of_cons in Hin as [[=]|Hin]. by apply (Hgo held).
Qed.

(** C8. [eh_suspend] takes [fifo_prod_lock], then the lock of every
    decompression command set in index order, and gives them back in
    the opposite order.  With a compression request outstanding, or a
    command set marked busy, it returns [-EBUSY] and leaves the device
    structure and the registers as they were.  Otherwise it masks the
    three interrupt groups, clears the enable bit of the compression
    FIFO, stops the clock, sets [suspended] and returns 0.  In no state
    the driver reaches is a command set marked busy, so a decompression
    never makes it refuse.  When another thread holds the lock of a
    command set at the time of the call, as [eh_decompress_page] does
    from before it programs the command set until after it has read the
    result, [eh_suspend] gets that lock, and so reaches its tests, only
    after the other thread gave it back. *)
Theorem eh_suspend_locks_and_refusal s ret s' ev :
  eh_suspend s = (ret, s', ev) ->
  let slots := seqZ 0 (decompr_cmd_count s) in
  let marked_busy :=
    exists i, 0 <= i < decompr_cmd_count s /\
              decompr_busy s !!! Z.to_nat i = true in
  (exists body,
     ev = [EvLock fifo_prod_lock] ++
          map (fun i => EvLock (decompr_lock i)) slots ++
          body ++
          map (fun i => EvUnlock (decompr_lock i)) (reverse slots) ++
          [EvUnlock fifo_prod_lock] /\
     forall l, ~ In (EvLock l) body /\ ~ In (EvUnlock l) body) /\
  (0 < nr_request s \/ marked_busy -> ret = - EBUSY /\ s' = s) /\
  (nr_request s <= 0 -> ~ marked_busy ->
   ret = 0 /\
   s' = set_suspended true (set_clk_enabled false (set_regs (regs s') s)) /\
   suspended s' = true /\
   cdesc_compress_enable (regs s') = false /\
   intrp_mask_error (regs s') = ALL_ONES /\
   intrp_mask_cmp (regs s') = ALL_ONES /\
   intrp_mask_dcmp (regs s') = ALL_ONES /\
   cdesc_complete_idx (regs s') = cdesc_complete_idx (regs s) /\
   cdesc_wridx (regs s') = cdesc_wridx (regs s) /\
   err_cond (regs s') = err_cond (regs s)) /\
  (forall fifo_size n cbufs dbufs ops y,
     0 <= n ->
     run ops (initial_system fifo_size n cbufs dbufs) = Some y ->
     dev y = s ->
     ~ marked_busy /\ (ret = - EBUSY <-> 0 < nr_request s)) /\
  (forall t1 t2 i held sch,
     t1 <> t2 ->
     0 <= i < decompr_cmd_count s ->
     (t1, decompr_lock i) ∈ held ->
     events_of t2 sch = ev ->
     is_Some (spin_after held sch) ->
     exists sch1 sch2,
       sch = sch1 ++ (t2, EvLock (decompr_lock i)) :: sch2 /\
       (t1, EvUnlock (decompr_lock i)) ∈ sch1).
Proof.
  intros Hsus slots marked_busy.
  pose proof (eh_suspend_cases s) as Hc. cbv zeta in Hc.
  rewrite Hsus in Hc. destruct Hc as (Hev & Hbusy' & Hfree).
  subst slots marked_busy.
  split; [done|]. split; [done|]. split; [|split].
  - intros Hnr Hflags. apply Hfree. intros [?|?]; [lia|by apply Hflags].
  - intros fifo_size n cbufs dbufs ops y Hn Hrun Hdev.
    pose proof (reachable_not_busy _ _ _ _ _ _ Hn Hrun) as Hbusy.
    rewrite Hdev in Hbusy.
    assert (Hflags : ~ exists i, 0 <= i < decompr_cmd_count s /\
                                  decompr_busy s !!! Z.to_nat i = true).
    { intros (i & Hi & Hb).
      apply not_true_iff_false in Hbusy. apply Hbusy. apply existsb_exists.
      exists i. split; [|done]. apply list_elem_of_In, elem_of_seqZ. lia. }
    split; [done|]. split.
    + intros Hret. destruct (Z.lt_ge_cases 0 (nr_request s)) as [|Hle]; [done|].
      destruct Hfree as [Hz _]; [intros [?|?]; [lia|by apply Hflags]|].
      rewrite Hz in Hret. discriminate.
    + intros Hnr. apply Hbusy'. by left.
  - intros t1 t2 i held sch Hne Hi Hheld Hsch Hok.
    apply (spin_after_waits t1 t2 _ sch held); [done|done|done|].
    apply events_of_elem. rewrite Hsch.
    destruct Hev as (body & -> & _).
    apply elem_of_app. right. apply elem_of_app. left.
    apply list_elem_of_In, in_map_iff. exists i. split; [done|].
    apply list_elem_of_In, elem_of_seqZ. lia.
Qed.

End Driver.

(** * Worked examples

    A device with a FIFO of four descriptors and two decompression
    command sets; addresses are translated by the identity and the
    polling loop is given ten jiffies. *)

Definition ex_phys (a : Z) : Z := a.
Definition ex_delay : Z := 10.
Definition ex_cbufs : list Z := [1000; 2000; 3000; 4000].
Definition ex_dbufs : list Z := [9000; 9100].
Definition ex_init : system := initial_system (2 ^ 2) 2 ex_cbufs ex_dbufs.

Definition ex_run (ops : list op) : system :=
  match run ex_phys ex_phys ex_delay ops ex_init with
  | Some y => y
  | None => ex_init
  end.

(** Four requests accepted: the ring is full. *)
Definition ex_ops_full : list op :=
  [OpCompress 1 101; OpCompress 2 102; OpCompress 3 103; OpCompress 4 104].
Definition ex_full : system := Eval vm_compute in ex_run ex_ops_full.

(** Four requests accepted, two completed by the engine and reaped. *)
Definition ex_ops_reaped : list op :=
  ex_ops_full ++
  [OpHwComplete EH_CDESC_COMPRESSED 100 1 0; OpHwComplete EH_CDESC_ZERO 0 0 0;
   OpReap].
Definition ex_reaped : system := Eval vm_compute in ex_run ex_ops_reaped.

(** A suspended device. *)
Definition ex_ops_suspended : list op := [OpSuspend].
Definition ex_suspended : system := Eval vm_compute in ex_run ex_ops_suspended.

(** The engine reports two descriptors complete, but left the first one
    pending. *)
Definition ex_ops_stale : list op :=
  [OpCompress 1 101; OpCompress 2 102;
   OpHwComplete EH_CDESC_PENDING 0 0 0; OpHwComplete EH_CDESC_COMPRESSED 50 1 0].
Definition ex_stale : system := Eval vm_compute in ex_run ex_ops_stale.

(** A page of zeros completed with a length field of 7. *)
Definition ex_ops_zero : list op :=
  [OpCompress 1 101; OpHwComplete EH_CDESC_ZERO 7 0 0].
Definition ex_zero : system := Eval vm_compute in ex_run ex_ops_zero.

(** Four requests in flight, the engine halts on the third. *)
Definition ex_ops_halt : list op :=
  ex_ops_full ++
  [OpHwComplete EH_CDESC_COMPRESSED 100 1 0; OpHwComplete EH_CDESC_ZERO 0 0 0;
   OpHwComplete EH_CDESC_ERROR_HALTED 0 0 7; OpReap; OpErrorCheck].
Definition ex_halt : system := Eval vm_compute in ex_run ex_ops_halt.

(** The ring is full and the engine halts on the oldest request.  The
    reaper delivers it and wakes a waiting producer, whose request is
    accepted before the reaper reads the error register. *)
Definition ex_ops_race : list op :=
  ex_ops_full ++
  [OpHwComplete EH_CDESC_ERROR_HALTED 0 0 7; OpReap; OpCompress 5 105].
Definition ex_race : system := Eval vm_compute in ex_run ex_ops_race.
Definition ex_race_end : system :=
  Eval vm_compute in ex_run (ex_ops_race ++ [OpErrorCheck]).



(** Readings of the polling loop: [jiffies] advances by one per turn and
    the command set is done at the fourth read. *)
Definition ex_obs (n : nat) : Z * eh_dcmd_status :=
  (Z.of_nat n, if (n <? 3)%nat then EH_DCMD_PENDING else EH_DCMD_DECOMPRESSED).

(** C1, witness. *)
Lemma ring_pending_bounded_witness :
  pending (dev ex_full) = 4 /\
  (eh_compress_page_try ex_phys (dev ex_full) 5 105).1 = TryAgain.
Proof.
  destruct (ring_pending_bounded ex_phys ex_phys ex_delay 2 2 ex_cbufs ex_dbufs
              ex_ops_full ex_full ltac:(lia) ltac:(vm_compute; reflexivity))
    as (_ & _ & Hfull & _).
  split; [reflexivity|]. apply Hfull. reflexivity.
Defined.



(** The device can be suspended while nothing is outstanding. *)
Example suspended_reached :
  run ex_phys ex_phys ex_delay ex_ops_suspended ex_init = Some ex_suspended /\
  suspended (dev ex_suspended) = true /\
  cdesc_compress_enable (regs (dev ex_suspended)) = false.
Proof. split; [vm_compute; reflexivity|]. split; reflexivity. Qed.

(** C5, witness: the ring is full, the caller waits, and finds the
    device suspended when it tries again. *)
Lemma eh_compress_page_suspended_witness :
  exists ev,
    eh_compress_page ex_phys [fun _ => dev ex_suspended] (dev ex_full) 5 105 =
    Some (- EBUSY, dev ex_suspended, ev).
Proof.
  destruct (eh_compress_page_suspended ex_phys [fun _ => dev ex_suspended] []
              (dev ex_full) 5 105)
    as ((ev & Hev) & _).
  - split; [reflexivity|exact I].
  - reflexivity.
  - eexists. exact Hev.
Defined.

(** C6, witness: a 100-byte buffer at a 128-byte aligned address on
    processor 0, done at the fourth read of the status. *)
Lemma eh_decompress_page_outcomes_witness :
  eh_decompress_page ex_phys ex_phys ex_delay 5 (dev ex_init) 0 0 ex_obs 128 100 77 =
  Some (0,
        [EvLock (decompr_lock 0);
         EvDcmdCsize 0 100; EvDcmdBuf0 0 2 128;
         EvDcmdBuf 0 1 0; EvDcmdBuf 0 2 0; EvDcmdBuf 0 3 0;
         EvDcmdDest 0 77 EH_DCMD_PENDING;
         EvLatency EH_DECOMPRESS_POLL; EvUnlock (decompr_lock 0)]).
Proof.
  destruct (eh_decompress_page_outcomes ex_phys ex_phys ex_delay 5 (dev ex_init)
              0 0 ex_obs 128 100 77 3) as (_ & _ & Hok).
  - reflexivity.
  - reflexivity.
  - lia.
  - intros j Hj.
    destruct j as [|[|[|j]]]; [split; reflexivity..|lia].
  - apply Hok; reflexivity.
Defined.

(** C7, witness: the same buffer is handed to the engine in place, with
    size code 2 for 128 bytes. *)
Lemma eh_setup_dcmd_copy_iff_witness :
  eh_setup_dcmd ex_phys ex_phys (dev ex_init) 0 128 100 77 =
  [EvDcmdCsize 0 100; EvDcmdBuf0 0 2 128;
   EvDcmdBuf 0 1 0; EvDcmdBuf 0 2 0; EvDcmdBuf 0 3 0;
   EvDcmdDest 0 77 EH_DCMD_PENDING].
Proof.
  destruct (eh_setup_dcmd_copy_iff ex_phys ex_phys (dev ex_init) 0 128 100 77)
    as (_ & _ & _ & Hnocopy).
  - lia.
  - apply Hnocopy. vm_compute. intros [H|H]; discriminate H.
Defined.

(** A decompression on processor 0 and a call of [eh_suspend] side by
    side: thread 1 takes the lock of command set 0 and programs it;
    thread 2 enters [eh_suspend], takes [fifo_prod_lock] and spins on
    the lock of command set 0; thread 1 reads the result and gives the
    lock back; thread 2 goes on. *)
Definition ex_sched : schedule :=
  [(1%nat, EvLock (decompr_lock 0)); (1%nat, EvDcmdCsize 0 100);
   (1%nat, EvDcmdBuf0 0 2 128); (1%nat, EvDcmdBuf 0 1 0);
   (1%nat, EvDcmdBuf 0 2 0); (1%nat, EvDcmdBuf 0 3 0);
   (1%nat, EvDcmdDest 0 77 EH_DCMD_PENDING);
   (2%nat, EvLock fifo_prod_lock);
   (1%nat, EvLatency EH_DECOMPRESS_POLL); (1%nat, EvUnlock (decompr_lock 0));
   (2%nat, EvLock (decompr_lock 0)); (2%nat, EvLock (decompr_lock 1));
   (2%nat, EvUnlock (decompr_lock 1)); (2%nat, EvUnlock (decompr_lock 0));
   (2%nat, EvUnlock fifo_prod_lock)].

(** What [eh_suspend] returns on the initialised device. *)
Definition ex_suspend_result : Z * eh_device * list event :=
  Eval vm_compute in eh_suspend (dev ex_init).

(** C8, witness: on the initialised device [eh_suspend] returns 0, and
    entered while thread 1 holds the lock of command set 0 it gets that
    lock after thread 1 gave it back. *)
Lemma eh_suspend_locks_and_refusal_witness :
  ex_suspend_result.1.1 = 0 /\
  exists sch1 sch2,
    drop 7 ex_sched = sch1 ++ (2%nat, EvLock (decompr_lock 0)) :: sch2 /\
    (1%nat, EvUnlock (decompr_lock 0)) ∈ sch1.
Proof.
  destruct (eh_suspend_locks_and_refusal ex_phys ex_phys ex_delay (dev ex_init)
              ex_suspend_result.1.1 ex_suspend_result.1.2 ex_suspend_result.2
              ltac:(vm_compute; reflexivity))
    as (_ & _ & _ & Hreach & Hwait).
  destruct (Hreach (2 ^ 2) 2 ex_cbufs ex_dbufs [] ex_init
              ltac:(lia) ltac:(reflexivity) ltac:(reflexivity)) as [_ Hiff].
  split; [reflexivity|].
  apply (Hwait 1%nat 2%nat 0 [(1%nat, decompr_lock 0)]).
  - discriminate.
  - vm_compute. split; [discriminate|reflexivity].
  - apply list_elem_of_here.
  - vm_compute. reflexivity.
  - eexists. vm_compute. reflexivity.
Defined.

(** C8, counterexample.  [eh_suspend] is called while a decompression
    is in flight on command set 0: the command set is programmed, its
    status is pending and thread 1 holds its lock.  The call does not
    come back with [-EBUSY]: it spins until the decompression is over,
    finds no request outstanding and no busy flag set, and suspends the
    device, writing the interrupt masks and the control register. *)
Lemma suspend_during_decompression_succeeds :
  eh_decompress_page ex_phys ex_phys ex_delay 5 (dev ex_init) 0 0 ex_obs 128 100 77 =
    Some (0, events_of 1 ex_sched) /\
  eh_suspend (dev ex_init) = ex_suspend_result /\
  events_of 2 ex_sched = ex_suspend_result.2 /\
  spin_after [] ex_sched = Some [] /\
  spin_after [] (take 7 ex_sched) = Some [(1%nat, decompr_lock 0)] /\
  last (take 7 ex_sched) = Some (1%nat, EvDcmdDest 0 77 EH_DCMD_PENDING) /\
  ex_sched !! 7%nat = Some (2%nat, EvLock fifo_prod_lock) /\
  ex_suspend_result.1.1 = 0 /\
  ex_suspend_result.1.1 <> - EBUSY /\
  suspended ex_suspend_result.1.2 = true /\
  regs ex_suspend_result.1.2 <> regs (dev ex_init).
Proof.
  repeat match goal with |- _ /\ _ => split end;
    try (vm_compute; reflexivity); vm_compute; discriminate.
Qed.

(** C10, witness. *)
Lemma decompr_busy_never_set_witness :
  decompr_busy (dev ex_reaped) = [false; false].
Proof.
  destruct (decompr_busy_never_set ex_phys ex_phys ex_delay (2 ^ 2) 2 ex_cbufs
              ex_dbufs ex_ops_reaped ex_reaped ltac:(lia)
              ltac:(vm_compute; reflexivity)) as (Hb & _).
  exact Hb.
Defined.

(** C4, witness of the statement as the code has it: the first of the
    two reported descriptors is still pending, and the loop goes on to
    the second. *)
Lemma eh_process_idle_or_pending_continues_witness :
  (eh_process_completed_descriptor (dev ex_stale) 0
     (completions (dev ex_stale) !!! 0%nat)).1.1 = 0.
Proof.
  destruct (eh_process_idle_or_pending_continues (dev ex_stale) 0 2 7) as [H1 _].
  - right. reflexivity.
  - lia.
  - change (u16 (Z.land 0 (fifo_index_mask (dev ex_stale)))) with 0 in H1.
    change (Z.to_nat (Z.land 0 (fifo_index_mask (dev ex_stale)))) with 0%nat in H1.
    rewrite H1. reflexivity.
Defined.

(** C4, counterexample.  The engine reported two descriptors and left
    the first one pending.  One iteration of the completion thread
    delivers both, the pending one with its status as found, moves
    [complete_index] past both and stays in its loop: nothing stops and
    no completion is synthesized.  With [EH_CDESC_ERROR_HALTED] in the
    same place ([ex_halt]) the thread leaves. *)
Lemma idle_or_pending_not_escalated :
  run ex_phys ex_phys ex_delay ex_ops_stale ex_init = Some ex_stale /\
  cdesc_complete_idx (regs (dev ex_stale)) = 2 /\
  status (fifo (dev ex_stale) !!! 0%nat) = EH_CDESC_PENDING /\
  exists s' ev,
    eh_comp_thread_iteration 8 (dev ex_stale) = Some (s', ev) /\
    callbacks ev = [EvCallback EH_CDESC_PENDING NULL 0 101;
                    EvCallback EH_CDESC_COMPRESSED 2000 50 102] /\
    complete_index s' = 2 /\
    comp_thread s' = THREAD_RUNNING /\
    comp_thread (dev ex_halt) = THREAD_EXITED.
Proof.
  split; [vm_compute; reflexivity|].
  split; [reflexivity|]. split; [reflexivity|].
  eexists _, _. split; [vm_compute; reflexivity|].
  repeat split; reflexivity.
Qed.

(** C9, counterexample.  The engine completed a page of zeros and left 7
    in the length field of the descriptor: the callback gets 7, not 0. *)
Lemma zero_page_size_not_cleared :
  run ex_phys ex_phys ex_delay ex_ops_zero ex_init = Some ex_zero /\
  callbacks (eh_process_completed_descriptor (dev ex_zero) 0
               (completions (dev ex_zero) !!! 0%nat)).2
  = [EvCallback EH_CDESC_ZERO NULL 7 101] /\
  callbacks (eh_process_completed_descriptor (dev ex_zero) 0
               (completions (dev ex_zero) !!! 0%nat)).2
  <> [EvCallback EH_CDESC_ZERO NULL 0 101].
Proof.
  split; [vm_compute; reflexivity|].
  split; [reflexivity|]. vm_compute. discriminate.
Qed.

(** The scenario of the halt at the third of four requests: the first
    two are delivered as the engine completed them, the third with the
    status [EH_CDESC_ERROR_HALTED] of its descriptor, and the fourth
    gets the synthesized completion. *)
Example halt_at_third_of_four :
  run ex_phys ex_phys ex_delay ex_ops_halt ex_init = Some ex_halt /\
  callbacks (trace ex_halt) =
  [EvCallback EH_CDESC_COMPRESSED 1000 100 101;
   EvCallback EH_CDESC_ZERO NULL 0 102;
   EvCallback EH_CDESC_ERROR_HALTED NULL 0 103;
   EvCallback EH_CDESC_ERROR_HALTED NULL 0 104] /\
  comp_thread (dev ex_halt) = THREAD_EXITED.
Proof. split; [vm_compute; reflexivity|]. split; reflexivity. Qed.

(** C3, the failing run.  With the ring full again when
    [eh_abort_incomplete_descriptors] runs, the masked completion index
    and the masked write index are equal, the loop body is never
    entered, and the four requests in flight get no completion: the
    thread has left, their descriptors stay pending and their tokens
    stay in the ring. *)
Lemma eh_abort_skips_full_ring :
  run ex_phys ex_phys ex_delay ex_ops_race ex_init = Some ex_race /\
  comp_thread (dev ex_race) = THREAD_ERROR_SEEN /\
  err_cond (regs (dev ex_race)) = 7 /\
  cdesc_complete_idx (regs (dev ex_race)) = 1 /\
  write_index (dev ex_race) = 5 /\
  pending (dev ex_race) = 4 /\
  eh_abort_incomplete_descriptors 8 (dev ex_race) = Some (dev ex_race, []) /\
  run ex_phys ex_phys ex_delay (ex_ops_race ++ [OpErrorCheck]) ex_init
  = Some ex_race_end /\
  comp_thread (dev ex_race_end) = THREAD_EXITED /\
  callbacks (trace ex_race_end) = [EvCallback EH_CDESC_ERROR_HALTED NULL 0 101] /\
  submitted ex_race_end = [101; 102; 103; 104; 105] /\
  map status (fifo (dev ex_race_end)) =
  [EH_CDESC_PENDING; EH_CDESC_PENDING; EH_CDESC_PENDING; EH_CDESC_PENDING] /\
  map priv (completions (dev ex_race_end)) = [105; 102; 103; 104].
Proof.
  repeat match goal with |- _ /\ _ => split end;
    vm_compute; reflexivity.
Qed.

(** Why the statements about the ring ask for at least two descriptors.
    [eh_init] lets a FIFO of one descriptor through, though the probe
    never asks for it; the colour mask is then 1, [(1 + 1) & 1] is 0, and
    a second request is accepted over the pending first one. *)
Example fifo_of_one_descriptor :
  eh_fifo_size_invalid 1 = false /\
  exists y,
    run ex_phys ex_phys ex_delay [OpCompress 1 101; OpCompress 2 102]
      (initial_system 1 2 [1000] ex_dbufs) = Some y /\
    submitted y = [101; 102] /\
    nr_request (dev y) = 2 /\
    pending (dev y) = 0.
Proof.
  split; [reflexivity|].
  eexists. split; [vm_compute; reflexivity|].
  repeat split; reflexivity.
Qed.

(** * Further worked examples *)

(** Four requests accepted and the first two completed by the engine,
    before the completion thread wakes up. *)
Definition ex_ops_completed : list op :=
  ex_ops_full ++
  [OpHwComplete EH_CDESC_COMPRESSED 100 1 0; OpHwComplete EH_CDESC_ZERO 0 0 0].
Definition ex_completed : system := Eval vm_compute in ex_run ex_ops_completed.

(** What the completion thread does when it wakes up then. *)
Definition ex_reap_events : list event :=
  Eval vm_compute in
    match eh_comp_thread_reap (fifo_fuel (dev ex_completed)) (dev ex_completed) with
    | Some (_, ev) => ev
    | None => []
    end.

(** Three requests gone through the ring: it is empty again, with its
    indices at 3. *)
Definition ex_ops_drained : list op :=
  [OpCompress 1 101; OpCompress 2 102; OpCompress 3 103;
   OpHwComplete EH_CDESC_COMPRESSED 100 1 0; OpHwComplete EH_CDESC_ZERO 0 0 0;
   OpHwComplete EH_CDESC_COPIED 4096 0 0; OpReap].
Definition ex_drained : system := Eval vm_compute in ex_run ex_ops_drained.

Definition ex_batch : list (Z * Z) := [(11, 201); (12, 202); (13, 203); (14, 204)].
Definition ex_batch_results : list hw_result :=
  [mk_hw_result EH_CDESC_COMPRESSED 1500 2 0; mk_hw_result EH_CDESC_ZERO 0 0 0;
   mk_hw_result EH_CDESC_COPIED 4096 0 0; mk_hw_result EH_CDESC_ABORT 0 0 0].

(** X1, witness. *)
Lemma ring_indices_in_order_witness :
  cdesc_wridx (regs (dev ex_reaped)) = write_index (dev ex_reaped) /\
  0 <= reported (dev ex_reaped) <= pending (dev ex_reaped).
Proof.
  destruct (ring_indices_in_order ex_phys ex_phys ex_delay 2 2 ex_cbufs ex_dbufs
              ex_ops_reaped ex_reaped ltac:(lia) ltac:(vm_compute; reflexivity))
    as (_ & _ & _ & _ & _ & _ & _ & _ & Hw & Hr & _).
  split; [exact Hw|exact Hr].
Defined.

(** X2, witness. *)
Lemma eh_compress_page_accepts_witness :
  exists s',
    eh_compress_page ex_phys [] (dev ex_reaped) 5 105 =
    Some (0, s', [EvLock fifo_prod_lock; EvUnlock fifo_prod_lock]) /\
    completions s' !!! 0%nat = mk_cmpl 105 /\
    pending s' = 3.
Proof.
  destruct (eh_compress_page_accepts ex_phys ex_phys ex_delay 2 2 ex_cbufs ex_dbufs
              ex_ops_reaped ex_reaped 5 105 []
              ltac:(lia) ltac:(vm_compute; reflexivity) ltac:(reflexivity)
              ltac:(vm_compute; reflexivity))
    as (s' & Hrun & Htok & _ & _ & _ & _ & _ & _ & Hp).
  exists s'. split; [exact Hrun|]. split; [exact Htok|exact Hp].
Defined.

(** X3, witness. *)
Lemma reap_twice_delivers_once_witness :
  callbacks ex_reap_events =
    [EvCallback EH_CDESC_COMPRESSED 1000 100 101; EvCallback EH_CDESC_ZERO 0 0 102] /\
  eh_comp_thread_reap 8 (dev ex_reaped) = Some (dev ex_reaped, []).
Proof.
  destruct (reap_twice_delivers_once ex_phys ex_phys ex_delay 2 2 ex_cbufs ex_dbufs
              ex_ops_completed ex_completed (dev ex_reaped) ex_reap_events
              ltac:(lia) ltac:(vm_compute; reflexivity) ltac:(reflexivity)
              ltac:(vm_compute; reflexivity))
    as (_ & _ & _ & Hagain).
  split; [reflexivity|apply Hagain].
Defined.

(** X4, witness. *)
Lemma ring_slots_layout_witness :
  status (fifo (dev ex_reaped) !!! 2%nat) = EH_CDESC_PENDING /\
  completions (dev ex_reaped) !!! 1%nat = mk_cmpl NULL.
Proof.
  destruct (ring_slots_layout ex_phys ex_phys ex_delay 2 2 ex_cbufs ex_dbufs
              ex_ops_reaped ex_reaped ltac:(lia) ltac:(vm_compute; reflexivity))
    as (Hp & Hc & _).
  split.
  - exact (Hp 0 ltac:(vm_compute; split; [discriminate|reflexivity])).
  - exact (proj2 (Hc 3 ltac:(vm_compute; split; [discriminate|reflexivity]))).
Defined.

(** X5, witness. *)
Lemma batch_round_trip_witness :
  exists y',
    run ex_phys ex_phys ex_delay
      (map submit_op ex_batch ++ map complete_op ex_batch_results ++ [OpReap])
      ex_drained = Some y' /\
    callbacks (trace y') =
      callbacks (trace ex_drained) ++
      [EvCallback EH_CDESC_COMPRESSED (4000 + 2048) 1500 201;
       EvCallback EH_CDESC_ZERO NULL 0 202;
       EvCallback EH_CDESC_COPIED 2000 4096 203;
       EvCallback EH_CDESC_ABORT NULL 0 204] /\
    pending (dev y') = 0.
Proof.
  destruct (batch_round_trip ex_phys ex_phys ex_delay 2 2 ex_cbufs ex_dbufs
              ex_ops_drained ex_drained ex_batch ex_batch_results
              ltac:(lia) ltac:(vm_compute; reflexivity) ltac:(reflexivity)
              ltac:(reflexivity) ltac:(reflexivity) ltac:(vm_compute; reflexivity)
              ltac:(discriminate) ltac:(vm_compute; discriminate)
              ltac:(reflexivity)
              ltac:(repeat constructor; discriminate))
    as (y' & Hrun & Hcb & Hp & _).
  exists y'. split; [exact Hrun|]. split; [|exact Hp].
  rewrite Hcb. reflexivity.
Defined.

(** ** Bring-up *)

(** The quirk bit is taken to be bit 0. *)
Definition ex_quirk : Z := 1.

(** The reset bit reads back as set three times, then as clear. *)
Definition ex_gctrl (n : nat) : Z := if (n <? 3)%nat then 1 else 0.

(** An engine with two command sets and a kernel that grants every
    request. *)
Definition ex_env : bringup_env :=
  mk_bringup_env (fun _ => 50000) 2 2 100 200 300 (fun i => 1000 * (i + 1))
    400 (fun i => 9000 + 100 * i) ex_gctrl 0 700 800.

(** The same, but the third page of the compression buffers cannot be
    had. *)
Definition ex_env_nomem : bringup_env :=
  mk_bringup_env (fun _ => 50000) 2 2 100 200 300
    (fun i => if i =? 2 then NULL else 1000 * (i + 1))
    400 (fun i => 9000 + 100 * i) ex_gctrl 0 700 800.

(** The same as [ex_env], but the reset never completes. *)
Definition ex_env_noreset : bringup_env :=
  mk_bringup_env (fun _ => 50000) 2 2 100 200 300 (fun i => 1000 * (i + 1))
    400 (fun i => 9000 + 100 * i) (fun _ => 1) 0 700 800.

Definition ex_compr_fail : Z * eh_device_mem * list kevent :=
  Eval vm_compute in eh_init_compression ex_env_nomem (zeroed_device 2) 4.

Definition ex_hw_timeout : Z * eh_device_mem * list kevent :=
  Eval vm_compute in eh_hw_init ex_quirk ex_env_noreset (zeroed_device 2) 4 5000 0.

Definition ex_probed : Z * eh_device_mem * list Z * list kevent :=
  Eval vm_compute in eh_init_full ex_quirk ex_env (zeroed_device 2) 77 4 5000 33 0 [].

(** Two devices, one handed out, given back and the other handed out. *)
Definition ex_pool_ops : list pool_op :=
  [PoolAdd 77; PoolAdd 78; PoolCreate 1 2; PoolDestroy 77; PoolCreate 3 4].

(** The engine halted on the only request; the thread delivered it and
    is about to read the error register. *)
Definition ex_ops_error_window : list op :=
  [OpCompress 1 101; OpHwComplete EH_CDESC_ERROR_HALTED 0 0 7; OpReap].
Definition ex_error_window : system :=
  Eval vm_compute in ex_run ex_ops_error_window.

(** X6, witness: a suspend and a resume between the two halves of the
    error path of the completion thread. *)
Lemma suspend_resume_round_trip_witness :
  comp_thread (dev ex_error_window) = THREAD_ERROR_SEEN /\
  exists y1 y2,
    step ex_phys ex_phys ex_delay OpSuspend ex_error_window = Some y1 /\
    step ex_phys ex_phys ex_delay OpResume y1 = Some y2 /\
    write_index (dev y2) = 0 /\ suspended (dev y2) = false.
Proof.
  split; [reflexivity|].
  destruct (suspend_resume_round_trip ex_phys ex_phys ex_delay 2 2 ex_cbufs ex_dbufs
              ex_ops_error_window ex_error_window ltac:(lia) ltac:(lia)
              ltac:(vm_compute; reflexivity) ltac:(vm_compute; reflexivity))
    as (y1 & y2 & H1 & _ & _ & _ & _ & _ & H2 & Hs & _ & Hw & _).
  exists y1, y2. split; [exact H1|]. split; [exact H2|]. split; [exact Hw|exact Hs].
Defined.

(** X7, witness. *)
Lemma lock_discipline_witness :
  locks_after [] (trace ex_halt) = Some [].
Proof.
  exact (proj1 (lock_discipline ex_phys ex_phys ex_delay (2 ^ 2) 2 ex_cbufs ex_dbufs
                  ex_ops_halt ex_halt ltac:(vm_compute; reflexivity))).
Defined.

(** X8, witness. *)
Lemma eh_reset_bounded_witness :
  (eh_reset ex_quirk 0 ex_gctrl).1 = 0 /\
  (gctrl_reads (eh_reset ex_quirk 0 ex_gctrl).2 <= EH_MAX_RESET_WAIT)%nat.
Proof.
  destruct (eh_reset_bounded ex_quirk 0 ex_gctrl) as (_ & H & _).
  destruct (H ltac:(reflexivity)) as (_ & Hz & Hr & _).
  split; [|exact Hr]. apply Hz. exists 3%nat.
  repeat split; try reflexivity.
  - unfold EH_MAX_RESET_WAIT. lia.
  - intros m Hm. do 3 (destruct m as [|m]; [discriminate|]). lia.
Defined.

(** X9, witness. *)
Lemma eh_init_compression_balanced_witness :
  ex_compr_fail.1.1 = - ENOMEM /\
  held_after [] ex_compr_fail.2 = Some [].
Proof.
  destruct (eh_init_compression_balanced ex_env_nomem (zeroed_device 2) 4
              ex_compr_fail.1.1 ex_compr_fail.1.2 ex_compr_fail.2
              ltac:(reflexivity) ltac:(reflexivity) ltac:(reflexivity)
              ltac:(vm_compute; reflexivity))
    as [[(_ & Hret & _)|(_ & Hret & Hheld & _)] _].
  - vm_compute in Hret. discriminate.
  - split; [exact Hret|exact Hheld].
Defined.

(** X10, witness. *)
Lemma eh_hw_init_outcomes_witness :
  ex_hw_timeout.1.1 = - ETIMEDOUT /\
  held_after [] ex_hw_timeout.2 = Some [].
Proof.
  destruct (eh_hw_init_outcomes ex_quirk ex_env_noreset (zeroed_device 2) 4 5000 0
              ex_hw_timeout.1.1 ex_hw_timeout.1.2 ex_hw_timeout.2
              (zeroed_device_clean 2 2 ltac:(vm_compute; lia))
              ltac:(vm_compute; reflexivity))
    as (_ & Hfail & _).
  split; [reflexivity|]. apply Hfail. vm_compute. discriminate.
Defined.

(** X11, witness. *)
Lemma eh_init_deinit_balanced_witness :
  ex_probed.1.1.1 = 0 /\ ex_probed.1.2 = [77] /\
  held_after [] (ex_probed.2 ++ (eh_deinit ex_probed.1.1.2).2) = Some [].
Proof.
  destruct (eh_init_deinit_balanced ex_quirk ex_env (zeroed_device 2) 77 4 5000 33 0 []
              ex_probed.1.1.1 ex_probed.1.1.2 ex_probed.1.2 ex_probed.2
              (zeroed_device_clean 2 2 ltac:(vm_compute; lia))
              ltac:(vm_compute; reflexivity))
    as (_ & Hok).
  destruct (Hok ltac:(reflexivity)) as (Hl & _ & Hbal & _).
  split; [reflexivity|]. split; [exact Hl|exact Hbal].
Defined.

(** X12, witness. *)
Lemma eh_create_exclusive_witness :
  exists p,
    pool_run ex_pool_ops empty_pool = Some p /\
    claimed p = [78] /\
    NoDup (eh_dev_list p ++ claimed p) /\
    (eh_create 5 6 (eh_dev_list p) (callback_of p)).1.1 = 77.
Proof.
  destruct (pool_run ex_pool_ops empty_pool) as [p|] eqn:E;
    [|vm_compute in E; discriminate].
  exists p.
  destruct (eh_create_exclusive ex_pool_ops p 5 6 E) as (Hnd & _ & _).
  split; [reflexivity|]. split; [|split; [exact Hnd|]].
  - vm_compute in E. injection E as <-. reflexivity.
  - vm_compute in E. injection E as <-. reflexivity.
Defined.

(** X13, witness. *)
Lemma eh_remove_leaves_device_listed_witness :
  (eh_remove ex_probed.1.1.2 77 ex_probed.1.2).1 = [77] /\
  (eh_create 5 6 (eh_remove ex_probed.1.1.2 77 ex_probed.1.2).1
     (fun _ => (NULL, NULL))).1.1 = 77 /\
  held_after [ResMem 77]
    (ex_probed.2 ++ (eh_remove ex_probed.1.1.2 77 ex_probed.1.2).2) = Some [].
Proof.
  destruct (eh_remove_leaves_device_listed ex_quirk ex_env (zeroed_device 2) 77 4 5000
              33 0 ex_probed.1.1.2 ex_probed.1.2 ex_probed.2 5 6
              (fun _ => (NULL, NULL))
              (zeroed_device_clean 2 2 ltac:(vm_compute; lia))
              ltac:(discriminate) ltac:(vm_compute; reflexivity))
    as (Hheld & Hl & Hc).
  split; [exact Hl|]. split; [exact Hc|exact Hheld].
Defined.

(** X14, witness. *)
Lemma eh_decompress_page_returns_witness :
  exists ev,
    eh_decompress_page ex_phys ex_phys ex_delay 20 (dev ex_init) 0 0 ex_obs 4224 100 7 =
    Some (0, ev).
Proof.
  destruct (eh_decompress_page_returns ex_phys ex_phys ex_delay 20 (dev ex_init) 0 0
              ex_obs 4224 100 7 11 ltac:(lia) ltac:(vm_compute; reflexivity))
    as (ret & ev & Hr & _).
  exists ev. rewrite Hr. vm_compute in Hr. injection Hr as <- _. reflexivity.
Defined.

(** X15, witness. *)
Lemma eh_setup_dcmd_block_witness :
  exists copy code src,
    eh_setup_dcmd ex_phys ex_phys (dev ex_init) 0 4224 100 7 =
      copy ++
      [ EvDcmdCsize 0 100; EvDcmdBuf0 0 code src;
        EvDcmdBuf 0 1 0; EvDcmdBuf 0 2 0; EvDcmdBuf 0 3 0;
        EvDcmdDest 0 7 EH_DCMD_PENDING ] /\
    1 <= code <= 7 /\ 100 <= 2 ^ (code + 5).
Proof.
  destruct (eh_setup_dcmd_block ex_phys ex_phys (dev ex_init) 0 4224 100 7
              ltac:(lia) ltac:(vm_compute; split; discriminate))
    as (copy & code & src & He & Hc & [Hs _] & _).
  exists copy, code, src. split; [exact He|]. split; [exact Hc|exact Hs].
Defined.

(** X16, witness. *)
Lemma eh_fifo_size_valid_iff_witness :
  eh_fifo_size_invalid eh_default_fifo_size = false /\
  eh_fifo_size_invalid 24 = true.
Proof.
  split.
  - apply (eh_fifo_size_valid_iff eh_default_fifo_size ltac:(vm_compute; discriminate)).
    split; [exists 8; split; [lia|reflexivity]|vm_compute; discriminate].
  - reflexivity.
Defined.

(** X17, witness. *)
Lemma exited_thread_strands_requests_witness :
  exists y1,
    step ex_phys ex_phys ex_delay (OpCompress 9 109) ex_halt = Some y1 /\
    submitted y1 = submitted ex_halt ++ [109] /\
    step ex_phys ex_phys ex_delay OpReap y1 = None.
Proof.
  destruct (exited_thread_strands_requests ex_phys ex_phys ex_delay 2 2 ex_cbufs
              ex_dbufs ex_ops_halt ex_halt 9 109 ltac:(lia)
              ltac:(vm_compute; reflexivity) ltac:(reflexivity) ltac:(reflexivity)
              ltac:(vm_compute; reflexivity))
    as (y1 & Hstep & _ & Hsub & Hafter).
  exists y1. split; [exact Hstep|]. split; [exact Hsub|].
  exact (proj1 (proj2 (proj2 (Hafter [] y1 eq_refl)))).
Defined.

(** Four requests accepted; the engine completes two and halts on the
    third, and the completion thread has not run yet. *)
Definition ex_ops_halting : list op :=
  ex_ops_full ++
  [OpHwComplete EH_CDESC_COMPRESSED 100 1 0; OpHwComplete EH_CDESC_ZERO 0 0 0;
   OpHwComplete EH_CDESC_ERROR_HALTED 0 0 7].
Definition ex_halting : system := Eval vm_compute in ex_run ex_ops_halting.

(** X18, witness. *)
Lemma halt_recovery_uninterrupted_witness :
  exists s' ev1 ev2,
    eh_comp_thread_iteration (fifo_fuel (dev ex_halting)) (dev ex_halting) =
      Some (s', ev1 ++ EvDumpRegs :: ev2) /\
    comp_thread s' = THREAD_EXITED /\
    length ev2 = 1%nat /\
    submitted ex_halting = delivered (trace ex_halting ++ ev1 ++ EvDumpRegs :: ev2).
Proof.
  destruct (halt_recovery_uninterrupted ex_phys ex_phys ex_delay 2 2 ex_cbufs ex_dbufs
              ex_ops_halting ex_halting ltac:(lia) ltac:(vm_compute; reflexivity)
              ltac:(vm_compute; reflexivity) ltac:(vm_compute; reflexivity)
              ltac:(vm_compute; reflexivity) ltac:(vm_compute; discriminate))
    as (s' & ev1 & ev2 & H1 & H2 & _ & H3 & _ & H4).
  exists s', ev1, ev2. split; [exact H1|]. split; [exact H2|]. split; [exact H3|exact H4].
Defined.
